(** * sprotty: the indexed model tree and the viewer cache

    A shallow embedding of the model classes of sprotty (SModelElement,
    SParentElement, SChildElement, SModelRoot, SModelIndex and
    createRandomId) and of its ViewerCache, with the properties of the
    specification stated and proved over it.

    JavaScript objects are shared and mutated in place, and a thrown
    [Error] does not undo the assignments made before it.  Both facts
    matter for the properties below, so model elements live in a store
    addressed by object identity and every operation is a state
    transformer whose final store is returned whatever the completion
    is. *)

From stdpp Require Import gmap strings list fin_maps.
From Stdlib Require Import ZArith Lia.

Local Open Scope Z_scope.

(** ** Completions and the store *)

(** The [Error]s thrown by the model code, named by what they report.
    [TypeError] is the engine's own error for a property access through a
    reference that holds no object of the expected shape. *)
Inductive Error : Type :=
  | DuplicateIdentifier (id : string)   (* "Duplicate ID in model: " + id *)
  | ChildNotFound                       (* `No such child ${child.id}` *)
  | IndexOutOfBounds                    (* `Child index ${i} out of bounds ...` *)
  | DetachedElement                     (* "Element has no root" *)
  | DelegateError                       (* whatever the delegate viewer throws *)
  | TypeError.

(** How a call ends: it returns, it throws, or the bound on loop
    iterations and recursion depth given to the model was not enough. *)
Inductive Completion (A : Type) : Type :=
  | Normal (a : A)
  | Throw (e : Error)
  | Diverge.

Arguments Normal {A} a.
Arguments Throw {A} e.
Arguments Diverge {A}.

(** Object identity. *)
Definition loc := positive.

(** The class an object was constructed from, as [instanceof] sees it.
    A root carries the reference to its [SModelIndex]. *)
Inductive ElementClass : Type :=
  | ParentClass                 (* new SParentElement() *)
  | ChildClass                  (* new SChildElement() *)
  | RootClass (index : loc).    (* new SModelRoot(index) *)

(** The own properties of a model element.  An id that is [undefined] or
    the empty string is falsy in [!element.id]: both are the empty string
    here.  [parent] is [None] when the property is unset or deleted. *)
Record SModelElement : Type := mkElement {
  type : string;
  id : string;
  children : list loc;
  parent : option loc;
  cls : ElementClass
}.

(** The store: the model elements, the [id2element] map of every
    [SModelIndex], and the values [Math.floor(Math.random() * n)] will
    take, with the number of those already consumed. *)
Record Store : Type := mkStore {
  elements : gmap loc SModelElement;
  indices : gmap loc (gmap string loc);
  random : nat -> nat;
  drawn : nat
}.

Definition M (St A : Type) : Type := St -> Completion A * St.

Definition ret {St A} (a : A) : M St A := fun s => (Normal a, s).

Definition bind {St A B} (m : M St A) (k : A -> M St B) : M St B :=
  fun s =>
    match m s with
    | (Normal a, s') => k a s'
    | (Throw e, s') => (Throw e, s')
    | (Diverge, s') => (Diverge, s')
    end.

Definition throw {St A} (e : Error) : M St A := fun s => (Throw e, s).

Definition diverge {St A} : M St A := fun s => (Diverge, s).

Declare Scope js_scope.
Delimit Scope js_scope with js.
Notation "x <- m ;; k" := (bind m (fun x => k))
  (at level 100, m at next level, right associativity) : js_scope.
Notation "m ;; k" := (bind m (fun _ => k))
  (at level 100, right associativity) : js_scope.
Local Open Scope js_scope.

(** [for (const x of l) body(x)] *)
Fixpoint for_of {St A} (l : list A) (body : A -> M St unit) : M St unit :=
  match l with
  | [] => ret tt
  | x :: rest => body x ;; for_of rest body
  end.

(** Property reads and writes. *)
Definition read_element (e : loc) : M Store SModelElement :=
  fun s =>
    match elements s !! e with
    | Some el => (Normal el, s)
    | None => (Throw TypeError, s)
    end.

Definition write_element (e : loc) (el : SModelElement) : M Store unit :=
  fun s =>
    (Normal tt,
     mkStore (<[e := el]> (elements s)) (indices s) (random s) (drawn s)).

Definition set_id (e : loc) (new_id : string) : M Store unit :=
  el <- read_element e ;;
  write_element e (mkElement (type el) new_id (children el) (parent el) (cls el)).

Definition set_children (e : loc) (cs : list loc) : M Store unit :=
  el <- read_element e ;;
  write_element e (mkElement (type el) (id el) cs (parent el) (cls el)).

Definition set_parent (e : loc) (p : option loc) : M Store unit :=
  el <- read_element e ;;
  write_element e (mkElement (type el) (id el) (children el) p (cls el)).

Definition read_index (ix : loc) : M Store (gmap string loc) :=
  fun s =>
    match indices s !! ix with
    | Some m => (Normal m, s)
    | None => (Throw TypeError, s)
    end.

Definition write_index (ix : loc) (m : gmap string loc) : M Store unit :=
  fun s =>
    (Normal tt,
     mkStore (elements s) (<[ix := m]> (indices s)) (random s) (drawn s)).

(** [Math.floor(Math.random() * n)]: the next value of the stream.  The
    contract of [Math.random] (a number in [0, 1)) makes it smaller than
    [n]; the theorems that need this assume it of the stream. *)
Definition Math_floor_random (n : nat) : M Store nat :=
  fun s =>
    (Normal (random s (drawn s)),
     mkStore (elements s) (indices s) (random s) (S (drawn s))).

(** ** createRandomId *)

Definition ID_CHARS : string := "0123456789abcdefghijklmnopqrstuvwxyz".

(** [s.charAt(k)]: the empty string when [k] is out of range. *)
Definition charAt (s : string) (k : nat) : string :=
  match String.get k s with
  | Some c => String c EmptyString
  | None => EmptyString
  end.

(** The [for] loop of [createRandomId], [n] iterations left. *)
Fixpoint createRandomId_loop (n : nat) (acc : string) : M Store string :=
  match n with
  | O => ret acc
  | S n' =>
      k <- Math_floor_random (String.length ID_CHARS) ;;
      createRandomId_loop n' (acc +:+ charAt ID_CHARS k)
  end.

Definition createRandomId (length : nat) : M Store string :=
  createRandomId_loop length EmptyString.

(** The default value of the [length] parameter. *)
Definition default_length : nat := 8.

(** ** SModelIndex *)

Module SModelIndex.

(** [this.id2element.has(element.id)] *)
Definition contains (ix e : loc) : M Store bool :=
  el <- read_element e ;;
  m <- read_index ix ;;
  ret (bool_decide (is_Some (m !! id el))).

(** [this.id2element.get(id)] *)
Definition getById (ix : loc) (i : string) : M Store (option loc) :=
  m <- read_index ix ;;
  ret (m !! i).

(** [do { element.id = createRandomId() } while (this.contains(element))],
    at most [tries] iterations. *)
Fixpoint assign_random_id (tries : nat) (ix e : loc) : M Store unit :=
  match tries with
  | O => diverge
  | S t =>
      new_id <- createRandomId default_length ;;
      set_id e new_id ;;
      again <- contains ix e ;;
      if again then assign_random_id t ix e else ret tt
  end.

(** The body of [add] up to and including [this.id2element.set]. *)
Definition register (tries : nat) (ix e : loc) : M Store unit :=
  el <- read_element e ;;
  (if String.eqb (id el) EmptyString
   then assign_random_id tries ix e
   else
     dup <- contains ix e ;;
     if dup then throw (DuplicateIdentifier (id el)) else ret tt) ;;
  el' <- read_element e ;;
  m <- read_index ix ;;
  write_index ix (<[id el' := e]> m).

(** [add(element)].  [depth] bounds the nesting of the recursive calls,
    [tries] the iterations of each retry loop.  An element without a
    [children] array is one whose [children] is empty: the loop over the
    children does nothing for either. *)
Fixpoint add (depth tries : nat) (ix e : loc) : M Store unit :=
  match depth with
  | O => diverge
  | S d =>
      register tries ix e ;;
      el <- read_element e ;;
      for_of (children el) (add d tries ix)
  end.

(** [this.id2element.delete(element.id)], the first statement of
    [remove]. *)
Definition unregister (ix e : loc) : M Store unit :=
  el <- read_element e ;;
  m <- read_index ix ;;
  write_index ix (delete (id el) m).

(** [remove(element)], with [depth] as in [add]. *)
Fixpoint remove (depth : nat) (ix e : loc) : M Store unit :=
  match depth with
  | O => diverge
  | S d =>
      unregister ix e ;;
      el <- read_element e ;;
      for_of (children el) (remove d ix)
  end.

End SModelIndex.

(** ** SModelElement: the [root] and [index] getters *)

Module SModelElement.

(** The [while (current)] loop of [get root], at most [fuel] iterations. *)
Fixpoint root_from (fuel : nat) (current : option loc) : M Store loc :=
  match current with
  | None => throw DetachedElement
  | Some c =>
      match fuel with
      | O => diverge
      | S f =>
          el <- read_element c ;;
          match cls el with
          | RootClass _ => ret c
          | ChildClass => root_from f (parent el)
          | ParentClass => root_from f None
          end
      end
  end.

Definition root (fuel : nat) (e : loc) : M Store loc :=
  root_from fuel (Some e).

(** [get index() { return this.root.index }]; the root's own [index] is
    the data property set by its constructor. *)
Definition index (fuel : nat) (e : loc) : M Store loc :=
  r <- root fuel e ;;
  el <- read_element r ;;
  match cls el with
  | RootClass ix => ret ix
  | _ => throw TypeError
  end.

End SModelElement.

(** ** Arrays *)

(** The start position [Array.prototype.splice] computes from its first
    argument: counted from the end when negative, clamped to the array. *)
Definition splice_start (start : Z) (len : nat) : nat :=
  if start <? 0 then Z.to_nat (Z.max (Z.of_nat len + start) 0)
  else Z.to_nat (Z.min start (Z.of_nat len)).

(** [l.splice(start, deleteCount, ...items)], the array it leaves. *)
Definition splice {A} (start : Z) (deleteCount : nat) (items l : list A)
  : list A :=
  let st := splice_start start (length l) in
  take st l ++ items ++ drop (st + deleteCount) l.

(** [l.indexOf(x)]: position of the first element identical to [x],
    or -1. *)
Fixpoint indexOf (l : list loc) (x : loc) : Z :=
  match l with
  | [] => -1
  | y :: rest =>
      if decide (y = x) then 0
      else let k := indexOf rest x in if k =? -1 then -1 else k + 1
  end.

(** ** SParentElement *)

Module SParentElement.

(** [add(child, i?)].  [fuel] bounds the walk to the root and the depth
    of the index registration, [tries] each retry loop of the index. *)
Definition add (fuel tries : nat) (this child : loc) (i : option Z)
  : M Store unit :=
  el <- read_element this ;;
  match i with
  | None => set_children this (children el ++ [child])
  | Some i =>
      if (i <? 0) || (i >? Z.of_nat (length (children el)))
      then throw IndexOutOfBounds
      else set_children this (splice i 0 [child] (children el))
  end ;;
  set_parent child (Some this) ;;
  ix <- SModelElement.index fuel this ;;
  SModelIndex.add fuel tries ix child.

(** [move(child, newIndex)] *)
Definition move (this child : loc) (newIndex : Z) : M Store unit :=
  el <- read_element this ;;
  let i := indexOf (children el) child in
  if i =? -1 then throw ChildNotFound
  else if (newIndex <? 0) || (newIndex >? Z.of_nat (length (children el)) - 1)
  then throw IndexOutOfBounds
  else set_children this
         (splice newIndex 0 [child] (splice i 1 [] (children el))).

(** [delete child.parent; this.index.remove(child)], the two statements
    that [remove] and both branches of [removeAll] end a detachment
    with. *)
Definition detach (fuel : nat) (this child : loc) : M Store unit :=
  set_parent child None ;;
  ix <- SModelElement.index fuel this ;;
  SModelIndex.remove fuel ix child.

(** [remove(child)] *)
Definition remove (fuel : nat) (this child : loc) : M Store unit :=
  el <- read_element this ;;
  let i := indexOf (children el) child in
  if i <? 0 then throw ChildNotFound
  else
    set_children this (splice i 1 [] (children el)) ;;
    detach fuel this child.

(** A [filter] argument of [removeAll]: a callback that inspects the
    model and answers, without changing anything. *)
Definition Filter : Type := Store -> loc -> bool.

Definition call_filter (filter : Filter) (e : loc) : M Store bool :=
  fun s => (Normal (filter s e), s).

(** The [for (let i = children.length - 1; i >= 0; i--)] loop of
    [removeAll], with [n] positions left to visit: [i] is [n - 1].  The
    array only loses elements at positions the loop has passed, so
    [children[i]] is always an element; the model makes a call of the
    filter on [undefined] a TypeError. *)
Fixpoint removeAll_loop (fuel : nat) (filter : Filter) (this : loc) (n : nat)
  : M Store unit :=
  match n with
  | O => ret tt
  | S i =>
      el <- read_element this ;;
      match children el !! i with
      | None => throw TypeError
      | Some child =>
          matches <- call_filter filter child ;;
          if matches
          then
            set_children this (splice (Z.of_nat i) 1 [] (children el)) ;;
            detach fuel this child
          else ret tt
      end ;;
      removeAll_loop fuel filter this i
  end.

(** [removeAll(filter?)] *)
Definition removeAll (fuel : nat) (filter : option Filter) (this : loc)
  : M Store unit :=
  el <- read_element this ;;
  match filter with
  | Some filter => removeAll_loop fuel filter this (length (children el))
  | None =>
      for_of (children el) (detach fuel this) ;;
      el' <- read_element this ;;
      set_children this
        (splice 0 (length (children el')) [] (children el'))
  end.

End SParentElement.

(** ** Subtrees, for stating the properties

    [preorder depth h e] lists the elements [index.add] visits from [e]
    in the order it visits them: [e], then the subtree of each child in
    turn.  It is [None] when the children relation of [h] nests deeper
    than [depth] below [e] or leads to a reference without object. *)

Fixpoint collect {A} (f : A -> option (list A)) (l : list A)
  : option (list A) :=
  match l with
  | [] => Some []
  | x :: rest =>
      match f x, collect f rest with
      | Some a, Some b => Some (a ++ b)
      | _, _ => None
      end
  end.

Fixpoint preorder (depth : nat) (h : gmap loc SModelElement) (e : loc)
  : option (list loc) :=
  match depth with
  | O => None
  | S d =>
      match h !! e with
      | None => None
      | Some el =>
          match collect (preorder d h) (children el) with
          | Some below => Some (e :: below)
          | None => None
          end
      end
  end.

(** The id an element has in a store (the empty id for a reference without
    object). *)
Definition id_of (h : gmap loc SModelElement) (e : loc) : string :=
  match h !! e with
  | Some el => id el
  | None => EmptyString
  end.

(** The [id2element] map of the index [ix] (empty for a reference
    without object). *)
Definition id2element (s : Store) (ix : loc) : gmap string loc :=
  default ∅ (indices s !! ix).

(** The map after [id2element.set(id, e)] for each [e] of [l] in turn. *)
Definition set_all (h : gmap loc SModelElement) (l : list loc)
  (m : gmap string loc) : gmap string loc :=
  foldl (fun acc e => <[id_of h e := e]> acc) m l.

(** Every id the alphabet of [createRandomId] can produce. *)
Definition over_ID_CHARS (i : string) : Prop :=
  Forall (fun c => c ∈ String.list_ascii_of_string ID_CHARS)
         (String.list_ascii_of_string i).

(** ** ViewerCache *)

Module ViewerCache.

(** The three entry points of the delegate viewer. *)
Inductive Channel : Type := Hidden | Primary | Popup.

(** The delegate, as far as the cache can observe it: whether a call of
    an entry point with a model returns ([true]) or throws ([false]). *)
Record IViewer : Type := mkViewer {
  update_returns : loc -> bool;
  updateHidden_returns : loc -> bool;
  updatePopup_returns : loc -> bool
}.

(** The fields of the cache, together with what its two collaborators
    hold: the callbacks handed to the syncer and not yet invoked (all of
    them are the closure of [scheduleUpdate], so their number is enough),
    and the calls the delegate has received, oldest first. *)
Record State : Type := mkState {
  cachedModelRoot : option loc;
  cachedHiddenModelRoot : option loc;
  cachedPopup : option loc;
  pending : nat;
  calls : list (Channel * loc)
}.

Definition initial : State := mkState None None None 0 [].

Definition isCacheEmpty (w : State) : bool :=
  match cachedModelRoot w, cachedHiddenModelRoot w, cachedPopup w with
  | None, None, None => true
  | _, _, _ => false
  end.

(** Modelled from the spec: [AnimationFrameSyncer.onEndOfNextFrame], whose
    source is not part of the files at hand.  It queues the callback and
    invokes it exactly once when the frame ends. *)
Definition onEndOfNextFrame (w : State) : State :=
  mkState (cachedModelRoot w) (cachedHiddenModelRoot w) (cachedPopup w)
          (S (pending w)) (calls w).

Definition scheduleUpdate (w : State) : State := onEndOfNextFrame w.

Definition updatePopup (model : loc) (w : State) : State :=
  let empty := isCacheEmpty w in
  let w' := mkState (cachedModelRoot w) (cachedHiddenModelRoot w) (Some model)
                    (pending w) (calls w) in
  if empty then scheduleUpdate w' else w'.

Definition update (model : loc) (w : State) : State :=
  let empty := isCacheEmpty w in
  let w' := mkState (Some model) (cachedHiddenModelRoot w) (cachedPopup w)
                    (pending w) (calls w) in
  if empty then scheduleUpdate w' else w'.

Definition updateHidden (hiddenModel : loc) (w : State) : State :=
  let empty := isCacheEmpty w in
  let w' := mkState (cachedModelRoot w) (Some hiddenModel) (cachedPopup w)
                    (pending w) (calls w) in
  if empty then scheduleUpdate w' else w'.

Section Delegate.

Variable delegate : IViewer.

(** A call of the delegate: it is received, then returns or throws. *)
Definition call (c : Channel) (model : loc) : M State unit :=
  fun w =>
    let w' := mkState (cachedModelRoot w) (cachedHiddenModelRoot w)
                      (cachedPopup w) (pending w) (calls w ++ [(c, model)]) in
    let returns :=
      match c with
      | Hidden => updateHidden_returns delegate model
      | Primary => update_returns delegate model
      | Popup => updatePopup_returns delegate model
      end in
    if returns then (Normal tt, w') else (Throw DelegateError, w').

Definition read {A} (field : State -> A) : M State A :=
  fun w => (Normal (field w), w).

Definition clear (c : Channel) : M State unit :=
  fun w =>
    (Normal tt,
     match c with
     | Hidden => mkState (cachedModelRoot w) None (cachedPopup w)
                         (pending w) (calls w)
     | Primary => mkState None (cachedHiddenModelRoot w) (cachedPopup w)
                          (pending w) (calls w)
     | Popup => mkState (cachedModelRoot w) (cachedHiddenModelRoot w) None
                        (pending w) (calls w)
     end).

(** The callback [scheduleUpdate] hands to the syncer. *)
Definition flush : M State unit :=
  hidden <- read cachedHiddenModelRoot ;;
  match hidden with
  | Some nextHiddenModelRoot =>
      call Hidden nextHiddenModelRoot ;; clear Hidden
  | None => ret tt
  end ;;
  primary <- read cachedModelRoot ;;
  match primary with
  | Some nextModelRoot => call Primary nextModelRoot ;; clear Primary
  | None => ret tt
  end ;;
  popup <- read cachedPopup ;;
  match popup with
  | Some nextModelRoot => call Popup nextModelRoot ;; clear Popup
  | None => ret tt
  end.

(** Modelled from the spec: the end of a frame, at which the syncer
    invokes the oldest callback it holds, once.  Nothing happens when it
    holds none. *)
Definition endOfFrame : M State unit :=
  fun w =>
    match pending w with
    | O => (Normal tt, w)
    | S n =>
        flush (mkState (cachedModelRoot w) (cachedHiddenModelRoot w)
                       (cachedPopup w) n (calls w))
    end.

End Delegate.

(** A call of one of the three update methods. *)
Definition update_on (c : Channel) (model : loc) : State -> State :=
  match c with
  | Hidden => updateHidden model
  | Primary => update model
  | Popup => updatePopup model
  end.

(** A sequence of update calls, first call first. *)
Definition updates (l : list (Channel * loc)) (w : State) : State :=
  foldl (fun acc '(c, model) => update_on c model acc) w l.

(** The slot of a channel, whether a delegate returns from a call, and
    the position of a channel in the order [flush] visits them. *)
Definition slot (c : Channel) (w : State) : option loc :=
  match c with
  | Hidden => cachedHiddenModelRoot w
  | Primary => cachedModelRoot w
  | Popup => cachedPopup w
  end.

Definition returns (d : IViewer) (c : Channel) (model : loc) : bool :=
  match c with
  | Hidden => updateHidden_returns d model
  | Primary => update_returns d model
  | Popup => updatePopup_returns d model
  end.

Definition rank (c : Channel) : nat :=
  match c with Hidden => 0 | Primary => 1 | Popup => 2 end.

(** What [flush] hands to the delegate for a channel: the snapshot of
    its slot, if it holds one. *)
Definition delivery (c : Channel) (w : State) : list (Channel * loc) :=
  match slot c w with
  | Some model => [(c, model)]
  | None => []
  end.

(** What [flush] has handed to the delegate when it comes to the channel
    [c]: the snapshots of the channels it visits before [c]. *)
Definition delivered_before (c : Channel) (w : State) : list (Channel * loc) :=
  match c with
  | Hidden => []
  | Primary => delivery Hidden w
  | Popup => delivery Hidden w ++ delivery Primary w
  end.

(** The three slots are empty. *)
Definition slots_empty (w : State) : Prop :=
  cachedModelRoot w = None /\ cachedHiddenModelRoot w = None /\
  cachedPopup w = None.

(** What can happen to a cache: one of its update methods is called, or
    a frame ends. *)
Inductive step (d : IViewer) : State -> State -> Prop :=
  | step_update c model w : step d w (update_on c model w)
  | step_frame w r w' : endOfFrame d w = (r, w') -> step d w w'.

Global Instance Channel_eq_dec : EqDecision Channel.
Proof. solve_decision. Defined.

(** The model of the last call for the channel [c] in a sequence of
    update calls, if there is one. *)
Definition latest (c : Channel) (l : list (Channel * loc)) : option loc :=
  foldl (fun acc '(c', model) => if decide (c' = c) then Some model else acc)
        None l.

(** What a frame hands to the delegate for the channel [c] after the
    update calls [l]: the model of the last call for [c], if any. *)
Definition handed (c : Channel) (l : list (Channel * loc))
  : list (Channel * loc) :=
  match latest c l with
  | Some model => [(c, model)]
  | None => []
  end.

(** A delegate none of whose entry points ever throws, and one all of
    whose entry points always throw. *)
Definition never_throws (d : IViewer) : Prop :=
  forall c model, returns d c model = true.

Definition reliable : IViewer :=
  mkViewer (fun _ => true) (fun _ => true) (fun _ => true).

Definition broken : IViewer :=
  mkViewer (fun _ => false) (fun _ => false) (fun _ => false).

End ViewerCache.

(** ** What an operation leaves alone *)

(** [m] relates every store it starts from to the store it ends in,
    however it completes. *)
Definition preserves {St A} (R : St -> St -> Prop) (m : M St A) : Prop :=
  forall s r s', m s = (r, s') -> R s s'.

(** Two versions of an element that differ at most in their id. *)
Definition same_but_id (a b : SModelElement) : Prop :=
  type b = type a /\ children b = children a /\
  parent b = parent a /\ cls b = cls a.

(** From [s] to [s'] no object was created or lost, nothing but ids
    changed in the elements, and the random stream is the same. *)
Definition same_objects (s s' : Store) : Prop :=
  (forall x a, elements s !! x = Some a ->
     exists b, elements s' !! x = Some b /\ same_but_id a b) /\
  (forall x, elements s !! x = None -> elements s' !! x = None) /\
  random s' = random s.

(** From [s] to [s'] only the id of [e] may have changed, and no index. *)
Definition only_id_of (e : loc) (s s' : Store) : Prop :=
  same_objects s s' /\
  (forall x, x <> e -> id_of (elements s') x = id_of (elements s) x) /\
  indices s' = indices s.

(** What [index.add] on the index [ix] may do to a store: give ids to
    elements that had none, and add entries to [ix]. *)
Definition index_frame (ix : loc) (s s' : Store) : Prop :=
  same_objects s s' /\
  (forall x, id_of (elements s) x <> EmptyString ->
     id_of (elements s') x = id_of (elements s) x) /\
  (forall j, j <> ix -> indices s' !! j = indices s !! j) /\
  (forall m, indices s !! ix = Some m ->
     exists m', indices s' !! ix = Some m' /\ m ⊆ m') /\
  (indices s !! ix = None -> indices s' !! ix = None).

(** The store [s] with [m] as the map of the index [ix]. *)
Definition with_index (ix : loc) (m : gmap string loc) (s : Store) : Store :=
  mkStore (elements s) (<[ix := m]> (indices s)) (random s) (drawn s).

(** The ids of the elements [l] are set, differ from one another and
    are not registered in [m]. *)
Definition fresh_ids (h : gmap loc SModelElement) (m : gmap string loc)
  (l : list loc) : Prop :=
  Forall (fun e => id_of h e <> EmptyString /\ m !! id_of h e = None) l /\
  NoDup (id_of h <$> l).

(** The string [createRandomId(n)] makes of the random values from
    position [k] on, and the id the retry loop of [index.add] tries at
    its iteration [j] (counted from 0) when started in [s]. *)
Fixpoint random_chars (n : nat) (rnd : nat -> nat) (k : nat) : string :=
  match n with
  | O => EmptyString
  | S n' => charAt ID_CHARS (rnd k) +:+ random_chars n' rnd (S k)
  end.

Definition candidate (s : Store) (j : nat) : string :=
  random_chars default_length (random s) (drawn s + default_length * j).

(** The ids the elements of [l] carry once [index.add] has visited them
    in this order, if every element without id among them takes the next
    candidate of the stream: the [j]-th such element the candidate
    [cand j]. *)
Fixpoint planned_ids (h : gmap loc SModelElement) (cand : nat -> string)
  (j : nat) (l : list loc) : list string :=
  match l with
  | [] => []
  | x :: rest =>
      if String.eqb (id_of h x) EmptyString
      then cand j :: planned_ids h cand (S j) rest
      else id_of h x :: planned_ids h cand j rest
  end.

(** The elements [l] are distinct objects, and the ids they carry or
    are going to draw differ from one another and are not registered in
    [m]. *)
Definition plan_fresh (s : Store) (m : gmap string loc) (l : list loc)
  : Prop :=
  NoDup l /\
  NoDup (planned_ids (elements s) (candidate s) 0 l) /\
  Forall (fun i => m !! i = None)
         (planned_ids (elements s) (candidate s) 0 l).

(** The class and the parent reference of an object, which is all the
    walk of [get root] reads, and the objects the walk visits from
    [current], in order. *)
Definition links (h : gmap loc SModelElement) (x : loc)
  : option (ElementClass * option loc) :=
  (fun el => (cls el, parent el)) <$> h !! x.

Fixpoint ancestors (fuel : nat) (h : gmap loc SModelElement)
  (current : option loc) : list loc :=
  match current, fuel with
  | Some c, S f =>
      c :: match h !! c with
           | Some el =>
               match cls el with
               | ChildClass => ancestors f h (parent el)
               | _ => []
               end
           | None => []
           end
  | _, _ => []
  end.

(** The store [t] is the store [s] as far as a detachment from [p]
    reads it: the same class and parent on the walk from [p] to its root,
    the same children arrays except that of [p], the same ids. *)
Definition same_tree (fuel : nat) (p : loc) (s t : Store) : Prop :=
  (forall x, x ∈ ancestors fuel (elements s) (Some p) ->
     links (elements t) x = links (elements s) x) /\
  (forall x, x <> p ->
     children <$> elements t !! x = children <$> elements s !! x) /\
  (forall x, id_of (elements t) x = id_of (elements s) x).

(** What a filter may read of an object without its answer depending
    on what [removeAll] has done so far: the type, the id and the class,
    and the children of every element but the parent [p] itself.  A
    filter is steady when it reads nothing else. *)
Definition view (h : gmap loc SModelElement) (x : loc)
  : option (string * string * ElementClass) :=
  (fun el => (type el, id el, cls el)) <$> h !! x.

Definition same_view (p : loc) (s t : Store) : Prop :=
  forall x,
    view (elements t) x = view (elements s) x /\
    (x <> p -> children <$> elements t !! x = children <$> elements s !! x).

Definition steady (p : loc) (filter : Store -> loc -> bool) : Prop :=
  forall s t, same_view p s t -> forall x, filter t x = filter s x.

(** An element with its parent reference deleted. *)
Definition orphan (el : SModelElement) : SModelElement :=
  mkElement (type el) (id el) (children el) None (cls el).

(** What [index.remove] on the index [ix] may do to a store: drop
    entries of [ix]. *)
Definition remove_frame (ix : loc) (s s' : Store) : Prop :=
  elements s' = elements s /\ random s' = random s /\ drawn s' = drawn s /\
  (forall j, j <> ix -> indices s' !! j = indices s !! j) /\
  (forall m, indices s !! ix = Some m ->
     exists m', indices s' !! ix = Some m' /\ m' ⊆ m) /\
  (indices s !! ix = None -> indices s' !! ix = None).

(** The map after [id2element.delete(id)] for each [e] of [l] in turn. *)
Definition delete_all (h : gmap loc SModelElement) (l : list loc)
  (m : gmap string loc) : gmap string loc :=
  foldl (fun acc e => delete (id_of h e) acc) m l.

(** Every entry of every index leads from a non-empty id to an element
    that carries this id. *)
Definition index_sound (s : Store) : Prop :=
  forall ix m i x,
    indices s !! ix = Some m -> m !! i = Some x ->
    i <> EmptyString /\ id_of (elements s) x = i.

(** The contract of [Math.random] for the alphabet of ids. *)
Definition random_in_range (s : Store) : Prop :=
  forall k, (random s k < String.length ID_CHARS)%nat.

(** A store whose indices are sound and whose random values are in
    range, and the relation of two stores the second of which is such a
    store if the first is. *)
Definition healthy (s : Store) : Prop := random_in_range s /\ index_sound s.

Definition keeps_healthy (s s' : Store) : Prop := healthy s -> healthy s'.

(** The only errors [m] can throw are those of [P]. *)
Definition throws_only {St A} (P : Error -> Prop) (m : M St A) : Prop :=
  forall s e s', m s = (Throw e, s') -> P e.

(** The errors of the index: DuplicateIdentifier, dangling references
    apart.  The errors of the walk to the root: DetachedElement, dangling
    references apart. *)
Definition index_errors (e : Error) : Prop :=
  (exists i, e = DuplicateIdentifier i) \/ e = TypeError.

Definition root_errors (e : Error) : Prop :=
  e = DetachedElement \/ e = TypeError.

(** The children array of [add] after its insertion step. *)
Definition inserted (i : option Z) (child : loc) (cs : list loc) : list loc :=
  match i with
  | None => cs ++ [child]
  | Some i => splice i 0 [child] cs
  end.

(** The store [s] with [cs] as the children of [p], with [q] as the
    parent of [c], and with both: the store in which [child] is in the
    children of [this] and refers to it as its parent, the index being
    as in [s]. *)
Definition with_children (p : loc) (cs : list loc) (s : Store) : Store :=
  match elements s !! p with
  | Some el =>
      mkStore (<[p := mkElement (type el) (id el) cs (parent el) (cls el)]>
                 (elements s))
              (indices s) (random s) (drawn s)
  | None => s
  end.

Definition with_parent (c : loc) (q : option loc) (s : Store) : Store :=
  match elements s !! c with
  | Some el =>
      mkStore (<[c := mkElement (type el) (id el) (children el) q (cls el)]>
                 (elements s))
              (indices s) (random s) (drawn s)
  | None => s
  end.

Definition attached (this child : loc) (cs : list loc) (s : Store) : Store :=
  with_parent child (Some this) (with_children this cs s).

(** The store in which [child] is out of the children of [this] and has
    no parent, the index being as in [s]. *)
Definition detached (this child : loc) (cs : list loc) (s : Store) : Store :=
  with_parent child None (with_children this cs s).

(** ** A small model to run the operations on

    A root R (object 1) whose index (object 10) holds R and its child E1
    (object 2); detached from it, an element with the id of E1 (object
    3), an element E2 (object 4) whose child (object 5) has the id of E1,
    two elements without id (objects 6 and 7) and a subtree E3 (object 8)
    with child E4 (object 9).  The random stream counts 0, 1, 2, ... *)
Definition example_store : Store :=
  mkStore
    (list_to_map
       [(1%positive, mkElement "root" "R" [2%positive] None (RootClass 10%positive));
        (2%positive, mkElement "element" "E1" [] (Some 1%positive) ChildClass);
        (3%positive, mkElement "element" "E1" [] None ChildClass);
        (4%positive, mkElement "element" "E2" [5%positive] None ChildClass);
        (5%positive, mkElement "element" "E1" [] (Some 4%positive) ChildClass);
        (6%positive, mkElement "element" EmptyString [] None ChildClass);
        (7%positive, mkElement "element" EmptyString [] None ChildClass);
        (8%positive, mkElement "element" "E3" [9%positive] None ChildClass);
        (9%positive, mkElement "element" "E4" [] (Some 8%positive) ChildClass)])
    {[10%positive := {["R"%string := 1%positive; "E1"%string := 2%positive]}]}
    (fun k => k mod 36)%nat 0.

(** A second model: a root R (object 1) with the children A, B and C
    (objects 2, 3 and 4), all four in its index (object 10); detached
    from it, a subtree E5 (object 11) whose children are an element
    without id (object 12) and E6 (object 13), and a subtree E7 (object
    14) whose children are an element without id (object 15) and an
    element with the id of A (object 16).  The same random stream. *)
Definition example_family : Store :=
  mkStore
    (list_to_map
       [(1%positive,
         mkElement "root" "R" [2%positive; 3%positive; 4%positive] None
           (RootClass 10%positive));
        (2%positive, mkElement "element" "A" [] (Some 1%positive) ChildClass);
        (3%positive, mkElement "element" "B" [] (Some 1%positive) ChildClass);
        (4%positive, mkElement "element" "C" [] (Some 1%positive) ChildClass);
        (11%positive,
         mkElement "element" "E5" [12%positive; 13%positive] None ChildClass);
        (12%positive,
         mkElement "element" EmptyString [] (Some 11%positive) ChildClass);
        (13%positive, mkElement "element" "E6" [] (Some 11%positive) ChildClass);
        (14%positive,
         mkElement "element" "E7" [15%positive; 16%positive] None ChildClass);
        (15%positive,
         mkElement "element" EmptyString [] (Some 14%positive) ChildClass);
        (16%positive, mkElement "element" "A" [] (Some 14%positive) ChildClass)])
    {[10%positive :=
        {["R"%string := 1%positive; "A"%string := 2%positive;
          "B"%string := 3%positive; "C"%string := 4%positive]}]}
    (fun k => k mod 36)%nat 0.

(** * The monad *)

Section MonadFacts.

Context {St : Type}.

Lemma bind_inv {A B} (m : M St A) (k : A -> M St B) s r s' :
  bind m k s = (r, s') ->
  (exists a s1, m s = (Normal a, s1) /\ k a s1 = (r, s')) \/
  (exists e, m s = (Throw e, s') /\ r = Throw e) \/
  (m s = (Diverge, s') /\ r = Diverge).
Proof.
  unfold bind. destruct (m s) as [[a|e|] s1]; intros H.
  - left. eauto.
  - right. left. injection H as <- <-. eauto.
  - right. right. by injection H as <- <-.
Qed.

Lemma bind_normal {A B} (m : M St A) (k : A -> M St B) s a s1 :
  m s = (Normal a, s1) -> bind m k s = k a s1.
Proof. unfold bind. by intros ->. Qed.

Lemma bind_throw {A B} (m : M St A) (k : A -> M St B) s e s1 :
  m s = (Throw e, s1) -> bind m k s = (Throw e, s1).
Proof. unfold bind. by intros ->. Qed.

Lemma for_of_app {A} (l1 l2 : list A) (body : A -> M St unit) s :
  for_of (l1 ++ l2) body s = bind (for_of l1 body) (fun _ => for_of l2 body) s.
Proof.
  revert s. induction l1 as [|x l1 IH]; intros s; [done|].
  cbn. unfold bind in *. destruct (body x s) as [[[]|e|] s1].
  - apply IH.
  - reflexivity.
  - reflexivity.
Qed.

Context (R : St -> St -> Prop) `{!PreOrder R}.

Lemma preserves_ret {A} (a : A) : preserves R (ret a).
Proof. intros s r s' [= <- <-]. reflexivity. Qed.

Lemma preserves_throw {A} e : preserves R (@throw St A e).
Proof. intros s r s' [= <- <-]. reflexivity. Qed.

Lemma preserves_diverge {A} : preserves R (@diverge St A).
Proof. intros s r s' [= <- <-]. reflexivity. Qed.

Lemma preserves_bind {A B} (m : M St A) (k : A -> M St B) :
  preserves R m -> (forall a, preserves R (k a)) -> preserves R (bind m k).
Proof.
  intros Hm Hk s r s' H.
  destruct (bind_inv _ _ _ _ _ H) as [(a & s1 & H1 & H2)|[(e & H1 & _)|[H1 _]]].
  - transitivity s1; [by eapply Hm|by eapply Hk].
  - by eapply Hm.
  - by eapply Hm.
Qed.

Lemma preserves_for_of {A} (l : list A) (body : A -> M St unit) :
  (forall x, preserves R (body x)) -> preserves R (for_of l body).
Proof.
  intros Hb. induction l as [|x l IH]; cbn.
  - apply preserves_ret.
  - apply preserves_bind; [apply Hb|intros _; apply IH].
Qed.

Lemma throws_only_bind {A B} (P : Error -> Prop) (m : M St A) (k : A -> M St B) :
  throws_only P m -> (forall a, throws_only P (k a)) -> throws_only P (bind m k).
Proof.
  intros Hm Hk s e s' H.
  destruct (bind_inv _ _ _ _ _ H) as [(a & s1 & H1 & H2)|[(e' & H1 & He)|[_ ?]]].
  - by eapply Hk.
  - injection He as ->. by eapply Hm.
  - discriminate.
Qed.

Lemma throws_only_for_of {A} (P : Error -> Prop) (l : list A)
  (body : A -> M St unit) :
  (forall x, throws_only P (body x)) -> throws_only P (for_of l body).
Proof.
  intros Hb. induction l as [|x l IH]; cbn.
  - intros s e s' [=].
  - apply throws_only_bind; [apply Hb|intros _; apply IH].
Qed.

End MonadFacts.

(** * Properties of the viewer cache *)

Section ViewerCacheFacts.

Import ViewerCache.

Lemma update_on_pending c model w :
  pending (update_on c model w) =
  if isCacheEmpty w then S (pending w) else pending w.
Proof.
  destruct c; cbn; unfold updateHidden, update, updatePopup;
    destruct (isCacheEmpty w); reflexivity.
Qed.

Lemma update_on_fills c model w : isCacheEmpty (update_on c model w) = false.
Proof.
  destruct c; cbn; unfold updateHidden, update, updatePopup;
    destruct (isCacheEmpty w), w as [[?|] [?|] [?|] ? ?]; reflexivity.
Qed.

(** Once a slot is filled, update calls arm nothing. *)
Lemma updates_filled l w :
  isCacheEmpty w = false ->
  pending (updates l w) = pending w /\ isCacheEmpty (updates l w) = false.
Proof.
  revert w. induction l as [|[c model] l IH]; intros w Hw; [done|].
  change (updates ((c, model) :: l) w) with (updates l (update_on c model w)).
  destruct (IH (update_on c model w) (update_on_fills c model w)) as [-> ->].
  by rewrite update_on_pending, Hw.
Qed.

(** The result of [flush] with a delegate that returns from the calls
    made. *)
Lemma flush_returns d w :
  (forall c model, slot c w = Some model -> returns d c model = true) ->
  flush d w =
  (Normal tt,
   mkState None None None (pending w)
           (calls w ++ delivery Hidden w ++ delivery Primary w ++ delivery Popup w)).
Proof.
  intros Hd.
  pose proof (Hd Hidden) as Hh. pose proof (Hd Primary) as Hp.
  pose proof (Hd Popup) as Hq.
  destruct w as [p h q n cs]; cbn in *.
  unfold flush, bind, read, call, clear, ret, delivery; cbn.
  destruct h as [h|]; cbn; [rewrite (Hh h eq_refl); cbn|];
    (destruct p as [p|]; cbn; [rewrite (Hp p eq_refl); cbn|]);
    (destruct q as [q|]; cbn; [rewrite (Hq q eq_refl); cbn|]);
    rewrite <- ?app_assoc; cbn; rewrite ?app_nil_r; reflexivity.
Qed.

(** What [flush] leaves behind when it throws. *)
Lemma flush_throws d w e w' :
  flush d w = (Throw e, w') ->
  e = DelegateError /\ pending w' = pending w /\
  exists c model,
    slot c w = Some model /\ returns d c model = false /\
    slot c w' = Some model /\
    last (calls w') = Some (c, model) /\
    (forall c', (rank c' < rank c)%nat -> slot c' w' = None) /\
    (forall c', (rank c < rank c')%nat -> slot c' w' = slot c' w).
Proof.
  destruct w as [p h q n cs].
  unfold flush, bind, read, call, clear, ret; cbn.
  destruct h as [h|]; cbn;
    [destruct (updateHidden_returns d h) eqn:Eh; cbn|];
    (destruct p as [p|]; cbn;
     [destruct (update_returns d p) eqn:Ep; cbn|]);
    (destruct q as [q|]; cbn;
     [destruct (updatePopup_returns d q) eqn:Eq; cbn|]);
    intros [= <- <-]; cbn; (split; [reflexivity|]); (split; [reflexivity|]).
  all: match goal with
       | E : updateHidden_returns _ ?m = false |- _ => exists Hidden, m
       | E : update_returns _ ?m = false |- _ => exists Primary, m
       | E : updatePopup_returns _ ?m = false |- _ => exists Popup, m
       end; cbn; split_and!; try done; try (by rewrite last_snoc);
       intros []; cbn; intros; (reflexivity || lia).
Qed.

(** [flush] always ends, and when it returns it has emptied the slots
    without touching the pending callbacks. *)
Lemma flush_no_diverge d w w' : flush d w = (Diverge, w') -> False.
Proof.
  destruct w as [p h q n cs].
  unfold flush, bind, read, call, clear, ret; cbn.
  destruct h as [h|]; cbn;
    [destruct (updateHidden_returns d h); cbn|];
    (destruct p as [p|]; cbn;
     [destruct (update_returns d p); cbn|]);
    (destruct q as [q|]; cbn;
     [destruct (updatePopup_returns d q); cbn|]);
    discriminate.
Qed.

Lemma flush_returns_inv d w w' :
  flush d w = (Normal tt, w') -> pending w' = pending w.
Proof.
  destruct w as [p h q n cs].
  unfold flush, bind, read, call, clear, ret; cbn.
  destruct h as [h|]; cbn;
    [destruct (updateHidden_returns d h); cbn|];
    (destruct p as [p|]; cbn;
     [destruct (update_returns d p); cbn|]);
    (destruct q as [q|]; cbn;
     [destruct (updatePopup_returns d q); cbn|]);
    intros [= <-]; reflexivity.
Qed.

(** Every state a cache can be in has at most one callback pending, and
    none while its three slots are empty. *)
Lemma reachable_pending d w :
  rtc (step d) initial w ->
  (pending w <= 1)%nat /\ (isCacheEmpty w = true -> pending w = 0%nat).
Proof.
  intros H. pattern w. eapply rtc_ind_r; [| |exact H]; clear w H.
  { split; [cbn; lia|reflexivity]. }
  intros w1 w2 _ Hs [IH1 IH2].
  destruct Hs as [c model w1|w1 r w2 Hf].
  - rewrite update_on_pending, update_on_fills.
    split; [|discriminate].
    destruct (isCacheEmpty w1); [rewrite IH2 by reflexivity|]; lia.
  - unfold endOfFrame in Hf. destruct (pending w1) as [|n] eqn:Hn.
    + injection Hf as <- <-. rewrite Hn. split; [lia|reflexivity].
    + assert (n = 0%nat) as -> by lia.
      assert (pending w2 = 0%nat) as ->; [|split; [lia|reflexivity]].
      destruct r as [[]|e|].
      * by rewrite (flush_returns_inv _ _ _ Hf).
      * by destruct (flush_throws _ _ _ _ Hf) as (_ & -> & _).
      * by apply flush_no_diverge in Hf.
Qed.

(** The test [isCacheEmpty] answers whether the three slots are empty. *)
Lemma isCacheEmpty_slots w : isCacheEmpty w = true <-> slots_empty w.
Proof.
  unfold isCacheEmpty, slots_empty.
  destruct (cachedModelRoot w), (cachedHiddenModelRoot w), (cachedPopup w);
    split; try done; intros (? & ? & ?); done.
Qed.

Lemma update_on_slot_eq c model w : slot c (update_on c model w) = Some model.
Proof.
  destruct c; cbn; unfold updateHidden, update, updatePopup;
    destruct (isCacheEmpty w); reflexivity.
Qed.

Lemma update_on_slot_ne c c' model w :
  c' <> c -> slot c' (update_on c model w) = slot c' w.
Proof.
  destruct c, c'; try done; intros _; cbn;
    unfold updateHidden, update, updatePopup;
    destruct (isCacheEmpty w); reflexivity.
Qed.

Lemma update_on_keeps_calls c model w : calls (update_on c model w) = calls w.
Proof.
  destruct c; cbn; unfold updateHidden, update, updatePopup;
    destruct (isCacheEmpty w); reflexivity.
Qed.

(** Update calls are steps of the cache. *)
Lemma updates_reachable d l w : rtc (step d) w (updates l w).
Proof.
  revert w. induction l as [|[c model] l IH]; intros w; [done|].
  change (updates ((c, model) :: l) w) with (updates l (update_on c model w)).
  eapply rtc_l; [apply step_update|apply IH].
Qed.

(** C4: a call of update, updateHidden or updatePopup overwrites its
    slot and arms a frame callback exactly when the three slots were
    empty just before, leaving the pending callbacks alone otherwise; it
    calls nothing of the delegate and leaves the other slots alone.  So
    in every state the cache reaches from its initial one, through any
    number of update calls and frames, at most one callback is pending,
    and any further sequence of update calls leaves at most one
    pending. *)
Theorem C4_arms_iff_cache_empty d w c model :
  rtc (step d) initial w ->
  (pending (update_on c model w) = S (pending w) <->
   cachedModelRoot w = None /\ cachedHiddenModelRoot w = None /\
   cachedPopup w = None) /\
  (pending (update_on c model w) = pending w <->
   ~ (cachedModelRoot w = None /\ cachedHiddenModelRoot w = None /\
      cachedPopup w = None)) /\
  slot c (update_on c model w) = Some model /\
  (forall c', c' <> c -> slot c' (update_on c model w) = slot c' w) /\
  calls (update_on c model w) = calls w /\
  (pending w <= 1)%nat /\
  (forall l, (pending (updates l w) <= 1)%nat).
Proof.
  intros H. destruct (reachable_pending d w H) as [H1 H0].
  pose proof (isCacheEmpty_slots w) as Hslots. unfold slots_empty in Hslots.
  rewrite update_on_pending.
  split_and!.
  - rewrite <- Hslots. destruct (isCacheEmpty w); split; (lia || done).
  - rewrite <- Hslots. destruct (isCacheEmpty w); split; try done;
      intros; (lia || done).
  - apply update_on_slot_eq.
  - intros c'. apply update_on_slot_ne.
  - apply update_on_keeps_calls.
  - exact H1.
  - intros l. apply (reachable_pending d).
    etransitivity; [exact H|apply updates_reachable].
Qed.

Lemma C4_arms_iff_cache_empty_witness :
  pending (update_on Hidden 2%positive (update_on Primary 1%positive initial)) =
    pending (update_on Primary 1%positive initial) /\
  slot Hidden
    (update_on Hidden 2%positive (update_on Primary 1%positive initial)) =
    Some 2%positive /\
  (pending
     (updates [(Popup, 3%positive); (Primary, 4%positive)]
        (update_on Primary 1%positive initial)) <= 1)%nat.
Proof.
  destruct (C4_arms_iff_cache_empty reliable
              (update_on Primary 1%positive initial) Hidden 2%positive)
    as (_ & Hkeep & Hslot & _ & _ & _ & Hall).
  - apply rtc_once. apply step_update.
  - split_and!; [|exact Hslot|apply Hall].
    apply Hkeep. intros (Hp & _). discriminate Hp.
Defined.

(** C5: when the armed callback runs with a delegate that does not
    throw, the channels are visited in the order hidden, primary, popup;
    every slot that holds a snapshot has it handed once to the matching
    entry point of the delegate, empty slots are skipped, and the three
    slots are empty afterwards. *)
Theorem C5_flush_order d w :
  never_throws d ->
  flush d w =
  (Normal tt,
   mkState None None None (pending w)
           (calls w ++ delivery Hidden w ++ delivery Primary w ++ delivery Popup w)).
Proof.
  intros Hd. apply flush_returns. intros c model _. apply Hd.
Qed.

Lemma C5_flush_order_witness :
  flush reliable (mkState (Some 1%positive) None (Some 3%positive) 0 []) =
  (Normal tt,
   mkState None None None 0 [(Primary, 1%positive); (Popup, 3%positive)]).
Proof.
  apply (C5_flush_order reliable
           (mkState (Some 1%positive) None (Some 3%positive) 0 [])).
  intros [] ?; reflexivity.
Defined.

(** C6: from empty slots and no pending callback, update(A) followed by
    update(B) before the frame ends arms exactly one callback; the frame
    hands the delegate B on the primary channel and nothing else, and
    leaves no callback behind, so a later frame delivers nothing. *)
Theorem C6_last_write_wins d A B w :
  isCacheEmpty w = true ->
  pending w = 0%nat ->
  pending (update B (update A w)) = 1%nat /\
  exists r w',
    endOfFrame d (update B (update A w)) = (r, w') /\
    calls w' = calls w ++ [(Primary, B)] /\
    pending w' = 0%nat /\
    endOfFrame d w' = (Normal tt, w') /\
    (returns d Primary B = true -> r = Normal tt /\ isCacheEmpty w' = true).
Proof.
  intros He Hp. destruct w as [[?|] [?|] [?|] n cs]; try discriminate.
  cbn in Hp. subst n. split; [reflexivity|].
  unfold endOfFrame, update, scheduleUpdate, onEndOfNextFrame; cbn.
  unfold flush, bind, read, call, clear, ret; cbn.
  destruct (update_returns d B); cbn;
    eexists _, _; (split; [reflexivity|]); cbn; repeat split; done.
Qed.

Lemma C6_last_write_wins_witness :
  pending (update 2%positive (update 1%positive initial)) = 1%nat /\
  exists r w',
    endOfFrame reliable (update 2%positive (update 1%positive initial)) = (r, w') /\
    calls w' = calls initial ++ [(Primary, 2%positive)] /\
    pending w' = 0%nat /\
    endOfFrame reliable w' = (Normal tt, w') /\
    (returns reliable Primary 2%positive = true ->
     r = Normal tt /\ isCacheEmpty w' = true).
Proof.
  apply (C6_last_write_wins reliable 1%positive 2%positive initial);
    reflexivity.
Defined.

(** C3, as stated, fails: a cache that holds one primary snapshot and
    whose delegate throws on it keeps the snapshot in its slot with no
    callback pending, and a later update arms none. *)
Lemma C3_counterexample :
  ~ (forall d w e w',
       rtc (step d) initial w ->
       endOfFrame d w = (Throw e, w') ->
       forall c model, pending (update_on c model w') = 1%nat).
Proof.
  intros H.
  specialize (H broken (update 1%positive initial) DelegateError
                (mkState (Some 1%positive) None None 0 [(Primary, 1%positive)])).
  specialize (H (rtc_once _ _ (step_update broken Primary 1%positive initial))
                eq_refl Primary 2%positive).
  discriminate H.
Qed.

(** What [flush] has done when it throws: the channels before the
    failing one were handed their snapshots, in order, and the delegate
    returned from each. *)
Lemma flush_throws_calls d w e w' :
  flush d w = (Throw e, w') ->
  exists c model,
    slot c w = Some model /\ returns d c model = false /\
    (forall c' model', (rank c' < rank c)%nat -> slot c' w = Some model' ->
       returns d c' model' = true) /\
    calls w' = calls w ++ delivered_before c w ++ [(c, model)] /\
    (forall c', (rank c' < rank c)%nat -> slot c' w' = None) /\
    (forall c', (rank c <= rank c')%nat -> slot c' w' = slot c' w).
Proof.
  destruct w as [p h q n cs].
  unfold flush, bind, read, call, clear, ret; cbn.
  destruct h as [h|]; cbn;
    [destruct (updateHidden_returns d h) eqn:Eh; cbn|];
    (destruct p as [p|]; cbn;
     [destruct (update_returns d p) eqn:Ep; cbn|]);
    (destruct q as [q|]; cbn;
     [destruct (updatePopup_returns d q) eqn:Eq; cbn|]);
    intros [= <- <-]; cbn.
  all: match goal with
       | E : updateHidden_returns _ ?m = false |- _ => exists Hidden, m
       | E : update_returns _ ?m = false |- _ => exists Primary, m
       | E : updatePopup_returns _ ?m = false |- _ => exists Popup, m
       end; cbn; unfold delivery; cbn; split_and!; try done;
       rewrite <- ?app_assoc; try done;
       try (intros [] ?; cbn; intros; (congruence || lia));
       intros []; cbn; intros; (reflexivity || lia).
Qed.

(** C3, amended: when a delegate call throws during a flush, the error
    leaves the callback.  The channels visited before the failing one
    have been handed their snapshots, in order, and cleared; the failing
    call was made; the slot of the failing channel and the slots after it
    keep their snapshots; and the callback is used up.  From then on the
    slots are not all empty, so no sequence of update calls arms a
    callback, and when the failed callback was the only one no later
    frame hands the delegate anything. *)
Theorem C3_throwing_delegate d w e w' :
  endOfFrame d w = (Throw e, w') ->
  e = DelegateError /\
  pending w' = Nat.pred (pending w) /\
  (exists c model,
     slot c w = Some model /\ returns d c model = false /\
     (forall c' model', (rank c' < rank c)%nat -> slot c' w = Some model' ->
        returns d c' model' = true) /\
     calls w' = calls w ++ delivered_before c w ++ [(c, model)] /\
     (forall c', (rank c' < rank c)%nat -> slot c' w' = None) /\
     (forall c', (rank c <= rank c')%nat -> slot c' w' = slot c' w)) /\
  ~ (cachedModelRoot w' = None /\ cachedHiddenModelRoot w' = None /\
     cachedPopup w' = None) /\
  (forall l,
     pending (updates l w') = pending w' /\
     ~ (cachedModelRoot (updates l w') = None /\
        cachedHiddenModelRoot (updates l w') = None /\
        cachedPopup (updates l w') = None) /\
     (pending w = 1%nat ->
      endOfFrame d (updates l w') = (Normal tt, updates l w'))).
Proof.
  unfold endOfFrame at 1. intros Hf.
  destruct w as [p h q [|n] cs]; cbn in Hf; [discriminate|].
  destruct (flush_throws _ _ _ _ Hf) as (-> & Hp & _).
  destruct (flush_throws_calls _ _ _ _ Hf)
    as (c & model & H1 & H2 & H3 & H4 & H5 & H6).
  assert (isCacheEmpty w' = false) as He.
  { pose proof (H6 c (le_n _)) as H7. rewrite H1 in H7.
    unfold isCacheEmpty. destruct c; cbn in H7; rewrite H7;
      by repeat case_match. }
  split; [reflexivity|]. split; [exact Hp|]. split.
  { exists c, model. split_and!; try done; by destruct c. }
  split.
  { intros Hs. apply isCacheEmpty_slots in Hs. congruence. }
  intros l. destruct (updates_filled l w' He) as [Hpl Hel].
  split_and!; [done| |].
  - intros Hs. apply isCacheEmpty_slots in Hs. congruence.
  - cbn. intros [= ->]. unfold endOfFrame. rewrite Hpl, Hp. reflexivity.
Qed.

Lemma C3_throwing_delegate_witness :
  (exists c model,
     calls
       (mkState (Some 2%positive) None (Some 3%positive) 0
          [(Hidden, 1%positive); (Primary, 2%positive)]) =
     calls
       (mkState (Some 2%positive) (Some 1%positive) (Some 3%positive) 1 []) ++
     delivered_before c
       (mkState (Some 2%positive) (Some 1%positive) (Some 3%positive) 1 []) ++
     [(c, model)]) /\
  (forall l,
     pending
       (updates l
          (mkState (Some 2%positive) None (Some 3%positive) 0
             [(Hidden, 1%positive); (Primary, 2%positive)])) = 0%nat).
Proof.
  destruct (C3_throwing_delegate
              (mkViewer (fun _ => false) (fun _ => true) (fun _ => true))
              (mkState (Some 2%positive) (Some 1%positive) (Some 3%positive)
                 1 [])
              DelegateError
              (mkState (Some 2%positive) None (Some 3%positive) 0
                 [(Hidden, 1%positive); (Primary, 2%positive)]))
    as (_ & _ & (c & model & _ & _ & _ & Hcalls & _) & _ & Hstuck).
  - reflexivity.
  - split; [by exists c, model|].
    intros l. by destruct (Hstuck l) as (-> & _).
Defined.

End ViewerCacheFacts.

(** * Properties of the index *)

Section FrameFacts.

Global Instance same_but_id_preorder : PreOrder same_but_id.
Proof.
  split.
  - by intros a.
  - intros a b c (?&?&?&?) (?&?&?&?). repeat split; congruence.
Qed.

Global Instance same_objects_preorder : PreOrder same_objects.
Proof.
  split.
  - intros s. split_and!; [|done..]. intros x a Ha. by exists a.
  - intros s1 s2 s3 (H1 & N1 & R1) (H2 & N2 & R2). split_and!.
    + intros x a Ha. destruct (H1 x a Ha) as (b & Hb & Hab).
      destruct (H2 x b Hb) as (c & Hc & Hbc).
      exists c. split; [done|]. by transitivity b.
    + intros x Hx. by apply N2, N1.
    + congruence.
Qed.

Global Instance only_id_of_preorder e : PreOrder (only_id_of e).
Proof.
  split.
  - intros s. by split_and!.
  - intros s1 s2 s3 (H1 & I1 & X1) (H2 & I2 & X2). split_and!.
    + by transitivity s2.
    + intros x Hx. rewrite I2, I1; done.
    + congruence.
Qed.

Global Instance index_frame_preorder ix : PreOrder (index_frame ix).
Proof.
  split.
  - intros s. split_and!; try done. intros m Hm. by exists m.
  - intros s1 s2 s3 (H1 & I1 & J1 & M1 & N1) (H2 & I2 & J2 & M2 & N2).
    split_and!.
    + by transitivity s2.
    + intros x Hx. rewrite I2; rewrite I1; done.
    + intros j Hj. rewrite J2, J1; done.
    + intros m Hm. destruct (M1 m Hm) as (m' & Hm' & Hsub).
      destruct (M2 m' Hm') as (m'' & Hm'' & Hsub').
      exists m''. split; [done|]. by transitivity m'.
    + intros Hn. by apply N2, N1.
Qed.

(** Giving an id to an element that had none is within the frame of
    every index. *)
Lemma only_id_of_index_frame ix e s s' :
  id_of (elements s) e = EmptyString -> only_id_of e s s' -> index_frame ix s s'.
Proof.
  intros He (H & I & X). split_and!.
  - done.
  - intros x Hx. apply I. congruence.
  - intros j _. by rewrite X.
  - intros m Hm. exists m. by rewrite X.
  - by rewrite X.
Qed.

Lemma same_objects_children s s' x :
  same_objects s s' ->
  children <$> elements s' !! x = children <$> elements s !! x.
Proof.
  intros (H & N & _). destruct (elements s !! x) as [a|] eqn:Ha.
  - destruct (H x a Ha) as (b & -> & _ & Hc & _). cbn. by rewrite Hc.
  - by rewrite (N x Ha).
Qed.

Lemma same_objects_parent s s' x :
  same_objects s s' ->
  parent <$> elements s' !! x = parent <$> elements s !! x.
Proof.
  intros (H & N & _). destruct (elements s !! x) as [a|] eqn:Ha.
  - destruct (H x a Ha) as (b & -> & _ & _ & Hp & _). cbn. by rewrite Hp.
  - by rewrite (N x Ha).
Qed.

(** Writing one element with nothing but its id changed. *)
Lemma same_objects_set_id s e el i s' :
  elements s !! e = Some el ->
  elements s' =
    <[e := mkElement (type el) i (children el) (parent el) (cls el)]> (elements s) ->
  random s' = random s ->
  same_objects s s'.
Proof.
  intros He Hs Hr. split_and!; [| |done].
  - intros x a Ha. rewrite Hs. destruct (decide (x = e)) as [->|Hx].
    + rewrite lookup_insert_eq. eexists. split; [done|].
      rewrite He in Ha. injection Ha as <-. by repeat split.
    + rewrite lookup_insert_ne by done. by exists a.
  - intros x Hx. rewrite Hs. rewrite lookup_insert_ne; [done|congruence].
Qed.

Lemma id_of_set_id_ne (h : gmap loc SModelElement) e el x :
  x <> e -> id_of (<[e := el]> h) x = id_of h x.
Proof. intros Hx. unfold id_of. by rewrite lookup_insert_ne. Qed.

Lemma id_of_set_id_eq (h : gmap loc SModelElement) e el :
  id_of (<[e := el]> h) e = id el.
Proof. unfold id_of. by rewrite lookup_insert_eq. Qed.

End FrameFacts.

Section RandomIdFacts.

Lemma length_append (a b : string) :
  String.length (a +:+ b) = (String.length a + String.length b)%nat.
Proof. induction a as [|c a IH]; simpl; [done|by f_equal]. Qed.

Lemma list_ascii_of_append (a b : string) :
  String.list_ascii_of_string (a +:+ b) =
  String.list_ascii_of_string a ++ String.list_ascii_of_string b.
Proof. induction a as [|c a IH]; simpl; [done|by f_equal]. Qed.

Lemma get_in_range (s : string) (k : nat) :
  (k < String.length s)%nat ->
  exists c, String.get k s = Some c /\ c ∈ String.list_ascii_of_string s.
Proof.
  revert k. induction s as [|c s IH]; intros k Hk; cbn in *; [lia|].
  destruct k as [|k].
  - exists c. split; [done|]. apply list_elem_of_here.
  - destruct (IH k ltac:(lia)) as (c' & ? & ?).
    exists c'. split; [done|]. by apply list_elem_of_further.
Qed.

(** One character of the alphabet for a random value in range. *)
Lemma charAt_in_range (k : nat) :
  (k < String.length ID_CHARS)%nat ->
  String.length (charAt ID_CHARS k) = 1%nat /\
  over_ID_CHARS (charAt ID_CHARS k).
Proof.
  intros Hk. destruct (get_in_range ID_CHARS k Hk) as (c & Hc & Hin).
  unfold charAt. rewrite Hc. split; [done|].
  unfold over_ID_CHARS. cbn [String.list_ascii_of_string].
  constructor; [exact Hin|constructor].
Qed.

Lemma over_ID_CHARS_append (a b : string) :
  over_ID_CHARS a -> over_ID_CHARS b -> over_ID_CHARS (a +:+ b).
Proof.
  unfold over_ID_CHARS. rewrite list_ascii_of_append. apply Forall_app_2.
Qed.

(** [createRandomId] consumes [n] random values, touches nothing else
    and, when the values are in range, appends [n] characters of the
    alphabet. *)
Lemma createRandomId_loop_spec (n : nat) (acc : string) (s : Store) :
  exists str,
    createRandomId_loop n acc s =
      (Normal str,
       mkStore (elements s) (indices s) (random s) (n + drawn s)) /\
    (random_in_range s ->
     String.length str = (String.length acc + n)%nat /\
     (over_ID_CHARS acc -> over_ID_CHARS str)).
Proof.
  revert acc s. induction n as [|n IH]; intros acc s.
  - exists acc. split; [by destruct s|]. intros _. split; [lia|done].
  - cbn [createRandomId_loop]. unfold bind, Math_floor_random.
    destruct (IH (acc +:+ charAt ID_CHARS (random s (drawn s)))
                 (mkStore (elements s) (indices s) (random s) (S (drawn s))))
      as (str & Hrun & Hstr).
    exists str. split.
    + rewrite Hrun. cbn. do 2 f_equal. lia.
    + intros Hr. destruct (Hstr Hr) as [Hlen Hover].
      destruct (charAt_in_range _ (Hr (drawn s))) as [Hc1 Hc2].
      split.
      * rewrite Hlen, length_append, Hc1. lia.
      * intros Hacc. apply Hover. by apply over_ID_CHARS_append.
Qed.

Lemma createRandomId_spec (n : nat) (s : Store) :
  exists i,
    createRandomId n s =
      (Normal i, mkStore (elements s) (indices s) (random s) (n + drawn s)) /\
    (random_in_range s -> String.length i = n /\ over_ID_CHARS i).
Proof.
  destruct (createRandomId_loop_spec n EmptyString s) as (i & Hrun & Hi).
  exists i. split; [done|]. intros Hr. destruct (Hi Hr) as [Hlen Hover].
  split; [done|]. apply Hover. constructor.
Qed.

Lemma append_cons (x : Ascii.ascii) (a b : string) :
  String x a +:+ b = String x (a +:+ b).
Proof. reflexivity. Qed.

Lemma append_assoc (a b c : string) : (a +:+ b) +:+ c = a +:+ (b +:+ c).
Proof.
  induction a as [|x a IH]; [done|]. rewrite !append_cons. by f_equal.
Qed.

Lemma append_empty (a : string) : a +:+ EmptyString = a.
Proof.
  induction a as [|x a IH]; [done|]. rewrite append_cons. by f_equal.
Qed.

(** The value of [createRandomId], for any stream. *)
Lemma createRandomId_loop_value (n : nat) (acc : string) (s : Store) :
  createRandomId_loop n acc s =
  (Normal (acc +:+ random_chars n (random s) (drawn s)),
   mkStore (elements s) (indices s) (random s) (n + drawn s)).
Proof.
  revert acc s. induction n as [|n IH]; intros acc s.
  - cbn [createRandomId_loop random_chars]. rewrite append_empty.
    unfold ret. by destruct s.
  - cbn [createRandomId_loop random_chars].
    unfold bind, Math_floor_random. rewrite IH. cbn.
    rewrite append_assoc. do 2 f_equal. lia.
Qed.

Lemma createRandomId_value (n : nat) (s : Store) :
  createRandomId n s =
  (Normal (random_chars n (random s) (drawn s)),
   mkStore (elements s) (indices s) (random s) (n + drawn s)).
Proof. apply createRandomId_loop_value. Qed.

End RandomIdFacts.

Section IndexFacts.

Import SModelIndex.

Lemma contains_spec ix e s el m :
  elements s !! e = Some el -> indices s !! ix = Some m ->
  contains ix e s = (Normal (bool_decide (is_Some (m !! id el))), s).
Proof.
  intros He Hm. unfold contains, bind, read_element, read_index, ret.
  by rewrite He, Hm.
Qed.

Lemma contains_no_index ix e s el :
  elements s !! e = Some el -> indices s !! ix = None ->
  contains ix e s = (Throw TypeError, s).
Proof.
  intros He Hm. unfold contains, bind, read_element, read_index, ret.
  by rewrite He, Hm.
Qed.

Lemma contains_same ix e s r s' : contains ix e s = (r, s') -> s' = s.
Proof.
  unfold contains, bind, read_element, read_index, ret.
  destruct (elements s !! e); [|by intros [= _ <-]].
  destruct (indices s !! ix); by intros [= _ <-].
Qed.

Lemma set_id_spec e i s el :
  elements s !! e = Some el ->
  set_id e i s =
  (Normal tt,
   mkStore (<[e := mkElement (type el) i (children el) (parent el) (cls el)]>
              (elements s))
           (indices s) (random s) (drawn s)).
Proof.
  intros He. unfold set_id, bind, read_element, write_element. by rewrite He.
Qed.

(** The retry loop, when it ends: the element carries an id that the
    index does not hold, of the default length and over the alphabet,
    and nothing else has changed. *)
Lemma assign_random_id_spec tries ix e s s' el :
  elements s !! e = Some el ->
  assign_random_id tries ix e s = (Normal tt, s') ->
  exists i m,
    indices s !! ix = Some m /\ m !! i = None /\
    (random_in_range s -> String.length i = default_length /\ over_ID_CHARS i) /\
    elements s' =
      <[e := mkElement (type el) i (children el) (parent el) (cls el)]>
        (elements s) /\
    indices s' = indices s /\ random s' = random s.
Proof.
  revert s el. induction tries as [|t IH]; intros s el He; [discriminate|].
  cbn [assign_random_id].
  destruct (createRandomId_spec default_length s) as (i & Hgen & Hi).
  rewrite (bind_normal _ _ _ _ _ Hgen).
  set (s0 := mkStore (elements s) (indices s) (random s)
                     (default_length + drawn s)).
  rewrite (bind_normal _ _ _ _ _ (set_id_spec e i s0 el He)). cbn.
  set (el1 := mkElement (type el) i (children el) (parent el) (cls el)).
  set (s1 := mkStore (<[e := el1]> (elements s)) (indices s) (random s)
                     (default_length + drawn s)).
  assert (elements s1 !! e = Some el1) as He1 by apply lookup_insert_eq.
  destruct (indices s !! ix) as [m|] eqn:Hm.
  - rewrite (bind_normal _ _ _ _ _ (contains_spec ix e s1 el1 m He1 Hm)).
    case_bool_decide as Hin.
    + intros Hrec. destruct (IH s1 el1 He1 Hrec)
        as (i' & m' & Hm' & Hfresh & Hi' & Hel & Hind & Hrand).
      subst s1 el1. cbn in *. rewrite insert_insert_eq in Hel.
      exists i', m'. split_and!; (done || congruence).
    + intros [= <-]. exists i, m. split_and!; try done.
      by apply eq_None_not_Some.
  - rewrite (bind_throw _ _ _ _ _ (contains_no_index ix e s1 el1 He1 Hm)).
    discriminate.
Qed.

Local Arguments candidate : simpl never.

(** The retry loop ends as soon as the stream yields an id that the
    index does not hold: with more iterations allowed than tried ids, it
    returns, and the element carries the first such id. *)
Lemma assign_random_id_returns ix e m j :
  forall tries s el,
    elements s !! e = Some el ->
    indices s !! ix = Some m ->
    (forall j', (j' < j)%nat -> is_Some (m !! candidate s j')) ->
    m !! candidate s j = None ->
    (j < tries)%nat ->
    exists s',
      assign_random_id tries ix e s = (Normal tt, s') /\
      id_of (elements s') e = candidate s j.
Proof.
  induction j as [|j IH]; intros tries s el He Hm Htaken Hfree Htries;
    (destruct tries as [|t]; [lia|]); cbn [assign_random_id];
    rewrite (bind_normal _ _ _ _ _ (createRandomId_value default_length s));
    set (i := random_chars default_length (random s) (drawn s));
    set (s0 := mkStore (elements s) (indices s) (random s)
                       (default_length + drawn s));
    rewrite (bind_normal _ _ _ _ _ (set_id_spec e i s0 el He)); cbn;
    set (el1 := mkElement (type el) i (children el) (parent el) (cls el));
    set (s1 := mkStore (<[e := el1]> (elements s)) (indices s) (random s)
                       (default_length + drawn s));
    assert (elements s1 !! e = Some el1) as He1 by apply lookup_insert_eq;
    rewrite (bind_normal _ _ _ _ _ (contains_spec ix e s1 el1 m He1 Hm));
    assert (candidate s 0 = i) as Hi
      by (unfold candidate; by rewrite Nat.mul_0_r, Nat.add_0_r).
  - rewrite bool_decide_eq_false_2.
    + exists s1. split; [done|]. rewrite Hi. unfold id_of. by rewrite He1.
    + change (id el1) with i. rewrite <- Hi, Hfree. by intros [? ?].
  - rewrite bool_decide_eq_true_2
      by (change (id el1) with i; rewrite <- Hi; apply Htaken; lia).
    assert (forall k, candidate s1 k = candidate s (S k)) as Hshift.
    { intros k. unfold candidate. cbn [random drawn s1]. f_equal. lia. }
    destruct (IH t s1 el1 He1 Hm) as (s' & Hrun & Hid).
    + intros j' Hj'. rewrite Hshift. apply Htaken. lia.
    + by rewrite Hshift.
    + lia.
    + exists s'. split; [done|]. by rewrite Hid, Hshift.
Qed.

(** So [index.add] returns for an element without id and without
    children, given such a stream and enough iterations. *)
Lemma add_without_id_returns ix e m j tries s el :
  elements s !! e = Some el ->
  id el = EmptyString ->
  children el = [] ->
  indices s !! ix = Some m ->
  (forall j', (j' < j)%nat -> is_Some (m !! candidate s j')) ->
  m !! candidate s j = None ->
  (j < tries)%nat ->
  exists s',
    add 1 tries ix e s = (Normal tt, s') /\
    id_of (elements s') e = candidate s j.
Proof.
  intros He Hid Hleaf Hm Htaken Hfree Htries.
  destruct (assign_random_id_returns ix e m j tries s el He Hm Htaken Hfree Htries)
    as (s1 & Hrun & Hid1).
  destruct (assign_random_id_spec _ _ _ _ _ _ He Hrun)
    as (i & m' & Hm' & _ & _ & Hel & Hind & _).
  rewrite Hm in Hm'. injection Hm' as <-.
  assert (elements s1 !! e =
            Some (mkElement (type el) i (children el) (parent el) (cls el)))
    as He1 by (rewrite Hel; apply lookup_insert_eq).
  assert (register tries ix e s =
            (Normal tt, with_index ix (<[i := e]> m) s1)) as Hreg.
  { unfold register.
    rewrite (bind_normal _ _ s el s) by (unfold read_element; by rewrite He).
    rewrite Hid. cbn [String.eqb]. rewrite (bind_normal _ _ _ _ _ Hrun).
    unfold bind, read_element, read_index, write_index, with_index.
    rewrite He1, Hind, Hm. cbn. by rewrite Hind. }
  eexists. split.
  - cbn [add]. rewrite (bind_normal _ _ _ _ _ Hreg).
    unfold bind, read_element. cbn [elements with_index].
    rewrite He1. cbn. rewrite Hleaf. reflexivity.
  - cbn. exact Hid1.
Qed.

Lemma preserves_createRandomId e n : preserves (only_id_of e) (createRandomId n).
Proof.
  intros s r s' H. destruct (createRandomId_spec n s) as (i & Hrun & _).
  rewrite Hrun in H. injection H as _ <-. split_and!; try done.
  split_and!; try done. intros x a Ha. by exists a.
Qed.

Lemma preserves_set_id e i : preserves (only_id_of e) (set_id e i).
Proof.
  intros s r s' H. destruct (elements s !! e) as [el|] eqn:He.
  - rewrite (set_id_spec e i s el He) in H. injection H as _ <-.
    split_and!; [|by intros; apply id_of_set_id_ne|done].
    by eapply same_objects_set_id.
  - unfold set_id, bind, read_element in H. rewrite He in H.
    injection H as _ <-. reflexivity.
Qed.

Lemma preserves_contains R `{!PreOrder R} ix e : preserves R (contains ix e).
Proof. intros s r s' H. apply contains_same in H as ->. reflexivity. Qed.

Lemma preserves_assign_random_id tries ix e :
  preserves (only_id_of e) (assign_random_id tries ix e).
Proof.
  induction tries as [|t IH]; cbn [assign_random_id].
  - apply preserves_diverge, _.
  - apply preserves_bind; [apply _|apply preserves_createRandomId|].
    intros i. apply preserves_bind; [apply _|apply preserves_set_id|].
    intros _. apply preserves_bind; [apply _|by apply preserves_contains, _|].
    intros []; [done|]. apply preserves_ret, _.
Qed.

(** [register] on an element whose id is set and not in the index. *)
Lemma register_fresh tries ix e s el m :
  elements s !! e = Some el -> id el <> EmptyString ->
  indices s !! ix = Some m -> m !! id el = None ->
  register tries ix e s = (Normal tt, with_index ix (<[id el := e]> m) s).
Proof.
  intros He Hid Hm Hfresh. unfold register.
  rewrite (bind_normal _ _ s el s) by (unfold read_element; by rewrite He).
  apply String.eqb_neq in Hid. rewrite Hid.
  unfold bind at 1. unfold bind at 1.
  rewrite (contains_spec ix e s el m He Hm).
  rewrite bool_decide_eq_false_2 by (rewrite Hfresh; by intros [? ?]).
  unfold ret, bind, read_element, read_index, write_index. by rewrite He, Hm.
Qed.

(** [register] on an element whose id is set and in the index. *)
Lemma register_duplicate tries ix e s el m :
  elements s !! e = Some el -> id el <> EmptyString ->
  indices s !! ix = Some m -> is_Some (m !! id el) ->
  register tries ix e s = (Throw (DuplicateIdentifier (id el)), s).
Proof.
  intros He Hid Hm Hdup. unfold register.
  rewrite (bind_normal _ _ s el s) by (unfold read_element; by rewrite He).
  apply String.eqb_neq in Hid. rewrite Hid.
  unfold bind at 1. unfold bind at 1.
  rewrite (contains_spec ix e s el m He Hm).
  by rewrite bool_decide_eq_true_2.
Qed.

(** [register] on an element without id, when it returns. *)
Lemma register_random tries ix e s s' el :
  elements s !! e = Some el -> id el = EmptyString ->
  register tries ix e s = (Normal tt, s') ->
  exists i m,
    indices s !! ix = Some m /\ m !! i = None /\
    (random_in_range s -> String.length i = default_length /\ over_ID_CHARS i) /\
    elements s' =
      <[e := mkElement (type el) i (children el) (parent el) (cls el)]>
        (elements s) /\
    indices s' = <[ix := <[i := e]> m]> (indices s) /\
    random s' = random s.
Proof.
  intros He Hid. unfold register.
  rewrite (bind_normal _ _ s el s) by (unfold read_element; by rewrite He).
  rewrite Hid. cbn [String.eqb]. unfold bind at 1.
  destruct (assign_random_id tries ix e s) as [[[]|err|] s1] eqn:Ha;
    [|discriminate..].
  destruct (assign_random_id_spec _ _ _ _ _ _ He Ha)
    as (i & m & Hm & Hfresh & Hi & Hel & Hind & Hrand).
  unfold bind, read_element, read_index, write_index.
  rewrite Hel, lookup_insert_eq, Hind, Hm. intros [= <-]. cbn.
  exists i, m. rewrite Hel, Hind. by split_and!.
Qed.

Lemma index_frame_set ix s s' m i e :
  same_objects s s' ->
  (forall x, id_of (elements s) x <> EmptyString ->
     id_of (elements s') x = id_of (elements s) x) ->
  indices s !! ix = Some m -> m !! i = None ->
  indices s' = <[ix := <[i := e]> m]> (indices s) ->
  index_frame ix s s'.
Proof.
  intros Hobj Hids Hm Hfresh Hind. split_and!; try done.
  - intros j Hj. by rewrite Hind, lookup_insert_ne.
  - intros m0 Hm0. rewrite Hm in Hm0. injection Hm0 as <-.
    exists (<[i := e]> m). split; [by rewrite Hind, lookup_insert_eq|].
    by apply insert_subseteq.
  - by rewrite Hm.
Qed.

(** Whatever [register] does stays within the frame of the index. *)
Lemma preserves_register tries ix e :
  preserves (index_frame ix) (register tries ix e).
Proof.
  intros s r s' H.
  destruct (elements s !! e) as [el|] eqn:He; cycle 1.
  { unfold register, bind, read_element in H. rewrite He in H.
    injection H as _ <-. reflexivity. }
  destruct (decide (id el = EmptyString)) as [Hid|Hid].
  - destruct r as [[]|err|].
    + destruct (register_random _ _ _ _ _ _ He Hid H)
        as (i & m & Hm & Hfresh & _ & Hel & Hind & Hrand).
      eapply index_frame_set; eauto.
      * by eapply same_objects_set_id.
      * intros x Hx. rewrite Hel. apply id_of_set_id_ne.
        intros ->. apply Hx. unfold id_of. by rewrite He.
    + apply (only_id_of_index_frame ix e); [unfold id_of; by rewrite He|].
      revert H. unfold register.
      rewrite (bind_normal _ _ s el s) by (unfold read_element; by rewrite He).
      rewrite Hid. cbn [String.eqb]. unfold bind at 1.
      destruct (assign_random_id tries ix e s) as [[[]|err'|] s1] eqn:Ha.
      * pose proof (preserves_assign_random_id _ _ _ _ _ _ Ha) as Hfr.
        unfold bind, read_element, read_index, write_index.
        destruct (elements s1 !! e); [|by intros [= _ <-]].
        destruct (indices s1 !! ix); [discriminate|by intros [= _ <-]].
      * intros [= _ <-]. by eapply preserves_assign_random_id.
      * discriminate.
    + apply (only_id_of_index_frame ix e); [unfold id_of; by rewrite He|].
      revert H. unfold register.
      rewrite (bind_normal _ _ s el s) by (unfold read_element; by rewrite He).
      rewrite Hid. cbn [String.eqb]. unfold bind at 1.
      destruct (assign_random_id tries ix e s) as [[[]|err'|] s1] eqn:Ha.
      * unfold bind, read_element, read_index, write_index.
        destruct (elements s1 !! e); [|discriminate].
        destruct (indices s1 !! ix); discriminate.
      * discriminate.
      * intros [= <-]. by eapply preserves_assign_random_id.
  - destruct (indices s !! ix) as [m|] eqn:Hm; cycle 1.
    { revert H. unfold register.
      rewrite (bind_normal _ _ s el s) by (unfold read_element; by rewrite He).
      apply String.eqb_neq in Hid. rewrite Hid.
      unfold bind at 1. unfold bind at 1.
      rewrite (contains_no_index ix e s el He Hm).
      intros [= _ <-]. reflexivity. }
    destruct (m !! id el) as [x|] eqn:Hx.
    + rewrite (register_duplicate tries ix e s el m) in H by eauto.
      injection H as _ <-. reflexivity.
    + rewrite (register_fresh tries ix e s el m) in H by eauto.
      injection H as _ <-.
      apply (index_frame_set ix s _ m (id el) e); try done.
      split_and!; try done. intros y a Ha. by exists a.
Qed.

(** [index.add], however it ends, stays within the frame of the
    index. *)
Lemma preserves_add depth tries ix e :
  preserves (index_frame ix) (add depth tries ix e).
Proof.
  revert e. induction depth as [|d IH]; intros e; cbn [add].
  - apply preserves_diverge, _.
  - apply preserves_bind; [apply _|apply preserves_register|].
    intros _. apply preserves_bind; [apply _| |].
    + intros s r s' H. unfold read_element in H.
      destruct (elements s !! e); injection H as _ <-; reflexivity.
    + intros el. apply preserves_for_of; [apply _|]. intros x. apply IH.
Qed.

(** What a returning [index.add] has done for the element it was called
    on: the element carries an id [i] that the index did not hold, its
    own if it had one and a random one otherwise, and the index maps [i]
    to the element. *)
Lemma add_returns depth tries ix e s s1 el :
  elements s !! e = Some el ->
  add depth tries ix e s = (Normal tt, s1) ->
  exists i m m1,
    indices s !! ix = Some m /\ m !! i = None /\
    (id el <> EmptyString -> i = id el) /\
    (id el = EmptyString -> random_in_range s ->
     String.length i = default_length /\ over_ID_CHARS i) /\
    indices s1 !! ix = Some m1 /\ m1 !! i = Some e /\
    (i <> EmptyString -> id_of (elements s1) e = i) /\
    index_frame ix s s1.
Proof.
  intros He. destruct depth as [|d]; [discriminate|]. cbn [add]. intros H.
  pose proof (preserves_add (S d) tries ix e _ _ _ H) as Hframe.
  destruct (bind_inv _ _ _ _ _ H) as [([] & s0 & Hreg & Hrest)|[(? & ? & ?)|[_ ?]]];
    [|discriminate..].
  assert (index_frame ix s0 s1) as (Hobj & Hids & _ & Hmap & _).
  { revert Hrest. apply preserves_bind; [apply _| |].
    - intros s2 r s2' H2. unfold read_element in H2.
      destruct (elements s2 !! e); injection H2 as _ <-; reflexivity.
    - intros el0. apply preserves_for_of; [apply _|]. intros x.
      apply preserves_add. }
  assert (exists i m,
    indices s !! ix = Some m /\ m !! i = None /\
    (id el <> EmptyString -> i = id el) /\
    (id el = EmptyString -> random_in_range s ->
     String.length i = default_length /\ over_ID_CHARS i) /\
    indices s0 !! ix = Some (<[i := e]> m) /\
    id_of (elements s0) e = i) as (i & m & Hm & Hfresh & Hgiven & Hrandom & Hm0 & Hi0).
  { destruct (decide (id el = EmptyString)) as [Hid|Hid].
    - destruct (register_random _ _ _ _ _ _ He Hid Hreg)
        as (i & m & Hm & Hfresh & Hi & Hel & Hind & Hrand).
      exists i, m. split_and!; try done.
      + by rewrite Hind, lookup_insert_eq.
      + by rewrite Hel, id_of_set_id_eq.
    - destruct (indices s !! ix) as [m|] eqn:Hm; cycle 1.
      { revert Hreg. unfold register.
        rewrite (bind_normal _ _ s el s) by (unfold read_element; by rewrite He).
        apply String.eqb_neq in Hid. rewrite Hid.
        unfold bind at 1. unfold bind at 1.
        by rewrite (contains_no_index ix e s el He Hm). }
      destruct (m !! id el) as [x|] eqn:Hx.
      { by rewrite (register_duplicate tries ix e s el m) in Hreg by eauto. }
      rewrite (register_fresh tries ix e s el m) in Hreg by eauto.
      injection Hreg as <-. exists (id el), m. split_and!; try done.
      + cbn. by rewrite lookup_insert_eq.
      + cbn. unfold id_of. by rewrite He. }
  destruct (Hmap _ Hm0) as (m1 & Hm1 & Hsub).
  exists i, m, m1. split_and!; try done.
  - eapply lookup_weaken; [|exact Hsub]. apply lookup_insert_eq.
  - intros Hne. rewrite <- Hi0. apply Hids. by rewrite Hi0.
Qed.

(** [preorder] only looks at the children arrays. *)
Lemma collect_ext {A} (f g : A -> option (list A)) l :
  (forall x, f x = g x) -> collect f l = collect g l.
Proof.
  intros Hfg. induction l as [|x l IH]; cbn; [done|]. by rewrite Hfg, IH.
Qed.

Lemma preorder_ext depth (h h' : gmap loc SModelElement) e :
  (forall x, children <$> h' !! x = children <$> h !! x) ->
  preorder depth h' e = preorder depth h e.
Proof.
  intros Hc. revert e. induction depth as [|d IH]; intros e; cbn; [done|].
  specialize (Hc e).
  destruct (h' !! e) as [b|], (h !! e) as [a|]; cbn in Hc; try done.
  injection Hc as ->. by rewrite (collect_ext _ _ _ IH).
Qed.

Lemma preorder_frame depth ix s s' e :
  index_frame ix s s' ->
  preorder depth (elements s') e = preorder depth (elements s) e.
Proof.
  intros (Hobj & _). apply preorder_ext. intros x.
  by apply same_objects_children.
Qed.

(** [index.add] registers the elements of the subtree one after the
    other, in preorder, and stops at the first that fails. *)
Lemma add_preorder depth tries ix e s l :
  preorder depth (elements s) e = Some l ->
  add depth tries ix e s = for_of l (register tries ix) s.
Proof.
  revert e s l. induction depth as [|d IH]; intros e s l; [done|].
  cbn [preorder add].
  destruct (elements s !! e) as [el|] eqn:He; [|done].
  destruct (collect (preorder d (elements s)) (children el)) as [below|] eqn:Hb;
    [|done].
  intros [= <-]. cbn [for_of]. unfold bind at 1 3.
  destruct (register tries ix e s) as [[[]|err|] s1] eqn:Hr; [|done..].
  pose proof (preserves_register _ _ _ _ _ _ Hr) as Hfr.
  pose proof (same_objects_children s s1 e (proj1 Hfr)) as Hce.
  rewrite He in Hce. cbn in Hce.
  destruct (elements s1 !! e) as [el1|] eqn:He1; [|done].
  injection Hce as Hce.
  rewrite (bind_normal _ _ s1 el1 s1) by (unfold read_element; by rewrite He1).
  rewrite Hce. clear He He1 Hce Hr el1.
  revert s1 below Hfr Hb.
  induction (children el) as [|c cs IHcs]; intros s1 below Hfr Hb.
  - injection Hb as <-. done.
  - cbn [collect] in Hb.
    destruct (preorder d (elements s) c) as [a|] eqn:Ha; [|done].
    destruct (collect (preorder d (elements s)) cs) as [b|] eqn:Hcs; [|done].
    injection Hb as <-. rewrite for_of_app. cbn [for_of].
    rewrite <- (preorder_frame d ix s s1 c Hfr) in Ha.
    unfold bind. rewrite (IH c s1 a Ha).
    destruct (for_of a (register tries ix) s1) as [[[]|err|] s2] eqn:Hrun;
      [|done..].
    apply IHcs; [|done].
    transitivity s1; [done|].
    eapply (preserves_for_of (index_frame ix)); [|exact Hrun].
    intros x. apply preserves_register.
Qed.

Lemma with_index_id ix m s :
  indices s !! ix = Some m -> with_index ix m s = s.
Proof.
  intros Hm. unfold with_index. rewrite (insert_id _ _ _ Hm). by destruct s.
Qed.

Lemma with_index_twice ix m m' s :
  with_index ix m' (with_index ix m s) = with_index ix m' s.
Proof. unfold with_index. cbn. by rewrite insert_insert_eq. Qed.

Lemma id_of_Some (h : gmap loc SModelElement) e :
  id_of h e <> EmptyString ->
  exists el, h !! e = Some el /\ id el = id_of h e.
Proof. unfold id_of. destruct (h !! e) as [el|]; [by exists el|done]. Qed.

Lemma fresh_ids_cons (h : gmap loc SModelElement) m x l :
  fresh_ids h m (x :: l) ->
  id_of h x <> EmptyString /\ m !! id_of h x = None /\
  fresh_ids h (<[id_of h x := x]> m) l.
Proof.
  intros [Hall Hnd]. apply Forall_cons in Hall as [[Hx Hmx] Hall].
  cbn in Hnd. apply NoDup_cons in Hnd as [Hnin Hnd].
  split_and!; [done..|]. split; [|done].
  rewrite Forall_forall in Hall |- *. intros y Hy.
  destruct (Hall y Hy) as [Hy1 Hy2]. split; [done|].
  rewrite lookup_insert_ne; [done|].
  intros Heq. apply Hnin. rewrite Heq. apply list_elem_of_fmap. by exists y.
Qed.

(** Registering elements whose ids are all fresh adds one entry for
    each of them. *)
Lemma for_of_register_fresh tries ix l s m :
  indices s !! ix = Some m ->
  fresh_ids (elements s) m l ->
  for_of l (register tries ix) s =
  (Normal tt, with_index ix (set_all (elements s) l m) s).
Proof.
  revert s m. induction l as [|x l IH]; intros s m Hm Hfresh.
  - cbn. by rewrite with_index_id.
  - apply fresh_ids_cons in Hfresh as (Hx & Hmx & Hfresh).
    destruct (id_of_Some _ _ Hx) as (el & Hel & Hid).
    cbn [for_of]. unfold bind.
    rewrite (register_fresh tries ix x s el m) by (rewrite ?Hid; done).
    rewrite Hid. rewrite IH with (m := <[id_of (elements s) x := x]> m).
    + by rewrite with_index_twice.
    + cbn. apply lookup_insert_eq.
    + done.
Qed.

(** Registering stops at the first element whose id is taken, with
    everything before it registered. *)
Lemma for_of_register_duplicate tries ix l1 x l2 s m :
  indices s !! ix = Some m ->
  fresh_ids (elements s) m l1 ->
  id_of (elements s) x <> EmptyString ->
  is_Some (set_all (elements s) l1 m !! id_of (elements s) x) ->
  for_of (l1 ++ x :: l2) (register tries ix) s =
  (Throw (DuplicateIdentifier (id_of (elements s) x)),
   with_index ix (set_all (elements s) l1 m) s).
Proof.
  intros Hm Hfresh Hx Hdup. rewrite for_of_app. unfold bind.
  rewrite (for_of_register_fresh tries ix l1 s m Hm Hfresh).
  destruct (id_of_Some _ _ Hx) as (el & Hel & Hid).
  cbn [for_of]. unfold bind.
  rewrite (register_duplicate tries ix x _ el (set_all (elements s) l1 m));
    rewrite ?Hid; try done.
  cbn. apply lookup_insert_eq.
Qed.

(** The entries of the map after a run of fresh registrations. *)
Lemma set_all_fresh (h : gmap loc SModelElement) l m :
  fresh_ids h m l ->
  size (set_all h l m) = (size m + length l)%nat /\
  m ⊆ set_all h l m /\
  (forall e, e ∈ l -> set_all h l m !! id_of h e = Some e) /\
  (forall i, is_Some (set_all h l m !! i) <->
             is_Some (m !! i) \/ i ∈ id_of h <$> l).
Proof.
  revert m. induction l as [|x l IH]; intros m Hfresh.
  - cbn. split_and!; [lia|done| |].
    + intros e He. by apply elem_of_nil in He.
    + intros i. split; [by left|]. intros [?|Hi]; [done|].
      by apply elem_of_nil in Hi.
  - apply fresh_ids_cons in Hfresh as (Hx & Hmx & Hfresh).
    destruct (IH _ Hfresh) as (Hsize & Hsub & Hin & Hdom).
    change (set_all h (x :: l) m) with (set_all h l (<[id_of h x := x]> m)).
    split_and!.
    + rewrite Hsize, map_size_insert_None by done. cbn. lia.
    + transitivity (<[id_of h x := x]> m); [by apply insert_subseteq|done].
    + intros e He. apply elem_of_cons in He as [->|He]; [|by apply Hin].
      eapply lookup_weaken; [|exact Hsub]. apply lookup_insert_eq.
    + intros i. rewrite Hdom. cbn. rewrite elem_of_cons.
      destruct (decide (i = id_of h x)) as [->|Hne].
      * rewrite lookup_insert_eq. split; [intros _|intros _; left; eauto].
        right. by left.
      * rewrite lookup_insert_ne by done.
        split; [intros [?|?]; auto|intros [?|[?|?]]; auto; done].
Qed.

End IndexFacts.

Section IndexClaims.

Import SModelIndex.

(** C2, as stated, fails: adding the subtree E2 whose child carries the
    registered id E1 throws, and E2 stays registered. *)
Lemma C2_counterexample :
  ~ (forall depth tries ix e s err s',
       add depth tries ix e s = (Throw err, s') ->
       id2element s' ix = id2element s ix).
Proof.
  intros H.
  assert (exists s',
            add 2 1 10%positive 4%positive example_store =
              (Throw (DuplicateIdentifier "E1"), s') /\
            id2element s' 10%positive !! "E2"%string = Some 4%positive)
    as (s' & Hrun & Hlook).
  { eexists. split; vm_compute; reflexivity. }
  rewrite (H _ _ _ _ _ _ _ Hrun) in Hlook. vm_compute in Hlook. discriminate.
Qed.

(** C9: for an element whose id is empty or unset, an index.add that
    returns has given it an id of the default length 8, made of digits
    and lowercase letters only, that the index did not hold before and
    now maps to the element; and a following index.add on another element
    without id that returns gives that one an id different from the
    first, which the first element keeps.  The random values are any
    stream within the range of the alphabet. *)
Theorem C9_random_id depth tries ix e s s1 el :
  random_in_range s ->
  elements s !! e = Some el ->
  id el = EmptyString ->
  add depth tries ix e s = (Normal tt, s1) ->
  String.length (id_of (elements s1) e) = 8%nat /\
  over_ID_CHARS (id_of (elements s1) e) /\
  id2element s ix !! id_of (elements s1) e = None /\
  id2element s1 ix !! id_of (elements s1) e = Some e /\
  (forall depth' tries' e' el' s2,
     elements s1 !! e' = Some el' ->
     id el' = EmptyString ->
     add depth' tries' ix e' s1 = (Normal tt, s2) ->
     String.length (id_of (elements s2) e') = 8%nat /\
     over_ID_CHARS (id_of (elements s2) e') /\
     id_of (elements s2) e' <> id_of (elements s1) e /\
     id_of (elements s2) e = id_of (elements s1) e).
Proof.
  intros Hr He Hid Hadd.
  destruct (add_returns _ _ _ _ _ _ _ He Hadd)
    as (i & m & m1 & Hm & Hfresh & _ & Hrandom & Hm1 & Hreg & Hstable & Hframe).
  destruct (Hrandom Hid Hr) as [Hlen Hover].
  assert (i <> EmptyString) as Hne by (intros ->; discriminate Hlen).
  rewrite (Hstable Hne). unfold id2element. rewrite Hm, Hm1. cbn.
  split_and!; try done.
  intros depth' tries' e' el' s2 He' Hid' Hadd'.
  destruct (add_returns _ _ _ _ _ _ _ He' Hadd')
    as (i' & m' & m2 & Hm' & Hfresh' & _ & Hrandom' & Hm2 & Hreg' & Hstable'
        & Hframe').
  assert (random_in_range s1) as Hr1.
  { destruct Hframe as ((_ & _ & Hrand) & _). intros k. rewrite Hrand. apply Hr. }
  destruct (Hrandom' Hid' Hr1) as [Hlen' Hover'].
  assert (i' <> EmptyString) as Hne' by (intros ->; discriminate Hlen').
  rewrite (Hstable' Hne').
  rewrite Hm1 in Hm'. injection Hm' as <-.
  split_and!; try done.
  - intros ->. by rewrite Hreg in Hfresh'.
  - destruct Hframe' as (_ & Hids & _). rewrite <- (Hstable Hne).
    apply Hids. by rewrite (Hstable Hne).
Qed.

Lemma C9_random_id_witness :
  String.length
    (id_of (elements (add 1 1 10%positive 6%positive example_store).2)
       6%positive) = 8%nat /\
  id2element example_store 10%positive
    !! id_of (elements (add 1 1 10%positive 6%positive example_store).2)
         6%positive = None.
Proof.
  destruct (C9_random_id 1 1 10%positive 6%positive example_store
              (add 1 1 10%positive 6%positive example_store).2
              (mkElement "element" EmptyString [] None ChildClass))
    as (Hlen & _ & Hfresh & _).
  - intros k. change (k mod 36 < 36)%nat. apply Nat.mod_upper_bound. lia.
  - vm_compute. reflexivity.
  - reflexivity.
  - vm_compute. reflexivity.
  - split; [exact Hlen|exact Hfresh].
Defined.

(** C10: the index compares ids, never objects.  Once index.add has
    returned for an element with a non-empty id, a second index.add of
    the very same object throws DuplicateIdentifier and changes nothing,
    and contains is true of every element that carries this id, whether
    it is registered itself or not. *)
Theorem C10_ids_not_objects depth tries ix e s s1 el :
  elements s !! e = Some el ->
  id el <> EmptyString ->
  add depth tries ix e s = (Normal tt, s1) ->
  (forall depth' tries',
     add (S depth') tries' ix e s1 =
       (Throw (DuplicateIdentifier (id el)), s1)) /\
  (forall e' el',
     elements s1 !! e' = Some el' ->
     id el' = id el ->
     contains ix e' s1 = (Normal true, s1) /\
     forall depth' tries',
       add (S depth') tries' ix e' s1 =
         (Throw (DuplicateIdentifier (id el)), s1)).
Proof.
  intros He Hid Hadd.
  destruct (add_returns _ _ _ _ _ _ _ He Hadd)
    as (i & m & m1 & Hm & Hfresh & Hgiven & _ & Hm1 & Hreg & Hstable & Hframe).
  rewrite (Hgiven Hid) in *. clear i Hgiven.
  assert (forall e' el', elements s1 !! e' = Some el' -> id el' = id el ->
            forall depth' tries',
              add (S depth') tries' ix e' s1 =
                (Throw (DuplicateIdentifier (id el)), s1)) as Hdup.
  { intros e' el' He' Hid' depth' tries'. cbn [add].
    apply bind_throw. rewrite <- Hid'.
    apply (register_duplicate tries' ix e' s1 el' m1); try done.
    - congruence.
    - rewrite Hid'. by eexists. }
  split.
  - specialize (Hstable Hid). unfold id_of in Hstable.
    destruct (elements s1 !! e) as [el1|] eqn:He1; [|done].
    by apply (Hdup e el1).
  - intros e' el' He' Hid'. split; [|by eapply Hdup].
    rewrite (contains_spec ix e' s1 el' m1 He' Hm1).
    rewrite bool_decide_eq_true_2; [done|]. rewrite Hid'. by eexists.
Qed.

Lemma C10_ids_not_objects_witness :
  add 1 1 10%positive 8%positive
      (add 2 1 10%positive 8%positive example_store).2 =
    (Throw (DuplicateIdentifier "E3"),
     (add 2 1 10%positive 8%positive example_store).2).
Proof.
  destruct (C10_ids_not_objects 2 1 10%positive 8%positive example_store
              (add 2 1 10%positive 8%positive example_store).2
              (mkElement "element" "E3" [9%positive] None ChildClass))
    as [Hsecond _].
  - vm_compute. reflexivity.
  - discriminate.
  - vm_compute. reflexivity.
  - exact (Hsecond 0%nat 1%nat).
Defined.

End IndexClaims.

(** * Properties of the tree operations *)

Section ThrowFacts.

Lemma throws_only_read_element (P : Error -> Prop) e :
  P TypeError -> throws_only P (read_element e).
Proof.
  intros HP s err s'. unfold read_element.
  destruct (elements s !! e); [discriminate|]. by intros [= <- _].
Qed.

Lemma throws_only_read_index (P : Error -> Prop) ix :
  P TypeError -> throws_only P (read_index ix).
Proof.
  intros HP s err s'. unfold read_index.
  destruct (indices s !! ix); [discriminate|]. by intros [= <- _].
Qed.

Lemma throws_only_set_id (P : Error -> Prop) e i :
  P TypeError -> throws_only P (set_id e i).
Proof.
  intros HP. apply throws_only_bind; [by apply throws_only_read_element|].
  intros el s err s'. discriminate.
Qed.

Lemma throws_only_contains (P : Error -> Prop) ix e :
  P TypeError -> throws_only P (SModelIndex.contains ix e).
Proof.
  intros HP. apply throws_only_bind; [by apply throws_only_read_element|].
  intros el. apply throws_only_bind; [by apply throws_only_read_index|].
  intros m s err s'. discriminate.
Qed.

Lemma throws_only_assign_random_id (P : Error -> Prop) tries ix e :
  P TypeError -> throws_only P (SModelIndex.assign_random_id tries ix e).
Proof.
  intros HP. induction tries as [|t IH]; cbn [SModelIndex.assign_random_id].
  - intros s err s'. discriminate.
  - apply throws_only_bind.
    { intros s err s' H.
      destruct (createRandomId_spec default_length s) as (i & Hrun & _).
      rewrite Hrun in H. discriminate. }
    intros i. apply throws_only_bind; [by apply throws_only_set_id|].
    intros _. apply throws_only_bind; [by apply throws_only_contains|].
    intros []; [done|]. intros s err s'. discriminate.
Qed.

(** The index throws nothing but DuplicateIdentifier, dangling
    references apart. *)
Lemma throws_only_register tries ix e :
  throws_only index_errors (SModelIndex.register tries ix e).
Proof.
  assert (index_errors TypeError) as HT by (by right).
  apply throws_only_bind; [by apply throws_only_read_element|].
  intros el. apply throws_only_bind.
  - destruct (String.eqb (id el) EmptyString).
    + by apply throws_only_assign_random_id.
    + apply throws_only_bind; [by apply throws_only_contains|].
      intros []; intros s err s'; [|discriminate].
      intros [= <- _]. left. by eexists.
  - intros _. apply throws_only_bind; [by apply throws_only_read_element|].
    intros el'. apply throws_only_bind; [by apply throws_only_read_index|].
    intros m s err s'. discriminate.
Qed.

Lemma throws_only_index_add depth tries ix e :
  throws_only index_errors (SModelIndex.add depth tries ix e).
Proof.
  revert e. induction depth as [|d IH]; intros e; cbn [SModelIndex.add].
  - intros s err s'. discriminate.
  - apply throws_only_bind; [apply throws_only_register|].
    intros _. apply throws_only_bind.
    + apply throws_only_read_element. by right.
    + intros el. apply throws_only_for_of. intros x. apply IH.
Qed.

(** The walk to the root changes nothing and throws nothing but
    DetachedElement, dangling references apart. *)
Lemma root_from_same fuel current s r s' :
  SModelElement.root_from fuel current s = (r, s') -> s' = s.
Proof.
  revert current s. induction fuel as [|f IH]; intros [c|] s; cbn;
    try (by intros [= _ <-]).
  unfold bind, read_element. destruct (elements s !! c) as [el|];
    [|by intros [= _ <-]].
  destruct (cls el); [apply IH|apply IH|by intros [= _ <-]].
Qed.

Lemma throws_only_root_from fuel current :
  throws_only root_errors (SModelElement.root_from fuel current).
Proof.
  revert current. induction fuel as [|f IH]; intros [c|]; cbn;
    try (intros s err s'; discriminate);
    try (intros s err s' [= <- _]; by left).
  apply throws_only_bind; [apply throws_only_read_element; by right|].
  intros el. destruct (cls el); [apply IH|apply IH|].
  intros s err s'. discriminate.
Qed.

Lemma index_getter_same fuel e s r s' :
  SModelElement.index fuel e s = (r, s') -> s' = s.
Proof.
  unfold SModelElement.index, SModelElement.root, bind.
  destruct (SModelElement.root_from fuel (Some e) s) as [[x|err|] s1] eqn:Hr;
    apply root_from_same in Hr as ->; try (by intros [= _ <-]).
  unfold read_element. destruct (elements s !! x) as [el|];
    [|by intros [= _ <-]].
  destruct (cls el); by intros [= _ <-].
Qed.

Lemma throws_only_index_getter fuel e :
  throws_only root_errors (SModelElement.index fuel e).
Proof.
  apply throws_only_bind; [apply throws_only_root_from|].
  intros x. apply throws_only_bind; [apply throws_only_read_element; by right|].
  intros el. destruct (cls el); intros s err s'; try discriminate;
    intros [= <- _]; by right.
Qed.

End ThrowFacts.

Section ArrayFacts.

(** [indexOf] finds the first position of an element, or answers -1
    when there is none. *)
Lemma indexOf_spec (l : list loc) (x : loc) :
  (indexOf l x = -1 /\ x ∉ l) \/
  (0 <= indexOf l x < Z.of_nat (length l) /\
   l !! Z.to_nat (indexOf l x) = Some x /\
   forall j, (j < Z.to_nat (indexOf l x))%nat -> l !! j <> Some x).
Proof.
  induction l as [|y l IH]; cbn [indexOf].
  - left. split; [done|]. apply not_elem_of_nil.
  - destruct (decide (y = x)) as [->|Hyx].
    + right. cbn. split_and!; [lia|lia|done|]. intros j Hj. lia.
    + destruct IH as [[Hk Hnin]|(Hk & Hlook & Hfirst)].
      * left. rewrite Hk. cbn. split; [done|].
        rewrite not_elem_of_cons. split; [congruence|done].
      * right. destruct (indexOf l x =? -1) eqn:Hneg; [lia|].
        replace (Z.to_nat (indexOf l x + 1)) with (S (Z.to_nat (indexOf l x)))
          by lia.
        cbn [length]. split_and!; [lia|lia|done|].
        intros [|j] Hj; cbn; [congruence|]. apply Hfirst. lia.
Qed.

Lemma indexOf_absent (l : list loc) (x : loc) : indexOf l x = -1 <-> x ∉ l.
Proof.
  destruct (indexOf_spec l x) as [[Hk Hnin]|(Hk & Hlook & _)].
  - by split.
  - split; [lia|]. intros Hnin. exfalso. apply Hnin.
    eapply list_elem_of_lookup_2. exact Hlook.
Qed.

Lemma splice_start_in_range (n : Z) (len : nat) :
  0 <= n <= Z.of_nat len -> splice_start n len = Z.to_nat n.
Proof.
  intros Hn. unfold splice_start.
  destruct (n <? 0) eqn:Hneg; [lia|]. f_equal. lia.
Qed.

Lemma splice_insert {A} (n : Z) (x : A) (l : list A) :
  0 <= n <= Z.of_nat (length l) ->
  splice n 0 [x] l = take (Z.to_nat n) l ++ x :: drop (Z.to_nat n) l.
Proof.
  intros Hn. unfold splice. rewrite splice_start_in_range by done.
  by rewrite Nat.add_0_r.
Qed.

Lemma splice_remove {A} (i : Z) (l : list A) :
  0 <= i <= Z.of_nat (length l) ->
  splice i 1 [] l = take (Z.to_nat i) l ++ drop (S (Z.to_nat i)) l.
Proof.
  intros Hi. unfold splice. rewrite splice_start_in_range by done.
  cbn. by rewrite Nat.add_1_r.
Qed.

(** Taking an element out and putting it back anywhere permutes the
    array; putting it back where it was restores the array. *)
Lemma take_out_put_back {A} (l : list A) (i n : nat) (x : A) :
  l !! i = Some x ->
  take n (take i l ++ drop (S i) l) ++ x :: drop n (take i l ++ drop (S i) l)
    ≡ₚ l.
Proof.
  intros Hx. rewrite <- Permutation_middle, take_drop.
  rewrite <- (take_drop_middle l i x Hx) at 3.
  by rewrite <- Permutation_middle.
Qed.

Lemma take_out_put_back_same {A} (l : list A) (i : nat) (x : A) :
  l !! i = Some x ->
  take i (take i l ++ drop (S i) l) ++ x :: drop i (take i l ++ drop (S i) l)
    = l.
Proof.
  intros Hx. pose proof (lookup_lt_Some _ _ _ Hx) as Hi.
  assert (length (take i l) = i) as Hlen by (rewrite length_take; lia).
  rewrite take_app_length' by done. rewrite drop_app_length' by done.
  by apply take_drop_middle.
Qed.

End ArrayFacts.

Section TreeFacts.

Lemma set_children_spec p cs s el :
  elements s !! p = Some el ->
  set_children p cs s = (Normal tt, with_children p cs s).
Proof.
  intros Hp. unfold set_children, bind, read_element, write_element,
    with_children. by rewrite Hp.
Qed.

Lemma set_parent_spec c q s el :
  elements s !! c = Some el ->
  set_parent c q s = (Normal tt, with_parent c q s).
Proof.
  intros Hc. unfold set_parent, bind, read_element, write_element,
    with_parent. by rewrite Hc.
Qed.

Lemma set_parent_dangling c q s :
  elements s !! c = None -> set_parent c q s = (Throw TypeError, s).
Proof.
  intros Hc. unfold set_parent, bind, read_element. by rewrite Hc.
Qed.

Lemma with_children_lookup p cs s el :
  elements s !! p = Some el ->
  elements (with_children p cs s) !! p =
    Some (mkElement (type el) (id el) cs (parent el) (cls el)) /\
  (forall x, x <> p ->
     elements (with_children p cs s) !! x = elements s !! x) /\
  indices (with_children p cs s) = indices s.
Proof.
  intros Hp. unfold with_children. rewrite Hp. cbn. split_and!; [|intros x Hx|done].
  - apply lookup_insert_eq.
  - by apply lookup_insert_ne.
Qed.

Lemma with_parent_lookup c q s el :
  elements s !! c = Some el ->
  elements (with_parent c q s) !! c =
    Some (mkElement (type el) (id el) (children el) q (cls el)) /\
  (forall x, x <> c ->
     elements (with_parent c q s) !! x = elements s !! x) /\
  indices (with_parent c q s) = indices s.
Proof.
  intros Hc. unfold with_parent. rewrite Hc. cbn. split_and!; [|intros x Hx|done].
  - apply lookup_insert_eq.
  - by apply lookup_insert_ne.
Qed.

(** The store with the child attached: what it holds. *)
Lemma attached_lookup p c cs s el :
  elements s !! p = Some el ->
  is_Some (elements s !! c) ->
  children <$> elements (attached p c cs s) !! p = Some cs /\
  parent <$> elements (attached p c cs s) !! c = Some (Some p) /\
  indices (attached p c cs s) = indices s.
Proof.
  intros Hp [elc Hc]. unfold attached.
  destruct (with_children_lookup p cs s el Hp) as (Hp1 & Hx1 & Hi1).
  assert (exists elc', elements (with_children p cs s) !! c = Some elc')
    as [elc' Hc'].
  { destruct (decide (c = p)) as [->|Hne]; [by eexists|].
    rewrite (Hx1 c Hne). by eexists. }
  destruct (with_parent_lookup c (Some p) _ elc' Hc') as (Hc2 & Hx2 & Hi2).
  split_and!.
  - destruct (decide (p = c)) as [->|Hne].
    + rewrite Hc2. cbn. rewrite Hp1 in Hc'. by injection Hc' as <-.
    + rewrite (Hx2 p Hne), Hp1. done.
  - by rewrite Hc2.
  - by rewrite Hi2.
Qed.

(** [add] with a position out of range. *)
Lemma add_out_of_range fuel tries p c i s el :
  elements s !! p = Some el ->
  i < 0 \/ i > Z.of_nat (length (children el)) ->
  SParentElement.add fuel tries p c (Some i) s = (Throw IndexOutOfBounds, s).
Proof.
  intros Hp Hi. unfold SParentElement.add.
  rewrite (bind_normal _ _ s el s) by (unfold read_element; by rewrite Hp).
  replace ((i <? 0) || (i >? Z.of_nat (length (children el)))) with true; [done|].
  symmetry. apply orb_true_iff. lia.
Qed.

(** [add] past its bounds check: the child is inserted and its parent
    set, then the index of the root is looked up and the child
    registered. *)
Lemma add_in_range fuel tries p c i s el :
  elements s !! p = Some el ->
  match i with
  | Some i => 0 <= i <= Z.of_nat (length (children el))
  | None => True
  end ->
  SParentElement.add fuel tries p c i s =
  bind (set_parent c (Some p))
       (fun _ => bind (SModelElement.index fuel p)
                      (fun ix => SModelIndex.add fuel tries ix c))
       (with_children p (inserted i c (children el)) s).
Proof.
  intros Hp Hi. unfold SParentElement.add.
  rewrite (bind_normal _ _ s el s) by (unfold read_element; by rewrite Hp).
  destruct i as [i|].
  - replace ((i <? 0) || (i >? Z.of_nat (length (children el)))) with false;
      [|symmetry; apply orb_false_iff; lia].
    by rewrite (bind_normal _ _ _ _ _ (set_children_spec p _ s el Hp)).
  - by rewrite (bind_normal _ _ _ _ _ (set_children_spec p _ s el Hp)).
Qed.

Lemma with_children_is_Some p cs s x :
  is_Some (elements (with_children p cs s) !! x) <-> is_Some (elements s !! x).
Proof.
  unfold with_children. destruct (elements s !! p) as [el|] eqn:Hp; [|done].
  cbn. destruct (decide (x = p)) as [->|Hne].
  - rewrite lookup_insert_eq, Hp. split; by eexists.
  - by rewrite lookup_insert_ne.
Qed.


Lemma throws_only_set_parent (P : Error -> Prop) c q :
  P TypeError -> throws_only P (set_parent c q).
Proof.
  intros HP. apply throws_only_bind; [by apply throws_only_read_element|].
  intros el s err s'. discriminate.
Qed.

Lemma throws_only_weaken {St A} (P Q : Error -> Prop) (m : M St A) :
  (forall e, P e -> Q e) -> throws_only P m -> throws_only Q m.
Proof. intros HPQ Hm s e s' H. apply HPQ. by eapply Hm. Qed.

(** Past its bounds check, [add] throws no IndexOutOfBounds. *)
Lemma add_in_range_throws fuel tries p c i s el s' :
  elements s !! p = Some el ->
  match i with
  | Some i => 0 <= i <= Z.of_nat (length (children el))
  | None => True
  end ->
  SParentElement.add fuel tries p c i s <> (Throw IndexOutOfBounds, s').
Proof.
  intros Hp Hi. rewrite (add_in_range fuel tries p c i s el Hp Hi).
  intros H. revert H.
  assert (throws_only (fun e => e <> IndexOutOfBounds)
            (bind (set_parent c (Some p))
               (fun _ => bind (SModelElement.index fuel p)
                  (fun ix => SModelIndex.add fuel tries ix c)))) as Hthrows.
  { apply throws_only_bind; [by apply throws_only_set_parent|].
    intros _. apply throws_only_bind.
    - eapply throws_only_weaken; [|apply throws_only_index_getter].
      intros e [-> | ->]; done.
    - intros ix. eapply throws_only_weaken; [|apply throws_only_index_add].
      intros e [[j ->] | ->]; done. }
  intros H. by apply Hthrows in H.
Qed.

(** What [move] does, case by case. *)
Lemma move_spec p c n s el :
  elements s !! p = Some el ->
  SParentElement.move p c n s =
  if indexOf (children el) c =? -1 then (Throw ChildNotFound, s)
  else if (n <? 0) || (n >? Z.of_nat (length (children el)) - 1)
  then (Throw IndexOutOfBounds, s)
  else (Normal tt,
        with_children p
          (splice n 0 [c] (splice (indexOf (children el) c) 1 [] (children el)))
          s).
Proof.
  intros Hp. unfold SParentElement.move.
  rewrite (bind_normal _ _ s el s) by (unfold read_element; by rewrite Hp).
  destruct (indexOf (children el) c =? -1); [done|].
  destruct ((n <? 0) || (n >? Z.of_nat (length (children el)) - 1)); [done|].
  by apply (set_children_spec p _ s el).
Qed.

(** The array [move] leaves, in terms of its two steps. *)
Lemma move_array (l : list loc) (c : loc) (n : Z) :
  c ∈ l ->
  0 <= n <= Z.of_nat (length l) - 1 ->
  let i := Z.to_nat (indexOf l c) in
  l !! i = Some c /\
  splice n 0 [c] (splice (indexOf l c) 1 [] l) =
    take (Z.to_nat n) (take i l ++ drop (S i) l) ++
    c :: drop (Z.to_nat n) (take i l ++ drop (S i) l).
Proof.
  intros Hc Hn.
  destruct (indexOf_spec l c) as [[_ Hnin]|(Hk & Hlook & _)]; [done|].
  cbn. split; [done|].
  rewrite splice_remove by lia. apply splice_insert.
  rewrite length_app, length_take, length_drop. lia.
Qed.

End TreeFacts.

Section TreeClaims.

(** C1, as stated, fails: adding to the root R a child that carries the
    registered id E1 throws DuplicateIdentifier, and the child is in the
    children of R afterwards. *)
Lemma C1_counterexample :
  ~ (forall fuel tries p c i s dup s',
       SParentElement.add fuel tries p c i s =
         (Throw (DuplicateIdentifier dup), s') ->
       elements s' = elements s /\ indices s' = indices s).
Proof.
  intros H.
  assert (exists s',
            SParentElement.add 2 1 1%positive 3%positive None example_store =
              (Throw (DuplicateIdentifier "E1"), s') /\
            children <$> elements s' !! 1%positive =
              Some [2%positive; 3%positive])
    as (s' & Hrun & Hlook).
  { eexists. split; vm_compute; reflexivity. }
  destruct (H _ _ _ _ _ _ _ _ Hrun) as [Hel _].
  rewrite Hel in Hlook. vm_compute in Hlook. discriminate.
Qed.

(** C7: p.add(c, i) with an explicit i throws IndexOutOfBounds exactly
    when i < 0 or i > p.children.length, and then nothing has changed;
    without i it never does.  p.move(c, newIndex) throws ChildNotFound
    exactly when c is not in p.children; when c is there, it throws
    IndexOutOfBounds exactly when newIndex < 0 or
    newIndex > p.children.length - 1.  A failing move changes nothing. *)
Theorem C7_position_errors fuel tries p c s el :
  elements s !! p = Some el ->
  (forall i,
     (exists s', SParentElement.add fuel tries p c (Some i) s =
                   (Throw IndexOutOfBounds, s')) <->
     (i < 0 \/ i > Z.of_nat (length (children el)))) /\
  (forall i s',
     SParentElement.add fuel tries p c (Some i) s = (Throw IndexOutOfBounds, s') ->
     s' = s) /\
  (forall s',
     SParentElement.add fuel tries p c None s <> (Throw IndexOutOfBounds, s')) /\
  (forall n,
     (exists s', SParentElement.move p c n s = (Throw ChildNotFound, s')) <->
     c ∉ children el) /\
  (forall n,
     c ∈ children el ->
     ((exists s', SParentElement.move p c n s = (Throw IndexOutOfBounds, s')) <->
      (n < 0 \/ n > Z.of_nat (length (children el)) - 1))) /\
  (forall n e s', SParentElement.move p c n s = (Throw e, s') -> s' = s).
Proof.
  intros Hp.
  assert (forall i s',
            SParentElement.add fuel tries p c (Some i) s =
              (Throw IndexOutOfBounds, s') ->
            i < 0 \/ i > Z.of_nat (length (children el))) as Hbounds.
  { intros i s' Hadd.
    destruct (decide (0 <= i <= Z.of_nat (length (children el)))); [|lia].
    by apply (add_in_range_throws fuel tries p c (Some i) s el s' Hp) in Hadd. }
  split_and!.
  - intros i. split.
    + intros [s' Hadd]. by eapply Hbounds.
    + intros Hi. exists s. by apply (add_out_of_range fuel tries p c i s el).
  - intros i s' Hadd. pose proof (Hbounds i s' Hadd) as Hi.
    rewrite (add_out_of_range fuel tries p c i s el Hp Hi) in Hadd.
    by injection Hadd as <-.
  - intros s'. by apply (add_in_range_throws fuel tries p c None s el s' Hp).
  - intros n. rewrite <- indexOf_absent, (move_spec p c n s el Hp). split.
    + intros [s' Hmove]. destruct (indexOf (children el) c =? -1) eqn:Hk; [lia|].
      destruct ((n <? 0) || (n >? Z.of_nat (length (children el)) - 1));
        discriminate.
    + intros ->. by exists s.
  - intros n Hc. rewrite (move_spec p c n s el Hp).
    destruct (indexOf (children el) c =? -1) eqn:Hk.
    { apply Z.eqb_eq, indexOf_absent in Hk. done. }
    destruct ((n <? 0) || (n >? Z.of_nat (length (children el)) - 1)) eqn:Hn.
    + apply orb_true_iff in Hn. split; [lia|]. intros _. by exists s.
    + apply orb_false_iff in Hn. split; [intros [s' [=]]|lia].
  - intros n e s'. rewrite (move_spec p c n s el Hp).
    destruct (indexOf (children el) c =? -1); [by intros [= _ <-]|].
    destruct ((n <? 0) || (n >? Z.of_nat (length (children el)) - 1));
      [by intros [= _ <-]|discriminate].
Qed.

(** C8, as stated, fails when the child occurs twice among the
    children: R.add(E3, 0) followed by a second R.add(E3), which throws
    after its insertion, leaves the children [E3, E1, E3] of R; then
    R.move(E3, 2), to a position at which E3 is, returns and leaves
    [E1, E3, E3]. *)
Lemma C8_counterexample :
  ~ (forall p c n s el s',
       elements s !! p = Some el ->
       children el !! Z.to_nat n = Some c ->
       parent <$> elements s !! c = Some (Some p) ->
       0 <= n <= Z.of_nat (length (children el)) - 1 ->
       SParentElement.move p c n s = (Normal tt, s') ->
       children <$> elements s' !! p = Some (children el)).
Proof.
  intros H.
  set (s := (SParentElement.add 2 1 1%positive 8%positive None
               (SParentElement.add 2 1 1%positive 8%positive (Some 0)
                  example_store).2).2).
  specialize (H 1%positive 8%positive 2 s
                (mkElement "root" "R" [8%positive; 2%positive; 8%positive] None
                   (RootClass 10%positive))
                (SParentElement.move 1%positive 8%positive 2 s).2).
  assert (children <$>
            elements (SParentElement.move 1%positive 8%positive 2 s).2
              !! 1%positive = Some [2%positive; 8%positive; 8%positive])
    as Hmoved by (vm_compute; reflexivity).
  assert (elements s !! 1%positive =
            Some (mkElement "root" "R" [8%positive; 2%positive; 8%positive] None
                    (RootClass 10%positive))) as Hel
    by (vm_compute; reflexivity).
  assert (parent <$> elements s !! 8%positive = Some (Some 1%positive))
    as Hpar by (vm_compute; reflexivity).
  specialize (H Hel eq_refl Hpar ltac:(cbn; lia) (surjective_pairing _)).
  pose proof (eq_trans (eq_sym Hmoved) H) as Habs.
  vm_compute in Habs. discriminate Habs.
Qed.

(** C8, amended: for a child c of p and a valid target position,
    p.move(c, newIndex) returns and changes the order of p.children only:
    the new array is a permutation of the old one, no parent reference
    and no other element changes, and no index is touched.  Moving c to
    the first position it occurs at, the one indexOf finds, leaves the
    array, and the whole store, as it was; when c occurs once among the
    children, this is the position of c. *)
Theorem C8_move_frame p c n s el :
  elements s !! p = Some el ->
  c ∈ children el ->
  0 <= n <= Z.of_nat (length (children el)) - 1 ->
  exists cs',
    SParentElement.move p c n s = (Normal tt, with_children p cs' s) /\
    cs' ≡ₚ children el /\
    (forall x, x ∈ cs' <-> x ∈ children el) /\
    children <$> elements (with_children p cs' s) !! p = Some cs' /\
    (forall x, parent <$> elements (with_children p cs' s) !! x =
               parent <$> elements s !! x) /\
    (forall x, x <> p -> elements (with_children p cs' s) !! x = elements s !! x) /\
    indices (with_children p cs' s) = indices s /\
    (n = indexOf (children el) c ->
     cs' = children el /\ with_children p cs' s = s) /\
    (children el !! Z.to_nat n = Some c ->
     (forall k, children el !! k = Some c -> k = Z.to_nat n) ->
     cs' = children el /\ with_children p cs' s = s).
Proof.
  intros Hp Hc Hn.
  destruct (move_array (children el) c n Hc Hn) as [Hlook Harr].
  set (i := Z.to_nat (indexOf (children el) c)) in *.
  eexists. split.
  { rewrite (move_spec p c n s el Hp).
    destruct (indexOf (children el) c =? -1) eqn:Hk.
    { apply Z.eqb_eq, indexOf_absent in Hk. done. }
    replace ((n <? 0) || (n >? Z.of_nat (length (children el)) - 1)) with false;
      [reflexivity|].
    symmetry. apply orb_false_iff. lia. }
  rewrite Harr.
  destruct (with_children_lookup p
              (take (Z.to_nat n) (take i (children el) ++ drop (S i) (children el)) ++
               c :: drop (Z.to_nat n) (take i (children el) ++ drop (S i) (children el)))
              s el Hp) as (Hp' & Hx' & Hind').
  pose proof (take_out_put_back (children el) i (Z.to_nat n) c Hlook) as Hperm.
  assert (n = indexOf (children el) c ->
          take (Z.to_nat n) (take i (children el) ++ drop (S i) (children el)) ++
          c :: drop (Z.to_nat n) (take i (children el) ++ drop (S i) (children el)) =
          children el /\
          with_children p
            (take (Z.to_nat n) (take i (children el) ++ drop (S i) (children el)) ++
             c :: drop (Z.to_nat n)
                    (take i (children el) ++ drop (S i) (children el))) s = s)
    as Hsame.
  { intros ->. fold i.
    rewrite (take_out_put_back_same (children el) i c Hlook).
    split; [done|]. unfold with_children. rewrite Hp.
    replace (mkElement (type el) (id el) (children el) (parent el) (cls el))
      with el by (by destruct el).
    rewrite (insert_id _ _ _ Hp). by destruct s. }
  split_and!; try done.
  - intros x. by rewrite Hperm.
  - by rewrite Hp'.
  - intros x. destruct (decide (x = p)) as [->|Hne].
    + by rewrite Hp', Hp.
    + by rewrite (Hx' x Hne).
  - intros Hat Honce. apply Hsame.
    specialize (Honce i Hlook).
    destruct (indexOf_spec (children el) c) as [[_ Hnin]|(Hk & _)]; [done|].
    unfold i in Honce. lia.
Qed.

Lemma C7_position_errors_witness :
  exists s',
    SParentElement.add 2 1 1%positive 3%positive (Some 5) example_store =
      (Throw IndexOutOfBounds, s').
Proof.
  destruct (C7_position_errors 2 1 1%positive 3%positive example_store
              (mkElement "root" "R" [2%positive] None (RootClass 10%positive)))
    as (Hadd & _).
  - vm_compute. reflexivity.
  - apply Hadd. right. cbn. lia.
Defined.

Lemma C8_move_frame_witness :
  SParentElement.move 1%positive 2%positive 2 example_family =
    (Normal tt,
     with_children 1%positive [3%positive; 4%positive; 2%positive]
       example_family) /\
  [3%positive; 4%positive; 2%positive] ≡ₚ
    [2%positive; 3%positive; 4%positive].
Proof.
  destruct (C8_move_frame 1%positive 2%positive 2 example_family
              (mkElement "root" "R" [2%positive; 3%positive; 4%positive] None
                 (RootClass 10%positive)))
    as (cs' & Hmove & Hperm & _ & Hcs & _).
  - vm_compute. reflexivity.
  - cbn. apply list_elem_of_here.
  - cbn. lia.
  - assert (cs' = [3%positive; 4%positive; 2%positive]) as ->.
    { assert (SParentElement.move 1%positive 2%positive 2 example_family =
                (Normal tt,
                 with_children 1%positive [3%positive; 4%positive; 2%positive]
                   example_family)) as Hrun by (vm_compute; reflexivity).
      rewrite Hrun in Hmove.
      pose proof (f_equal (fun r => children <$> elements r.2 !! 1%positive)
                    Hmove) as Heq.
      assert (Some cs' = Some [3%positive; 4%positive; 2%positive]) as Hsome
        by (rewrite <- Hcs; symmetry; exact Heq).
      by injection Hsome as ->. }
    split; [exact Hmove|exact Hperm].
Defined.

End TreeClaims.

(** * The small model, once more *)

Section ExampleFacts.

Lemma example_random_in_range : random_in_range example_store.
Proof.
  intros k. change (k mod 36 < 36)%nat. apply Nat.mod_upper_bound. lia.
Qed.

Lemma example_index_sound : index_sound example_store.
Proof.
  intros ix m i x Hm Hi. unfold example_store in Hm. cbn [indices] in Hm.
  apply lookup_singleton_Some in Hm as [<- <-].
  apply lookup_insert_Some in Hi as [[<- <-]|[_ Hi]].
  - split; [discriminate|]. vm_compute. reflexivity.
  - apply lookup_singleton_Some in Hi as [<- <-].
    split; [discriminate|]. vm_compute. reflexivity.
Qed.

End ExampleFacts.

(** * More on the viewer cache *)

Section ViewerCacheMore.

Import ViewerCache.

(** A flush that returns has emptied the three slots and handed the
    delegate what they held. *)
Lemma flush_normal_inv d w w' :
  flush d w = (Normal tt, w') ->
  w' = mkState None None None (pending w)
         (calls w ++ delivery Hidden w ++ delivery Primary w ++ delivery Popup w).
Proof.
  destruct w as [p h q n cs].
  unfold flush, bind, read, call, clear, ret, delivery; cbn.
  destruct h as [h|]; cbn;
    [destruct (updateHidden_returns d h); cbn|];
    (destruct p as [p|]; cbn;
     [destruct (update_returns d p); cbn|]);
    (destruct q as [q|]; cbn;
     [destruct (updatePopup_returns d q); cbn|]);
    intros [= <-]; rewrite <- ?app_assoc; cbn; rewrite ?app_nil_r; reflexivity.
Qed.

Lemma updates_snoc l c model w :
  updates (l ++ [(c, model)]) w = update_on c model (updates l w).
Proof. unfold updates. by rewrite foldl_app. Qed.

Lemma latest_snoc c l c' model :
  latest c (l ++ [(c', model)]) =
  if decide (c' = c) then Some model else latest c l.
Proof. unfold latest. by rewrite foldl_app. Qed.

Lemma update_on_slot c c' model w :
  slot c (update_on c' model w) =
  if decide (c' = c) then Some model else slot c w.
Proof.
  destruct c, c'; cbn; unfold updateHidden, update, updatePopup;
    destruct (isCacheEmpty w); reflexivity.
Qed.

Lemma update_on_calls c model w : calls (update_on c model w) = calls w.
Proof.
  destruct c; cbn; unfold updateHidden, update, updatePopup;
    destruct (isCacheEmpty w); reflexivity.
Qed.

(** After a sequence of update calls a slot holds the model of the last
    call for its channel, and the delegate has not been called. *)
Lemma updates_slot c l w :
  slot c (updates l w) =
  match latest c l with
  | Some model => Some model
  | None => slot c w
  end.
Proof.
  induction l as [|[c' model] l IH] using rev_ind; [done|].
  rewrite updates_snoc, latest_snoc, update_on_slot.
  by destruct (decide (c' = c)).
Qed.

Lemma updates_calls l w : calls (updates l w) = calls w.
Proof.
  induction l as [|[c' model] l IH] using rev_ind; [done|].
  by rewrite updates_snoc, update_on_calls.
Qed.

Lemma updates_pending l w :
  isCacheEmpty w = true -> l <> [] ->
  pending (updates l w) = S (pending w).
Proof.
  intros He Hl. destruct l as [|[c model] l]; [done|].
  change (updates ((c, model) :: l) w) with (updates l (update_on c model w)).
  destruct (updates_filled l _ (update_on_fills c model w)) as [-> _].
  by rewrite update_on_pending, He.
Qed.

(** With a delegate that never throws no snapshot waits without a
    callback: in every state the cache reaches, a callback is pending
    exactly when some slot is filled. *)
Theorem pending_iff_slot_filled d w :
  never_throws d ->
  rtc (step d) initial w ->
  (isCacheEmpty w = true <-> pending w = 0%nat) /\
  (isCacheEmpty w = false <-> pending w = 1%nat).
Proof.
  intros Hd H.
  assert (isCacheEmpty w = true <-> pending w = 0%nat) as Hiff.
  { pattern w. eapply rtc_ind_r; [| |exact H]; clear w H.
    { done. }
    intros w1 w2 Hreach Hs IH.
    destruct (reachable_pending d w1 Hreach) as [Hle _].
    destruct Hs as [c model w1|w1 r w2 Hf].
    - rewrite update_on_pending, update_on_fills.
      destruct (isCacheEmpty w1) eqn:He; [done|].
      split; [done|]. intros H0. apply IH in H0. done.
    - unfold endOfFrame in Hf. destruct (pending w1) as [|n] eqn:Hn.
      + injection Hf as <- <-. by rewrite Hn.
      + assert (n = 0%nat) as -> by lia.
        rewrite flush_returns in Hf by (intros; apply Hd).
        by injection Hf as <- <-. }
  split; [exact Hiff|].
  destruct (reachable_pending d w H) as [Hle _].
  destruct (isCacheEmpty w).
  - split; [done|]. intros H1. destruct Hiff as [Hiff _].
    rewrite Hiff in H1; done.
  - split; [intros _|done].
    destruct (pending w) as [|[|n]] eqn:Hp; [|done|lia].
    destruct Hiff as [_ Hiff]. by specialize (Hiff eq_refl).
Qed.

Lemma pending_iff_slot_filled_witness :
  (isCacheEmpty (update 1%positive initial) = true <->
   pending (update 1%positive initial) = 0%nat) /\
  (isCacheEmpty (update 1%positive initial) = false <->
   pending (update 1%positive initial) = 1%nat).
Proof.
  apply (pending_iff_slot_filled reliable).
  - intros [] ?; reflexivity.
  - apply rtc_once. apply (step_update reliable Primary).
Defined.

(** When the pending callback runs and returns, the three slots are
    empty and no callback is left, the delegate has received what the
    slots held, and the next update call of any channel fills its slot
    and arms exactly one callback again. *)
Theorem frame_restores_idle d w w' :
  pending w = 1%nat ->
  endOfFrame d w = (Normal tt, w') ->
  isCacheEmpty w' = true /\
  pending w' = 0%nat /\
  calls w' =
    calls w ++ delivery Hidden w ++ delivery Primary w ++ delivery Popup w /\
  (forall c model,
     pending (update_on c model w') = 1%nat /\
     slot c (update_on c model w') = Some model /\
     calls (update_on c model w') = calls w').
Proof.
  intros Hp Hf. unfold endOfFrame in Hf. rewrite Hp in Hf.
  apply flush_normal_inv in Hf. subst w'. cbn.
  split_and!; try done.
  intros c model. rewrite update_on_pending, update_on_slot, update_on_calls.
  cbn. by rewrite decide_True.
Qed.

Lemma frame_restores_idle_witness :
  isCacheEmpty (mkState None None None 0 [(Primary, 1%positive)]) = true /\
  pending (mkState None None None 0 [(Primary, 1%positive)]) = 0%nat.
Proof.
  destruct (frame_restores_idle reliable (update 1%positive initial)
              (mkState None None None 0 [(Primary, 1%positive)]))
    as (He & Hp & _).
  - reflexivity.
  - reflexivity.
  - split; [exact He|exact Hp].
Defined.

(** Last write wins on every channel: after any number of update calls
    on an idle cache, one callback is pending, and when it runs with a
    delegate that returns from the calls it gets, the delegate receives
    for each channel the model of the last call for that channel and
    no other, hidden before primary before popup. *)
Theorem frame_hands_latest d l w :
  isCacheEmpty w = true ->
  pending w = 0%nat ->
  l <> [] ->
  (forall c model, latest c l = Some model -> returns d c model = true) ->
  pending (updates l w) = 1%nat /\
  endOfFrame d (updates l w) =
    (Normal tt,
     mkState None None None 0
       (calls w ++ handed Hidden l ++ handed Primary l ++ handed Popup l)).
Proof.
  intros He Hp Hl Hd.
  pose proof (updates_pending l w He Hl) as Hpl. rewrite Hp in Hpl.
  split; [exact Hpl|].
  assert (forall c, slot c (updates l w) = latest c l) as Hslot.
  { intros c. rewrite updates_slot. destruct (latest c l); [done|].
    destruct w as [[?|] [?|] [?|] ? ?]; try discriminate. by destruct c. }
  unfold endOfFrame. rewrite Hpl.
  rewrite flush_returns.
  - pose proof (Hslot Hidden) as Hh. pose proof (Hslot Primary) as Hy.
    pose proof (Hslot Popup) as Hq. cbn [slot] in Hh, Hy, Hq.
    unfold delivery, handed. cbn. rewrite Hh, Hy, Hq, updates_calls.
    reflexivity.
  - intros c model Hc. apply Hd. rewrite <- Hslot. by destruct c.
Qed.

Lemma frame_hands_latest_witness :
  pending
    (updates [(Primary, 1%positive); (Popup, 2%positive); (Primary, 3%positive)]
       initial) = 1%nat /\
  endOfFrame reliable
    (updates [(Primary, 1%positive); (Popup, 2%positive); (Primary, 3%positive)]
       initial) =
    (Normal tt,
     mkState None None None 0 [(Primary, 3%positive); (Popup, 2%positive)]).
Proof.
  apply (frame_hands_latest reliable
           [(Primary, 1%positive); (Popup, 2%positive); (Primary, 3%positive)]
           initial).
  - reflexivity.
  - reflexivity.
  - discriminate.
  - intros [] model _; reflexivity.
Defined.

End ViewerCacheMore.

(** * More on the index *)

Section IndexRemoveFacts.

Import SModelIndex.

Global Instance remove_frame_preorder ix : PreOrder (remove_frame ix).
Proof.
  split.
  - intros s. split_and!; try done. intros m Hm. by exists m.
  - intros s1 s2 s3 (E1 & R1 & D1 & J1 & M1 & N1) (E2 & R2 & D2 & J2 & M2 & N2).
    split_and!; try congruence.
    + intros j Hj. rewrite J2, J1; done.
    + intros m Hm. destruct (M1 m Hm) as (m' & Hm' & Hsub).
      destruct (M2 m' Hm') as (m'' & Hm'' & Hsub').
      exists m''. split; [done|]. by transitivity m'.
    + intros Hn. by apply N2, N1.
Qed.

Lemma unregister_spec ix e s el m :
  elements s !! e = Some el -> indices s !! ix = Some m ->
  unregister ix e s = (Normal tt, with_index ix (delete (id el) m) s).
Proof.
  intros He Hm. unfold unregister, bind, read_element, read_index, write_index.
  by rewrite He, Hm.
Qed.

Lemma preserves_unregister ix e : preserves (remove_frame ix) (unregister ix e).
Proof.
  intros s r s' H. unfold unregister, bind, read_element, read_index,
    write_index in H.
  destruct (elements s !! e) as [el|]; [|injection H as _ <-; reflexivity].
  destruct (indices s !! ix) as [m|] eqn:Hm;
    [|injection H as _ <-; reflexivity].
  injection H as _ <-. cbn. split_and!; try done; cbn.
  - intros j Hj. by rewrite lookup_insert_ne.
  - intros m0 Hm0. assert (m0 = m) as -> by congruence.
    exists (delete (id el) m).
    split; [apply lookup_insert_eq|apply delete_subseteq].
  - congruence.
Qed.

Lemma preserves_read_element R `{!PreOrder R} e : preserves R (read_element e).
Proof.
  intros s r s' H. unfold read_element in H.
  destruct (elements s !! e); injection H as _ <-; reflexivity.
Qed.

(** [index.remove], however it ends, changes no element and adds no
    entry. *)
Lemma preserves_remove depth ix e :
  preserves (remove_frame ix) (remove depth ix e).
Proof.
  revert e. induction depth as [|d IH]; intros e; cbn [remove].
  - apply preserves_diverge, _.
  - apply preserves_bind; [apply _|apply preserves_unregister|].
    intros _. apply preserves_bind; [apply _|apply preserves_read_element, _|].
    intros el. apply preserves_for_of; [apply _|]. intros x. apply IH.
Qed.

Lemma throws_only_unregister (P : Error -> Prop) ix e :
  P TypeError -> throws_only P (unregister ix e).
Proof.
  intros HP. apply throws_only_bind; [by apply throws_only_read_element|].
  intros el. apply throws_only_bind; [by apply throws_only_read_index|].
  intros m s err s'. discriminate.
Qed.

Lemma throws_only_index_remove (P : Error -> Prop) depth ix e :
  P TypeError -> throws_only P (remove depth ix e).
Proof.
  intros HP. revert e. induction depth as [|d IH]; intros e; cbn [remove].
  - intros s err s'. discriminate.
  - apply throws_only_bind; [by apply throws_only_unregister|].
    intros _. apply throws_only_bind; [by apply throws_only_read_element|].
    intros el. apply throws_only_for_of. intros x. apply IH.
Qed.

(** The elements [preorder] lists are objects of the store. *)
Lemma collect_Forall {A} (P : A -> Prop) (f : A -> option (list A)) l r :
  (forall x a, f x = Some a -> Forall P a) ->
  collect f l = Some r -> Forall P r.
Proof.
  intros Hf. revert r. induction l as [|x l IH]; intros r; cbn.
  - intros [= <-]. constructor.
  - destruct (f x) as [a|] eqn:Hx; [|done].
    destruct (collect f l) as [b|]; [|done]. intros [= <-].
    apply Forall_app. split; [by eapply Hf|by apply IH].
Qed.

Lemma preorder_objects depth (h : gmap loc SModelElement) e l :
  preorder depth h e = Some l -> Forall (fun x => is_Some (h !! x)) l.
Proof.
  revert e l. induction depth as [|d IH]; intros e l; cbn; [done|].
  destruct (h !! e) as [el|] eqn:He; [|done].
  destruct (collect (preorder d h) (children el)) as [below|] eqn:Hb; [|done].
  intros [= <-]. constructor; [by eexists|].
  eapply collect_Forall; [|exact Hb]. intros x a. apply IH.
Qed.

(** [index.remove] unregisters the elements of the subtree one after
    the other, in preorder. *)
Lemma remove_preorder depth ix e s l :
  preorder depth (elements s) e = Some l ->
  remove depth ix e s = for_of l (unregister ix) s.
Proof.
  revert e s l. induction depth as [|d IH]; intros e s l; [done|].
  cbn [preorder remove].
  destruct (elements s !! e) as [el|] eqn:He; [|done].
  destruct (collect (preorder d (elements s)) (children el)) as [below|] eqn:Hb;
    [|done].
  intros [= <-]. cbn [for_of]. unfold bind at 1 3.
  destruct (unregister ix e s) as [[[]|err|] s1] eqn:Hr; [|done..].
  pose proof (preserves_unregister _ _ _ _ _ Hr) as Hfr.
  assert (elements s1 = elements s) as Hel by apply Hfr.
  rewrite (bind_normal _ _ s1 el s1)
    by (unfold read_element; by rewrite Hel, He).
  rewrite <- Hel in Hb. clear He Hr Hfr Hel.
  revert s1 below Hb.
  induction (children el) as [|c cs IHcs]; intros s1 below Hb.
  - injection Hb as <-. done.
  - cbn [collect] in Hb.
    destruct (preorder d (elements s1) c) as [a|] eqn:Ha; [|done].
    destruct (collect (preorder d (elements s1)) cs) as [b|] eqn:Hcs; [|done].
    injection Hb as <-. rewrite for_of_app. cbn [for_of].
    unfold bind. rewrite (IH c s1 a Ha).
    destruct (for_of a (unregister ix) s1) as [[[]|err|] s2] eqn:Hrun;
      [|done..].
    apply IHcs.
    assert (remove_frame ix s1 s2) as (Hel & _).
    { eapply (preserves_for_of (remove_frame ix)); [|exact Hrun].
      intros x. apply preserves_unregister. }
    by rewrite Hel.
Qed.

Lemma for_of_unregister ix l s m :
  Forall (fun x => is_Some (elements s !! x)) l ->
  indices s !! ix = Some m ->
  for_of l (unregister ix) s =
  (Normal tt, with_index ix (delete_all (elements s) l m) s).
Proof.
  revert s m. induction l as [|x l IH]; intros s m Hall Hm.
  - cbn. by rewrite with_index_id.
  - apply Forall_cons in Hall as [[el Hx] Hall].
    cbn [for_of]. unfold bind.
    rewrite (unregister_spec ix x s el m Hx Hm).
    rewrite IH with (m := delete (id el) m).
    + rewrite with_index_twice. cbn. unfold id_of at 2. by rewrite Hx.
    + done.
    + cbn. apply lookup_insert_eq.
Qed.

Lemma delete_all_lookup (h : gmap loc SModelElement) l (m : gmap string loc) k :
  delete_all h l m !! k =
  if decide (k ∈ id_of h <$> l) then None else m !! k.
Proof.
  revert m. induction l as [|x l IH]; intros m.
  - cbn. rewrite decide_False; [done|]. apply not_elem_of_nil.
  - change (delete_all h (x :: l) m) with (delete_all h l (delete (id_of h x) m)).
    rewrite IH. cbn [fmap list_fmap].
    destruct (decide (k ∈ id_of h <$> l)) as [Hin|Hnin].
    + rewrite decide_True; [done|]. by apply list_elem_of_further.
    + destruct (decide (k = id_of h x)) as [->|Hne].
      * rewrite decide_True by apply list_elem_of_here.
        apply lookup_delete_eq.
      * rewrite decide_False.
        -- by apply lookup_delete_ne.
        -- rewrite elem_of_cons. by intros [?|?].
Qed.

(** Deleting the ids of a run of fresh registrations gives the map back. *)
Lemma delete_all_set_all (h : gmap loc SModelElement) l (m : gmap string loc) :
  fresh_ids h m l -> delete_all h l (set_all h l m) = m.
Proof.
  intros Hfresh. destruct (set_all_fresh h l m Hfresh) as (_ & Hsub & _ & Hdom).
  apply map_eq. intros k. rewrite delete_all_lookup.
  destruct (decide (k ∈ id_of h <$> l)) as [Hin|Hnin].
  - apply list_elem_of_fmap in Hin as (x & -> & Hx).
    destruct Hfresh as [Hall _]. rewrite Forall_forall in Hall.
    symmetry. by apply Hall.
  - destruct (m !! k) as [v|] eqn:Hk.
    + eapply lookup_weaken; [exact Hk|exact Hsub].
    + apply eq_None_not_Some. rewrite Hdom. intros [[? ?]|?]; [congruence|done].
Qed.

End IndexRemoveFacts.

Section IndexSoundFacts.

Import SModelIndex.

Global Instance keeps_healthy_preorder : PreOrder keeps_healthy.
Proof.
  split.
  - intros s H. exact H.
  - intros s1 s2 s3 H1 H2 H. apply H2, H1, H.
Qed.

(** Changes that touch neither an id nor an index keep a store healthy. *)
Lemma keeps_healthy_ids s s' :
  (forall x, id_of (elements s') x = id_of (elements s) x) ->
  indices s' = indices s -> random s' = random s ->
  keeps_healthy s s'.
Proof.
  intros Hid Hind Hrand [Hr Hs]. split.
  - intros k. rewrite Hrand. apply Hr.
  - intros ix m i x Hm Hi. rewrite Hind in Hm. rewrite Hid. by eapply Hs.
Qed.

Lemma keeps_healthy_only_id e s s' :
  id_of (elements s) e = EmptyString -> only_id_of e s s' -> keeps_healthy s s'.
Proof.
  intros He ((_ & _ & Hrand) & Hids & Hind) [Hr Hs]. split.
  - intros k. rewrite Hrand. apply Hr.
  - intros ix m i x Hm Hi. rewrite Hind in Hm.
    destruct (Hs ix m i x Hm Hi) as [Hne Hx]. split; [done|].
    rewrite Hids; [done|]. intros ->. congruence.
Qed.

Lemma keeps_healthy_remove_frame ix s s' :
  remove_frame ix s s' -> keeps_healthy s s'.
Proof.
  intros (Hel & Hrand & _ & Hother & Hmap & Hnone) [Hr Hs]. split.
  - intros k. rewrite Hrand. apply Hr.
  - intros j m' i x Hm' Hi. rewrite Hel.
    destruct (decide (j = ix)) as [->|Hne].
    + destruct (indices s !! ix) as [m|] eqn:Hm.
      * destruct (Hmap m eq_refl) as (m'' & Hm'' & Hsub).
        rewrite Hm' in Hm''. injection Hm'' as <-.
        apply (Hs ix m i x Hm). by eapply lookup_weaken.
      * rewrite (Hnone eq_refl) in Hm'. done.
    + rewrite (Hother j Hne) in Hm'. by eapply Hs.
Qed.

(** A new entry for an element under the id it carries. *)
Lemma index_sound_insert s s' ix m i e :
  index_sound s ->
  indices s !! ix = Some m ->
  indices s' = <[ix := <[i := e]> m]> (indices s) ->
  i <> EmptyString ->
  id_of (elements s') e = i ->
  (forall x, id_of (elements s) x <> EmptyString ->
     id_of (elements s') x = id_of (elements s) x) ->
  index_sound s'.
Proof.
  intros Hs Hm Hind Hi He Hids j m' k x Hm' Hk. rewrite Hind in Hm'.
  assert (forall m0, indices s !! j = Some m0 -> m0 !! k = Some x ->
            k <> EmptyString /\ id_of (elements s') x = k) as Hold.
  { intros m0 Hm0 Hk0. destruct (Hs j m0 k x Hm0 Hk0) as [Hne Hx].
    split; [done|]. rewrite Hids; congruence. }
  destruct (decide (j = ix)) as [->|Hne].
  - rewrite lookup_insert_eq in Hm'. injection Hm' as <-.
    destruct (decide (k = i)) as [->|Hki].
    + rewrite lookup_insert_eq in Hk. injection Hk as <-. done.
    + rewrite lookup_insert_ne in Hk by done. by eapply Hold.
  - rewrite lookup_insert_ne in Hm' by done. by eapply Hold.
Qed.

(** [register] on an element without id, when it does not return. *)
Lemma register_without_id_fails tries ix e s s' el r :
  elements s !! e = Some el -> id el = EmptyString ->
  register tries ix e s = (r, s') -> r <> Normal tt ->
  only_id_of e s s'.
Proof.
  intros He Hid H Hr. revert H. unfold register.
  rewrite (bind_normal _ _ s el s) by (unfold read_element; by rewrite He).
  rewrite Hid. cbn [String.eqb]. unfold bind at 1.
  destruct (assign_random_id tries ix e s) as [[[]|err'|] s1] eqn:Ha.
  - pose proof (preserves_assign_random_id _ _ _ _ _ _ Ha) as Hfr.
    unfold bind, read_element, read_index, write_index.
    destruct (elements s1 !! e); [|by intros [= _ <-]].
    destruct (indices s1 !! ix); [|by intros [= _ <-]].
    intros [= <- _]. done.
  - intros [= _ <-]. by eapply preserves_assign_random_id.
  - intros [= _ <-]. by eapply preserves_assign_random_id.
Qed.

Lemma preserves_healthy_register tries ix e :
  preserves keeps_healthy (register tries ix e).
Proof.
  intros s r s' H.
  destruct (elements s !! e) as [el|] eqn:He; cycle 1.
  { unfold register, bind, read_element in H. rewrite He in H.
    injection H as _ <-. reflexivity. }
  destruct (decide (id el = EmptyString)) as [Hid|Hid].
  - assert (r = Normal tt \/ r <> Normal tt) as [->|Hr]
      by (destruct r as [[]|?|]; [by left|by right..]).
    + intros [Hrange Hs].
      destruct (register_random _ _ _ _ _ _ He Hid H)
        as (i & m & Hm & Hfresh & Hi & Hel & Hind & Hrand).
      destruct (Hi Hrange) as [Hlen _].
      split; [intros k; rewrite Hrand; apply Hrange|].
      apply (index_sound_insert s s' ix m i e); try done.
      * intros ->. discriminate Hlen.
      * by rewrite Hel, id_of_set_id_eq.
      * intros x Hx. rewrite Hel. apply id_of_set_id_ne.
        intros ->. apply Hx. unfold id_of. by rewrite He.
    + apply (keeps_healthy_only_id e); [unfold id_of; by rewrite He|].
      by eapply register_without_id_fails.
  - destruct (indices s !! ix) as [m|] eqn:Hm; cycle 1.
    { revert H. unfold register.
      rewrite (bind_normal _ _ s el s) by (unfold read_element; by rewrite He).
      apply String.eqb_neq in Hid. rewrite Hid.
      unfold bind at 1. unfold bind at 1.
      rewrite (contains_no_index ix e s el He Hm).
      intros [= _ <-]. reflexivity. }
    destruct (m !! id el) as [x|] eqn:Hx.
    + rewrite (register_duplicate tries ix e s el m) in H by eauto.
      injection H as _ <-. reflexivity.
    + rewrite (register_fresh tries ix e s el m) in H by eauto.
      injection H as _ <-. intros [Hrange Hs]. split; [done|].
      apply (index_sound_insert s _ ix m (id el) e); try done.
      unfold id_of. cbn. by rewrite He.
Qed.

Lemma preserves_healthy_index_add depth tries ix e :
  preserves keeps_healthy (add depth tries ix e).
Proof.
  revert e. induction depth as [|d IH]; intros e; cbn [add].
  - apply preserves_diverge, _.
  - apply preserves_bind; [apply _|apply preserves_healthy_register|].
    intros _. apply preserves_bind; [apply _|apply preserves_read_element, _|].
    intros el. apply preserves_for_of; [apply _|]. intros x. apply IH.
Qed.

Lemma preserves_healthy_index_remove depth ix e :
  preserves keeps_healthy (remove depth ix e).
Proof.
  intros s r s' H. apply (keeps_healthy_remove_frame ix).
  by eapply preserves_remove.
Qed.

End IndexSoundFacts.

(** * More on the tree operations *)

Section RootFacts.

(** The walk to the root reads nothing but the class and the parent of
    the objects it visits. *)
Lemma root_from_visited fuel current s s' r :
  (forall x, x ∈ ancestors fuel (elements s) current ->
     links (elements s') x = links (elements s) x) ->
  SModelElement.root_from fuel current s = (r, s) ->
  SModelElement.root_from fuel current s' = (r, s').
Proof.
  revert current. induction fuel as [|f IH]; intros [c|] Hl; cbn;
    try (by intros [= <-]).
  cbn in Hl. pose proof (Hl c (list_elem_of_here _ _)) as Hc.
  unfold links in Hc. unfold bind, read_element.
  destruct (elements s !! c) as [el|] eqn:He,
           (elements s' !! c) as [el'|] eqn:He'; cbn in Hc; try done;
    [|by intros [= <-]].
  injection Hc as Hcls Hpar. rewrite Hcls, Hpar.
  destruct (cls el) eqn:Hk.
  - destruct f; cbn; by intros [= <-].
  - intros H. apply IH; [|exact H].
    intros x Hx. apply Hl. by apply list_elem_of_further.
  - by intros [= <-].
Qed.

Lemma root_in_ancestors fuel current s r s' :
  SModelElement.root_from fuel current s = (Normal r, s') ->
  r ∈ ancestors fuel (elements s) current /\
  exists el ix, elements s !! r = Some el /\ cls el = RootClass ix.
Proof.
  revert current. induction fuel as [|f IH]; intros [c|]; cbn; try done.
  unfold bind, read_element.
  destruct (elements s !! c) as [el|] eqn:He; [|done].
  destruct (cls el) eqn:Hk.
  - destruct f; cbn; discriminate.
  - intros H. destruct (IH _ H) as [Hin Hroot].
    split; [by apply list_elem_of_further|exact Hroot].
  - intros [= <- <-]. split; [apply list_elem_of_here|]. by eexists _, _.
Qed.

(** A detached child is on no walk that reaches a root. *)
Lemma detached_not_ancestor fuel current s r s' c elc :
  elements s !! c = Some elc -> cls elc = ChildClass -> parent elc = None ->
  SModelElement.root_from fuel current s = (Normal r, s') ->
  c ∉ ancestors fuel (elements s) current.
Proof.
  intros Hc Hk Hp. revert current.
  induction fuel as [|f IH]; intros [x|]; cbn; try done.
  unfold bind, read_element.
  destruct (elements s !! x) as [el|] eqn:He; [|done].
  destruct (cls el) eqn:Hkx.
  - destruct f; cbn; discriminate.
  - intros H. rewrite not_elem_of_cons. split; [|by apply IH].
    intros ->. rewrite Hc in He. injection He as <-.
    rewrite Hp in H. destruct f; cbn in H; discriminate.
  - intros _. rewrite not_elem_of_cons. split; [|apply not_elem_of_nil].
    intros ->. congruence.
Qed.

(** The [index] getter reads no more than the walk does. *)
Lemma index_getter_visited fuel e s s' r :
  (forall x, x ∈ ancestors fuel (elements s) (Some e) ->
     links (elements s') x = links (elements s) x) ->
  SModelElement.index fuel e s = (r, s) ->
  SModelElement.index fuel e s' = (r, s').
Proof.
  intros Hl. unfold SModelElement.index, SModelElement.root, bind.
  destruct (SModelElement.root_from fuel (Some e) s) as [[x|err|] s1] eqn:Hr;
    pose proof (root_from_same _ _ _ _ _ Hr) as ->;
    rewrite (root_from_visited _ _ _ _ _ Hl Hr); try (by intros [= <-]).
  destruct (root_in_ancestors _ _ _ _ _ Hr) as [Hin _].
  specialize (Hl x Hin). unfold links in Hl. unfold read_element.
  destruct (elements s !! x) as [el|], (elements s' !! x) as [el'|];
    cbn in Hl; try done; [|by intros [= <-]].
  injection Hl as -> _. destruct (cls el); by intros [= <-].
Qed.

Lemma root_from_None fuel s :
  SModelElement.root_from fuel None s = (Throw DetachedElement, s).
Proof. by destruct fuel. Qed.

(** More fuel does not change what the walk finds. *)
Lemma root_from_more_fuel fuel k current s r s' :
  SModelElement.root_from fuel current s = (r, s') ->
  r <> Diverge ->
  SModelElement.root_from (fuel + k) current s = (r, s').
Proof.
  revert current. induction fuel as [|f IH]; intros [c|];
    rewrite ?root_from_None; cbn.
  - by intros [= <- <-].
  - done.
  - unfold bind, read_element. destruct (elements s !! c) as [el|]; [|done].
    destruct (cls el); [|apply IH|done]. by rewrite !root_from_None.
  - done.
Qed.

End RootFacts.

Section AttachFacts.

Lemma with_children_elements p cs s x :
  elements (with_children p cs s) !! x =
  if decide (x = p)
  then (fun el => mkElement (type el) (id el) cs (parent el) (cls el))
         <$> elements s !! p
  else elements s !! x.
Proof.
  unfold with_children. destruct (elements s !! p) as [el|] eqn:Hp; cbn.
  - destruct (decide (x = p)) as [->|Hne];
      [apply lookup_insert_eq|by apply lookup_insert_ne].
  - destruct (decide (x = p)) as [->|Hne]; done.
Qed.

Lemma with_parent_elements c q s x :
  elements (with_parent c q s) !! x =
  if decide (x = c)
  then (fun el => mkElement (type el) (id el) (children el) q (cls el))
         <$> elements s !! c
  else elements s !! x.
Proof.
  unfold with_parent. destruct (elements s !! c) as [el|] eqn:Hc; cbn.
  - destruct (decide (x = c)) as [->|Hne];
      [apply lookup_insert_eq|by apply lookup_insert_ne].
  - destruct (decide (x = c)) as [->|Hne]; done.
Qed.

Lemma with_children_rest p cs s :
  indices (with_children p cs s) = indices s /\
  random (with_children p cs s) = random s /\
  drawn (with_children p cs s) = drawn s.
Proof. unfold with_children. by destruct (elements s !! p). Qed.

Lemma with_parent_rest c q s :
  indices (with_parent c q s) = indices s /\
  random (with_parent c q s) = random s /\
  drawn (with_parent c q s) = drawn s.
Proof. unfold with_parent. by destruct (elements s !! c). Qed.

Lemma with_children_id_of p cs s x :
  id_of (elements (with_children p cs s)) x = id_of (elements s) x.
Proof.
  unfold id_of. rewrite with_children_elements.
  destruct (decide (x = p)) as [->|]; [|done]. by destruct (elements s !! p).
Qed.

Lemma with_parent_id_of c q s x :
  id_of (elements (with_parent c q s)) x = id_of (elements s) x.
Proof.
  unfold id_of. rewrite with_parent_elements.
  destruct (decide (x = c)) as [->|]; [|done]. by destruct (elements s !! c).
Qed.

Lemma with_children_links p cs s x :
  links (elements (with_children p cs s)) x = links (elements s) x.
Proof.
  unfold links. rewrite with_children_elements.
  destruct (decide (x = p)) as [->|]; [|done]. by destruct (elements s !! p).
Qed.

Lemma with_parent_links c q s x :
  x <> c -> links (elements (with_parent c q s)) x = links (elements s) x.
Proof.
  intros Hne. unfold links. rewrite with_parent_elements.
  by rewrite decide_False.
Qed.

Lemma with_parent_children c q s x :
  children <$> elements (with_parent c q s) !! x =
  children <$> elements s !! x.
Proof.
  rewrite with_parent_elements.
  destruct (decide (x = c)) as [->|]; [|done]. by destruct (elements s !! c).
Qed.

Lemma with_children_children p cs s x :
  x <> p ->
  children <$> elements (with_children p cs s) !! x =
  children <$> elements s !! x.
Proof.
  intros Hne. rewrite with_children_elements. by rewrite decide_False.
Qed.

(** [preorder] reads nothing but the children of the elements it
    lists. *)
Lemma preorder_except depth (h h' : gmap loc SModelElement) p e l :
  (forall x, x <> p -> children <$> h' !! x = children <$> h !! x) ->
  preorder depth h e = Some l ->
  p ∉ l ->
  preorder depth h' e = Some l.
Proof.
  intros Hc. revert e l. induction depth as [|d IH]; intros e l; cbn; [done|].
  destruct (h !! e) as [el|] eqn:He; [|done].
  destruct (collect (preorder d h) (children el)) as [below|] eqn:Hb; [|done].
  intros [= <-] Hp. apply not_elem_of_cons in Hp as [Hpe Hp].
  specialize (Hc e (not_eq_sym Hpe)). rewrite He in Hc.
  destruct (h' !! e) as [el'|]; [|done]. injection Hc as ->.
  enough (collect (preorder d h') (children el) = Some below) as -> by done.
  clear He. revert below Hb Hp.
  induction (children el) as [|c cs IHcs]; intros below; cbn; [done|].
  destruct (preorder d h c) as [a|] eqn:Ha; [|done].
  destruct (collect (preorder d h) cs) as [b|] eqn:Hcs; [|done].
  intros [= <-] Hp. apply not_elem_of_app in Hp as [Hpa Hpb].
  by rewrite (IH c a Ha Hpa), (IHcs b eq_refl Hpb).
Qed.

Lemma fresh_ids_ext (h h' : gmap loc SModelElement) m l :
  (forall x, id_of h' x = id_of h x) -> fresh_ids h m l -> fresh_ids h' m l.
Proof.
  intros Hid [Hall Hnd]. split.
  - eapply Forall_impl; [exact Hall|]. intros x. by rewrite Hid.
  - replace (id_of h' <$> l) with (id_of h <$> l); [done|].
    apply list_fmap_ext. intros i x _. by rewrite Hid.
Qed.

Lemma set_all_ext (h h' : gmap loc SModelElement) l m :
  (forall x, id_of h' x = id_of h x) -> set_all h' l m = set_all h l m.
Proof.
  intros Hid. unfold set_all. revert m.
  induction l as [|x l IH]; intros m; [done|]. cbn. rewrite Hid. apply IH.
Qed.

Lemma delete_all_ext (h h' : gmap loc SModelElement) l m :
  (forall x, id_of h' x = id_of h x) -> delete_all h' l m = delete_all h l m.
Proof.
  intros Hid. unfold delete_all. revert m.
  induction l as [|x l IH]; intros m; [done|]. cbn. rewrite Hid. apply IH.
Qed.

End AttachFacts.

Section TreeMore.

Lemma index_getter_root fuel e s ix s' :
  SModelElement.index fuel e s = (Normal ix, s') ->
  exists r el,
    SModelElement.root_from fuel (Some e) s = (Normal r, s) /\
    elements s !! r = Some el /\ cls el = RootClass ix.
Proof.
  unfold SModelElement.index, SModelElement.root, bind.
  destruct (SModelElement.root_from fuel (Some e) s) as [[r|err|] s1] eqn:Hr;
    [|done..].
  pose proof (root_from_same _ _ _ _ _ Hr) as ->.
  unfold read_element. destruct (elements s !! r) as [el|] eqn:He; [|done].
  destruct (cls el) eqn:Hk; try done. intros [= <- _]. by exists r, el.
Qed.

Lemma attached_links p c cs s x :
  x <> c -> links (elements (attached p c cs s)) x = links (elements s) x.
Proof.
  intros Hne. unfold attached.
  by rewrite with_parent_links, with_children_links.
Qed.

Lemma attached_children p c cs s x :
  x <> p ->
  children <$> elements (attached p c cs s) !! x = children <$> elements s !! x.
Proof.
  intros Hne. unfold attached.
  by rewrite with_parent_children, with_children_children.
Qed.

Lemma attached_id_of p c cs s x :
  id_of (elements (attached p c cs s)) x = id_of (elements s) x.
Proof. unfold attached. by rewrite with_parent_id_of, with_children_id_of. Qed.

Lemma attached_indices p c cs s : indices (attached p c cs s) = indices s.
Proof.
  unfold attached.
  destruct (with_parent_rest c (Some p) (with_children p cs s)) as (-> & _).
  by destruct (with_children_rest p cs s) as (-> & _).
Qed.

(** [remove] of an element that is not among the children. *)
Lemma remove_not_found fuel p c s el :
  elements s !! p = Some el -> c ∉ children el ->
  SParentElement.remove fuel p c s = (Throw ChildNotFound, s).
Proof.
  intros Hp Hc. unfold SParentElement.remove.
  rewrite (bind_normal _ _ s el s) by (unfold read_element; by rewrite Hp).
  apply indexOf_absent in Hc. by rewrite Hc.
Qed.

(** The children array without the first occurrence of an element it
    holds, as [splice] leaves it. *)
Lemma splice_first_occurrence (cs : list loc) (c : loc) :
  c ∈ cs ->
  exists l1 l2,
    cs = l1 ++ c :: l2 /\ (c ∉ l1) /\
    indexOf cs c = Z.of_nat (length l1) /\
    splice (indexOf cs c) 1 [] cs = l1 ++ l2.
Proof.
  intros Hc.
  destruct (indexOf_spec cs c) as [[_ Hnin]|(Hk & Hlook & Hfirst)]; [done|].
  set (k := Z.to_nat (indexOf cs c)) in *.
  assert (length (take k cs) = k) as Hlen.
  { rewrite length_take. apply Nat.min_l. lia. }
  exists (take k cs), (drop (S k) cs). split_and!.
  - symmetry. by apply take_drop_middle.
  - intros Hin. apply list_elem_of_lookup in Hin as (j & Hj).
    pose proof (lookup_lt_Some _ _ _ Hj) as Hjk. rewrite Hlen in Hjk.
    rewrite lookup_take_lt in Hj by done. by apply (Hfirst j).
  - rewrite Hlen. unfold k. lia.
  - rewrite splice_remove by lia. done.
Qed.

(** [remove] of an element that is among the children, past the check. *)
Lemma remove_found fuel p c s el :
  elements s !! p = Some el -> c ∈ children el ->
  SParentElement.remove fuel p c s =
  SParentElement.detach fuel p c
    (with_children p (splice (indexOf (children el) c) 1 [] (children el)) s).
Proof.
  intros Hp Hc. unfold SParentElement.remove.
  rewrite (bind_normal _ _ s el s) by (unfold read_element; by rewrite Hp).
  destruct (indexOf_spec (children el) c) as [[_ Hnin]|(Hk & _)]; [done|].
  replace (indexOf (children el) c <? 0) with false by lia.
  by rewrite (bind_normal _ _ _ _ _ (set_children_spec p _ s el Hp)).
Qed.

Lemma detach_run fuel p c s elc :
  elements s !! c = Some elc ->
  SParentElement.detach fuel p c s =
  bind (SModelElement.index fuel p)
       (fun ix => SModelIndex.remove fuel ix c)
       (with_parent c None s).
Proof.
  intros Hc. unfold SParentElement.detach.
  by rewrite (bind_normal _ _ _ _ _ (set_parent_spec c None s elc Hc)).
Qed.

Lemma throws_only_detach fuel p c :
  throws_only root_errors (SParentElement.detach fuel p c).
Proof.
  apply throws_only_bind; [apply throws_only_set_parent; by right|].
  intros _. apply throws_only_bind; [apply throws_only_index_getter|].
  intros ix. apply throws_only_index_remove. by right.
Qed.

(** The whole effect of an [add] that finds everything in order: the
    parent has a root, the child is a detached element whose subtree does
    not hold the parent and carries fresh ids, and the position is in
    range. *)
Lemma add_run fuel tries p c i s el elc ix m l :
  elements s !! p = Some el ->
  elements s !! c = Some elc -> cls elc = ChildClass -> parent elc = None ->
  match i with
  | Some i => 0 <= i <= Z.of_nat (length (children el))
  | None => True
  end ->
  SModelElement.index fuel p s = (Normal ix, s) ->
  indices s !! ix = Some m ->
  preorder fuel (elements s) c = Some l ->
  p ∉ l ->
  fresh_ids (elements s) m l ->
  SParentElement.add fuel tries p c i s =
    (Normal tt,
     with_index ix (set_all (elements s) l m)
       (attached p c (inserted i c (children el)) s)) /\
  SModelElement.index fuel p (attached p c (inserted i c (children el)) s) =
    (Normal ix, attached p c (inserted i c (children el)) s).
Proof.
  intros Hp Hc Hk Hpar Hi Hix Hm Hl Hpl Hfresh.
  rewrite (add_in_range fuel tries p c i s el Hp Hi).
  set (cs := inserted i c (children el)) in *.
  assert (is_Some (elements (with_children p cs s) !! c)) as [elc1 Hc1].
  { apply with_children_is_Some. by eexists. }
  rewrite (bind_normal _ _ _ _ _ (set_parent_spec c (Some p) _ elc1 Hc1)).
  fold (attached p c cs s). set (s2 := attached p c cs s) in *.
  assert (SModelElement.index fuel p s2 = (Normal ix, s2)) as Hix2.
  { apply (index_getter_visited fuel p s s2); [|done].
    destruct (index_getter_root _ _ _ _ _ Hix) as (r & elr & Hr & _).
    intros x Hx. apply attached_links. intros ->.
    by apply (detached_not_ancestor _ _ _ _ _ _ _ Hc Hk Hpar Hr) in Hx. }
  split; [|exact Hix2].
  rewrite (bind_normal _ _ _ _ _ Hix2).
  assert (preorder fuel (elements s2) c = Some l) as Hl2.
  { apply (preorder_except fuel (elements s) _ p); try done.
    intros x Hx. by apply attached_children. }
  rewrite (add_preorder fuel tries ix c s2 l Hl2).
  rewrite (for_of_register_fresh tries ix l s2 m).
  - by rewrite (set_all_ext (elements s) (elements s2))
      by apply attached_id_of.
  - unfold s2. by rewrite attached_indices.
  - apply (fresh_ids_ext (elements s)); [|done]. intros x.
    apply attached_id_of.
Qed.



End TreeMore.

Section TreeRemove.

Lemma store_eq (s1 s2 : Store) :
  elements s1 = elements s2 -> indices s1 = indices s2 ->
  random s1 = random s2 -> drawn s1 = drawn s2 -> s1 = s2.
Proof. destruct s1, s2. cbn. by intros -> -> -> ->. Qed.

Lemma detached_links p c cs s x :
  x <> c -> links (elements (detached p c cs s)) x = links (elements s) x.
Proof.
  intros Hne. unfold detached.
  by rewrite with_parent_links, with_children_links.
Qed.

Lemma detached_children p c cs s x :
  x <> p ->
  children <$> elements (detached p c cs s) !! x = children <$> elements s !! x.
Proof.
  intros Hne. unfold detached.
  by rewrite with_parent_children, with_children_children.
Qed.

Lemma detached_id_of p c cs s x :
  id_of (elements (detached p c cs s)) x = id_of (elements s) x.
Proof. unfold detached. by rewrite with_parent_id_of, with_children_id_of. Qed.

Lemma detached_indices p c cs s : indices (detached p c cs s) = indices s.
Proof.
  unfold detached.
  destruct (with_parent_rest c None (with_children p cs s)) as (-> & _).
  by destruct (with_children_rest p cs s) as (-> & _).
Qed.

(** The store with the child detached: what it holds. *)
Lemma detached_lookup p c cs s el :
  elements s !! p = Some el ->
  is_Some (elements s !! c) ->
  children <$> elements (detached p c cs s) !! p = Some cs /\
  parent <$> elements (detached p c cs s) !! c = Some None /\
  (forall x, x <> p -> x <> c ->
     elements (detached p c cs s) !! x = elements s !! x).
Proof.
  intros Hp [elc Hc]. unfold detached. split_and!.
  - rewrite with_parent_children, with_children_elements.
    rewrite decide_True by done. by rewrite Hp.
  - rewrite with_parent_elements, decide_True by done.
    rewrite with_children_elements.
    destruct (decide (c = p)) as [->|Hne]; [by rewrite Hp|by rewrite Hc].
  - intros x Hxp Hxc. rewrite with_parent_elements, decide_False by done.
    by rewrite with_children_elements, decide_False.
Qed.

(** A detachment, however it ends, has cleared the parent of the child
    and changed no other property of any element; it adds no entry to any
    index. *)
Lemma detach_elements fuel p c s elc r s' :
  elements s !! c = Some elc ->
  SParentElement.detach fuel p c s = (r, s') ->
  elements s' = elements (with_parent c None s) /\
  random s' = random s /\
  (forall j m, indices s !! j = Some m ->
     exists m', indices s' !! j = Some m' /\ m' ⊆ m).
Proof.
  intros Hc. rewrite (detach_run fuel p c s elc Hc). intros H.
  destruct (with_parent_rest c None s) as (Hind & Hrand & _).
  destruct (bind_inv _ _ _ _ _ H)
    as [(ix & s1 & Hix & Hrem)|[(e & Hix & _)|[Hix _]]].
  - pose proof (index_getter_same _ _ _ _ _ Hix) as ->.
    pose proof (preserves_remove _ _ _ _ _ _ Hrem)
      as (Hel & Hr & _ & Hother & Hmap & _).
    split_and!; [done|congruence|]. intros j m Hm. rewrite <- Hind in Hm.
    destruct (decide (j = ix)) as [->|Hne]; [by apply Hmap|].
    exists m. by rewrite (Hother j Hne).
  - pose proof (index_getter_same _ _ _ _ _ Hix) as ->.
    split_and!; [done..|]. intros j m Hm. exists m. by rewrite Hind.
  - pose proof (index_getter_same _ _ _ _ _ Hix) as ->.
    split_and!; [done..|]. intros j m Hm. exists m. by rewrite Hind.
Qed.

(** remove(child) throws ChildNotFound exactly when the child is not in
    the children, and then nothing has changed.  When the child is there,
    then however the call ends, the first occurrence of the child is out
    of the children, the child has no parent, no other element has
    changed and no index has gained an entry. *)
Theorem remove_detaches fuel p c s el :
  elements s !! p = Some el ->
  ((exists s', SParentElement.remove fuel p c s = (Throw ChildNotFound, s')) <->
   c ∉ children el) /\
  (forall s', SParentElement.remove fuel p c s = (Throw ChildNotFound, s') ->
     s' = s) /\
  (c ∈ children el -> is_Some (elements s !! c) ->
   forall r s', SParentElement.remove fuel p c s = (r, s') ->
     exists l1 l2,
       children el = l1 ++ c :: l2 /\ (c ∉ l1) /\
       children <$> elements s' !! p = Some (l1 ++ l2) /\
       parent <$> elements s' !! c = Some None /\
       (forall x, x <> p -> x <> c -> elements s' !! x = elements s !! x) /\
       (forall j m, indices s !! j = Some m ->
          exists m', indices s' !! j = Some m' /\ m' ⊆ m)).
Proof.
  intros Hp.
  assert (forall s', c ∈ children el ->
            SParentElement.remove fuel p c s <> (Throw ChildNotFound, s'))
    as Hfound.
  { intros s' Hc. rewrite (remove_found fuel p c s el Hp Hc). intros H.
    apply throws_only_detach in H as [?|?]; discriminate. }
  split_and!.
  - split.
    + intros [s' H] Hc. by apply (Hfound s' Hc).
    + intros Hc. exists s. by apply remove_not_found with el.
  - intros s' H. destruct (decide (c ∈ children el)) as [Hc|Hc].
    + by apply (Hfound s' Hc) in H.
    + rewrite (remove_not_found fuel p c s el Hp Hc) in H. by injection H as <-.
  - intros Hc Hex r s'. rewrite (remove_found fuel p c s el Hp Hc).
    destruct (splice_first_occurrence _ _ Hc) as (l1 & l2 & Hcs & Hnin & _ & ->).
    intros H. exists l1, l2. split; [done|]. split; [done|].
    assert (is_Some (elements (with_children p (l1 ++ l2) s) !! c)) as [elc1 Hc1]
      by by apply with_children_is_Some.
    destruct (detach_elements _ _ _ _ _ _ _ Hc1 H) as (Hel & _ & Hmap).
    fold (detached p c (l1 ++ l2) s) in Hel. rewrite Hel.
    destruct (detached_lookup p c (l1 ++ l2) s el Hp Hex) as (H1 & H2 & H3).
    split_and!; try done.
    intros j m Hm. apply Hmap.
    by destruct (with_children_rest p (l1 ++ l2) s) as (-> & _).
Qed.

Lemma remove_detaches_witness :
  children <$>
    elements (SParentElement.remove 2 1%positive 2%positive example_store).2
      !! 1%positive = Some [] /\
  parent <$>
    elements (SParentElement.remove 2 1%positive 2%positive example_store).2
      !! 2%positive = Some None.
Proof.
  destruct (remove_detaches 2 1%positive 2%positive example_store
              (mkElement "root" "R" [2%positive] None (RootClass 10%positive)))
    as (_ & _ & Hin).
  - vm_compute. reflexivity.
  - destruct (Hin ltac:(apply list_elem_of_here)
                ltac:(vm_compute; eexists; reflexivity)
                (SParentElement.remove 2 1%positive 2%positive example_store).1
                (SParentElement.remove 2 1%positive 2%positive example_store).2
                ltac:(apply surjective_pairing))
      as (l1 & l2 & Hsplit & _ & Hcs & Hp & _).
    destruct l1 as [|a l1]; cbn in Hsplit.
    + injection Hsplit as <-. split; [exact Hcs|exact Hp].
    + injection Hsplit as _ Hnil. by destruct l1.
Defined.

(** remove(child), when nothing is in its way: the parent has a root
    that is reached without passing the child, and the subtree of the
    child does not hold the parent.  The call returns, and the index of
    the root has lost the ids of the whole subtree of the child. *)
Theorem remove_unregisters fuel p c s el ix m l :
  elements s !! p = Some el ->
  c ∈ children el ->
  SModelElement.index fuel p s = (Normal ix, s) ->
  c ∉ ancestors fuel (elements s) (Some p) ->
  indices s !! ix = Some m ->
  preorder fuel (elements s) c = Some l ->
  p ∉ l ->
  exists s',
    SParentElement.remove fuel p c s = (Normal tt, s') /\
    s' = with_index ix (delete_all (elements s) l m)
           (detached p c
              (splice (indexOf (children el) c) 1 [] (children el)) s) /\
    (forall x, x ∈ l ->
       SModelIndex.getById ix (id_of (elements s) x) s' = (Normal None, s')) /\
    (forall k, k ∉ id_of (elements s) <$> l ->
       SModelIndex.getById ix k s' = (Normal (m !! k), s')).
Proof.
  intros Hp Hc Hix Hanc Hm Hl Hpl.
  set (cs := splice (indexOf (children el) c) 1 [] (children el)).
  set (s2 := detached p c cs s).
  assert (is_Some (elements s !! c)) as [elc Hcel].
  { pose proof (preorder_objects _ _ _ _ Hl) as Hall.
    rewrite Forall_forall in Hall. apply Hall.
    destruct fuel; [done|]. cbn in Hl.
    destruct (elements s !! c); [|done].
    destruct (collect _ _); [|done]. injection Hl as <-.
    apply list_elem_of_here. }
  assert (is_Some (elements (with_children p cs s) !! c)) as [elc1 Hc1].
  { apply with_children_is_Some. by eexists. }
  assert (SModelElement.index fuel p s2 = (Normal ix, s2)) as Hix2.
  { apply (index_getter_visited fuel p s s2); [|done].
    intros x Hx. apply detached_links. by intros ->. }
  assert (preorder fuel (elements s2) c = Some l) as Hl2.
  { apply (preorder_except fuel (elements s) _ p); try done.
    intros x Hx. by apply detached_children. }
  assert (SParentElement.remove fuel p c s =
            (Normal tt, with_index ix (delete_all (elements s) l m) s2)) as Hrun.
  { rewrite (remove_found fuel p c s el Hp Hc). fold cs.
    rewrite (detach_run fuel p c _ elc1 Hc1). fold (detached p c cs s). fold s2.
    rewrite (bind_normal _ _ _ _ _ Hix2).
    rewrite (remove_preorder fuel ix c s2 l Hl2).
    rewrite (for_of_unregister ix l s2 m).
    - by rewrite (delete_all_ext (elements s) (elements s2))
        by apply detached_id_of.
    - by apply preorder_objects in Hl2.
    - unfold s2. by rewrite detached_indices. }
  eexists. split; [exact Hrun|]. split; [done|].
  assert (forall k,
            SModelIndex.getById ix k
              (with_index ix (delete_all (elements s) l m) s2) =
            (Normal (delete_all (elements s) l m !! k),
             with_index ix (delete_all (elements s) l m) s2)) as Hget.
  { intros k. unfold SModelIndex.getById, bind, read_index, ret. cbn.
    by rewrite lookup_insert_eq. }
  split.
  - intros x Hx. rewrite Hget, delete_all_lookup.
    rewrite decide_True; [done|]. apply list_elem_of_fmap. by exists x.
  - intros k Hk. rewrite Hget, delete_all_lookup. by rewrite decide_False.
Qed.

Lemma remove_unregisters_witness :
  exists s',
    SParentElement.remove 2 1%positive 2%positive example_store =
      (Normal tt, s') /\
    SModelIndex.getById 10%positive "E1" s' = (Normal None, s') /\
    SModelIndex.getById 10%positive "R" s' = (Normal (Some 1%positive), s').
Proof.
  destruct (remove_unregisters 2 1%positive 2%positive example_store
              (mkElement "root" "R" [2%positive] None (RootClass 10%positive)) 10%positive
              {["R"%string := 1%positive; "E1"%string := 2%positive]}
              [2%positive])
    as (s' & Hrun & _ & Hgone & Hkept).
  - vm_compute. reflexivity.
  - apply list_elem_of_here.
  - vm_compute. reflexivity.
  - apply (bool_decide_unpack _); vm_compute; exact I.
  - vm_compute. reflexivity.
  - vm_compute. reflexivity.
  - apply (bool_decide_unpack _); vm_compute; exact I.
  - exists s'. split_and!; [exact Hrun| |].
    + apply (Hgone 2%positive). apply list_elem_of_here.
    + apply (Hkept "R"%string). apply (bool_decide_unpack _); vm_compute; exact I.
Defined.

End TreeRemove.

Section IndexMore.

Import SModelIndex.

(** One index.remove on a subtree returns with exactly the ids of its
    elements deleted from the index, whichever objects they were
    registered for, and nothing else changed: afterwards getById finds
    none of these ids and every other id as before.  When none of the
    ids was registered the store is as it was. *)
Theorem index_remove_subtree depth ix e s m l :
  indices s !! ix = Some m ->
  preorder depth (elements s) e = Some l ->
  exists s',
    remove depth ix e s = (Normal tt, s') /\
    elements s' = elements s /\
    (forall j, j <> ix -> indices s' !! j = indices s !! j) /\
    (forall x, x ∈ l ->
       getById ix (id_of (elements s) x) s' = (Normal None, s')) /\
    (forall k, k ∉ id_of (elements s) <$> l ->
       getById ix k s' = (Normal (m !! k), s')) /\
    ((forall x, x ∈ l -> m !! id_of (elements s) x = None) -> s' = s).
Proof.
  intros Hm Hl. exists (with_index ix (delete_all (elements s) l m) s).
  assert (forall k,
            getById ix k (with_index ix (delete_all (elements s) l m) s) =
            (Normal (delete_all (elements s) l m !! k),
             with_index ix (delete_all (elements s) l m) s)) as Hget.
  { intros k. unfold getById, bind, read_index, ret. cbn.
    by rewrite lookup_insert_eq. }
  split_and!.
  - rewrite (remove_preorder depth ix e s l Hl).
    apply for_of_unregister; [|done]. by apply preorder_objects in Hl.
  - done.
  - intros j Hj. cbn. by rewrite lookup_insert_ne.
  - intros x Hx. rewrite Hget, delete_all_lookup.
    rewrite decide_True; [done|]. apply list_elem_of_fmap. by exists x.
  - intros k Hk. rewrite Hget, delete_all_lookup. by rewrite decide_False.
  - intros Habsent. replace (delete_all (elements s) l m) with m;
      [by apply with_index_id|].
    apply map_eq. intros k. rewrite delete_all_lookup.
    destruct (decide (k ∈ id_of (elements s) <$> l)) as [Hin|]; [|done].
    apply list_elem_of_fmap in Hin as (x & -> & Hx). by apply Habsent.
Qed.

Lemma index_remove_subtree_witness :
  exists s',
    remove 2 10%positive 4%positive example_store = (Normal tt, s') /\
    getById 10%positive "E1" s' = (Normal None, s').
Proof.
  destruct (index_remove_subtree 2 10%positive 4%positive example_store
              {["R"%string := 1%positive; "E1"%string := 2%positive]}
              [4%positive; 5%positive])
    as (s' & Hrun & _ & _ & Hgone & _).
  - vm_compute. reflexivity.
  - vm_compute. reflexivity.
  - exists s'. split; [exact Hrun|].
    apply (Hgone 5%positive). apply list_elem_of_further, list_elem_of_here.
Defined.

(** Round trip on the index: index.add on a subtree whose ids are set,
    distinct and unregistered, followed by index.remove on the same
    subtree, gives back the store the two calls started from. *)
Theorem index_add_then_remove depth tries ix e s m l :
  indices s !! ix = Some m ->
  preorder depth (elements s) e = Some l ->
  fresh_ids (elements s) m l ->
  bind (add depth tries ix e) (fun _ => remove depth ix e) s = (Normal tt, s).
Proof.
  intros Hm Hl Hfresh.
  rewrite (bind_normal _ _ s tt
             (with_index ix (set_all (elements s) l m) s)).
  - cbn beta.
    rewrite (remove_preorder depth ix e
               (with_index ix (set_all (elements s) l m) s) l Hl).
    rewrite (for_of_unregister ix l _ (set_all (elements s) l m)).
    + cbn [elements with_index]. rewrite with_index_twice.
      rewrite delete_all_set_all by done. by rewrite with_index_id.
    + by apply preorder_objects in Hl.
    + apply lookup_insert_eq.
  - rewrite (add_preorder depth tries ix e s l Hl).
    by apply for_of_register_fresh.
Qed.

Lemma index_add_then_remove_witness :
  bind (add 2 1 10%positive 8%positive)
       (fun _ => remove 2 10%positive 8%positive) example_store =
  (Normal tt, example_store).
Proof.
  apply (index_add_then_remove 2 1 10%positive 8%positive example_store
           {["R"%string := 1%positive; "E1"%string := 2%positive]}
           [8%positive; 9%positive]).
  - vm_compute. reflexivity.
  - vm_compute. reflexivity.
  - split.
    + repeat constructor; vm_compute; discriminate.
    + apply (bool_decide_unpack _). vm_compute. exact I.
Defined.

(** Insert and look up: whenever index.add returns for an element,
    getById with the id the element then carries returns this very
    element, whether the id was given or generated. *)
Theorem getById_after_add depth tries ix e s s1 el :
  random_in_range s ->
  elements s !! e = Some el ->
  add depth tries ix e s = (Normal tt, s1) ->
  getById ix (id_of (elements s1) e) s1 = (Normal (Some e), s1) /\
  id_of (elements s1) e <> EmptyString /\
  (id el <> EmptyString -> id_of (elements s1) e = id el).
Proof.
  intros Hr He Hadd.
  destruct (add_returns _ _ _ _ _ _ _ He Hadd)
    as (i & m & m1 & Hm & Hfresh & Hgiven & Hrandom & Hm1 & Hreg & Hstable & _).
  assert (i <> EmptyString) as Hne.
  { destruct (decide (id el = EmptyString)) as [Hid|Hid].
    - destruct (Hrandom Hid Hr) as [Hlen _]. intros ->. discriminate Hlen.
    - by rewrite (Hgiven Hid). }
  rewrite (Hstable Hne). split_and!; [|done|].
  - unfold getById, bind, read_index, ret. by rewrite Hm1, Hreg.
  - intros Hid. by apply Hgiven.
Qed.

Lemma getById_after_add_witness :
  getById 10%positive
    (id_of (elements (add 1 1 10%positive 6%positive example_store).2)
       6%positive)
    (add 1 1 10%positive 6%positive example_store).2 =
  (Normal (Some 6%positive),
   (add 1 1 10%positive 6%positive example_store).2).
Proof.
  apply (getById_after_add 1 1 10%positive 6%positive example_store
           (add 1 1 10%positive 6%positive example_store).2
           (mkElement "element" EmptyString [] None ChildClass)).
  - intros k. change (k mod 36 < 36)%nat. apply Nat.mod_upper_bound. lia.
  - vm_compute. reflexivity.
  - vm_compute. reflexivity.
Defined.

End IndexMore.

Section TreeRoundTrip.

Lemma indexOf_middle (l1 l2 : list loc) (c : loc) :
  c ∉ l1 -> indexOf (l1 ++ c :: l2) c = Z.of_nat (length l1).
Proof.
  induction l1 as [|y l1 IH]; intros Hc; cbn [app indexOf length].
  - by rewrite decide_True.
  - apply not_elem_of_cons in Hc as [Hcy Hc].
    rewrite decide_False by done. rewrite (IH Hc).
    destruct (Z.of_nat (length l1) =? -1) eqn:Hk.
    + apply Z.eqb_eq in Hk. lia.
    + lia.
Qed.

(** The array after the insertion step of [add], as two halves of the
    old array around the child. *)
Lemma inserted_middle (i : option Z) (c : loc) (cs : list loc) :
  match i with
  | Some i => 0 <= i <= Z.of_nat (length cs)
  | None => True
  end ->
  exists k, inserted i c cs = take k cs ++ c :: drop k cs.
Proof.
  destruct i as [i|]; intros Hi; cbn.
  - exists (Z.to_nat i). by apply splice_insert.
  - exists (length cs). by rewrite take_ge, drop_ge by lia.
Qed.

(** Taking the child out again gives the old array back, if the child
    was not in it. *)
Lemma remove_inserted (i : option Z) (c : loc) (cs : list loc) :
  c ∉ cs ->
  match i with
  | Some i => 0 <= i <= Z.of_nat (length cs)
  | None => True
  end ->
  c ∈ inserted i c cs /\
  splice (indexOf (inserted i c cs) c) 1 [] (inserted i c cs) = cs.
Proof.
  intros Hc Hi. destruct (inserted_middle i c cs Hi) as (k & ->).
  split; [apply elem_of_app; right; apply list_elem_of_here|].
  assert (c ∉ take k cs) as Hck.
  { intros Hin. apply Hc. by eapply subseteq_take. }
  rewrite (indexOf_middle _ _ _ Hck), splice_remove
    by (rewrite length_app; cbn; lia).
  rewrite Nat2Z.id, take_app_length.
  replace (S (length (take k cs))) with (length (take k cs) + 1)%nat by lia.
  rewrite drop_app_add. cbn. rewrite drop_0. apply take_drop.
Qed.

(** Round trip on the tree.  On a parent that has a root, add(child, i?)
    at a position in range, of a detached child that is not among the
    children yet and whose subtree is finite, does not hold the parent
    and carries ids that are set, distinct and not registered, followed
    by remove(child), gives back the store the two calls started from. *)
Theorem add_then_remove fuel tries p c i s el elc ix m l :
  elements s !! p = Some el ->
  elements s !! c = Some elc -> cls elc = ChildClass -> parent elc = None ->
  c ∉ children el ->
  match i with
  | Some i => 0 <= i <= Z.of_nat (length (children el))
  | None => True
  end ->
  SModelElement.index fuel p s = (Normal ix, s) ->
  indices s !! ix = Some m ->
  preorder fuel (elements s) c = Some l ->
  p ∉ l ->
  fresh_ids (elements s) m l ->
  bind (SParentElement.add fuel tries p c i)
       (fun _ => SParentElement.remove fuel p c) s = (Normal tt, s).
Proof.
  intros Hp Hc Hk Hpar Hnew Hi Hix Hm Hl Hpl Hfresh.
  destruct (add_run fuel tries p c i s el elc ix m l) as [Hrun _]; try done.
  rewrite (bind_normal _ _ _ _ _ Hrun). cbn beta.
  set (cs' := inserted i c (children el)) in *.
  set (M := set_all (elements s) l m) in *.
  set (s3 := with_index ix M (attached p c cs' s)).
  assert (c <> p) as Hcp.
  { intros ->. apply Hpl. destruct fuel; [done|]. cbn in Hl.
    rewrite Hp in Hl. destruct (collect _ _); [|done]. injection Hl as <-.
    apply list_elem_of_here. }
  assert (forall x, elements s3 !! x = elements (attached p c cs' s) !! x)
    as Hs3 by done.
  assert (elements s3 !! p =
            Some (mkElement (type el) (id el) cs' (parent el) (cls el))) as Hp3.
  { rewrite Hs3. unfold attached. rewrite with_parent_elements.
    rewrite decide_False by done.
    rewrite with_children_elements, decide_True by done. by rewrite Hp. }
  assert (elements s3 !! c =
            Some (mkElement (type elc) (id elc) (children elc) (Some p)
                    (cls elc))) as Hc3.
  { rewrite Hs3. unfold attached. rewrite with_parent_elements.
    rewrite decide_True by done.
    rewrite with_children_elements, decide_False by done. by rewrite Hc. }
  destruct (remove_inserted i c (children el) Hnew Hi) as [Hin Hback].
  fold cs' in Hin, Hback.
  rewrite (remove_found fuel p c s3 _ Hp3 Hin). cbn [children]. rewrite Hback.
  assert (elements (with_children p (children el) s3) !! c =
            Some (mkElement (type elc) (id elc) (children elc) (Some p)
                    (cls elc))) as Hc4.
  { rewrite with_children_elements. by rewrite decide_False. }
  rewrite (detach_run fuel p c _ _ Hc4).
  assert (with_parent c None (with_children p (children el) s3) =
            with_index ix M s) as ->.
  { destruct (with_parent_rest c None (with_children p (children el) s3))
      as (Hi1 & Hr1 & Hd1).
    destruct (with_children_rest p (children el) s3) as (Hi2 & Hr2 & Hd2).
    destruct (with_parent_rest c (Some p) (with_children p cs' s))
      as (Hi3 & Hr3 & Hd3).
    destruct (with_children_rest p cs' s) as (Hi4 & Hr4 & Hd4).
    apply store_eq.
    - apply map_eq. intros x.
      rewrite with_parent_elements, !with_children_elements.
      destruct (decide (x = c)) as [->|Hxc].
      + rewrite decide_False by done. rewrite Hc3. cbn. rewrite Hc.
        f_equal. destruct elc. cbn in *. by subst.
      + destruct (decide (x = p)) as [->|Hxp].
        * rewrite Hp3. cbn. rewrite Hp. f_equal. by destruct el.
        * rewrite Hs3. unfold attached.
          rewrite with_parent_elements, decide_False by done.
          by rewrite with_children_elements, decide_False.
    - rewrite Hi1, Hi2. cbn. unfold attached. by rewrite Hi3, Hi4.
    - rewrite Hr1, Hr2. cbn. unfold attached. by rewrite Hr3, Hr4.
    - rewrite Hd1, Hd2. cbn. unfold attached. by rewrite Hd3, Hd4. }
  assert (SModelElement.index fuel p (with_index ix M s) =
            (Normal ix, with_index ix M s)) as Hix'.
  { by apply (index_getter_visited fuel p s). }
  rewrite (bind_normal _ _ _ _ _ Hix').
  rewrite (remove_preorder fuel ix c (with_index ix M s) l Hl).
  rewrite (for_of_unregister ix l _ M).
  - cbn [elements with_index]. rewrite with_index_twice. unfold M.
    rewrite delete_all_set_all by done. by rewrite with_index_id.
  - by apply preorder_objects in Hl.
  - apply lookup_insert_eq.
Qed.

Lemma add_then_remove_witness :
  bind (SParentElement.add 2 1 1%positive 8%positive (Some 0))
       (fun _ => SParentElement.remove 2 1%positive 8%positive) example_store =
  (Normal tt, example_store).
Proof.
  apply (add_then_remove 2 1 1%positive 8%positive (Some 0) example_store
           (mkElement "root" "R" [2%positive] None (RootClass 10%positive))
           (mkElement "element" "E3" [9%positive] None ChildClass) 10%positive
           {["R"%string := 1%positive; "E1"%string := 2%positive]}
           [8%positive; 9%positive]).
  - vm_compute. reflexivity.
  - vm_compute. reflexivity.
  - reflexivity.
  - reflexivity.
  - apply (bool_decide_unpack _); vm_compute; exact I.
  - cbn. lia.
  - vm_compute. reflexivity.
  - vm_compute. reflexivity.
  - vm_compute. reflexivity.
  - apply (bool_decide_unpack _); vm_compute; exact I.
  - split.
    + repeat constructor; vm_compute; discriminate.
    + apply (bool_decide_unpack _); vm_compute; exact I.
Defined.

(** Without a root the structural change is made all the same.  On a
    parent whose walk to the root ends in DetachedElement without passing
    the child, add at a position in range (or without position) throws
    DetachedElement with the child inserted and its parent set, and
    remove of a child that is among the children throws DetachedElement
    with the child taken out and its parent cleared; no index is
    touched. *)
Theorem rootless_parent_changes_then_throws fuel tries p c s el elc :
  elements s !! p = Some el ->
  elements s !! c = Some elc ->
  SModelElement.index fuel p s = (Throw DetachedElement, s) ->
  c ∉ ancestors fuel (elements s) (Some p) ->
  (forall i,
     match i with
     | Some i => 0 <= i <= Z.of_nat (length (children el))
     | None => True
     end ->
     SParentElement.add fuel tries p c i s =
       (Throw DetachedElement, attached p c (inserted i c (children el)) s)) /\
  (c ∈ children el ->
   SParentElement.remove fuel p c s =
     (Throw DetachedElement,
      detached p c (splice (indexOf (children el) c) 1 [] (children el)) s)).
Proof.
  intros Hp Hc Hix Hanc. split.
  - intros i Hi. rewrite (add_in_range fuel tries p c i s el Hp Hi).
    set (cs := inserted i c (children el)).
    assert (is_Some (elements (with_children p cs s) !! c)) as [elc1 Hc1].
    { apply with_children_is_Some. by eexists. }
    rewrite (bind_normal _ _ _ _ _ (set_parent_spec c (Some p) _ elc1 Hc1)).
    fold (attached p c cs s). apply bind_throw.
    apply (index_getter_visited fuel p s); [|done].
    intros x Hx. apply attached_links. by intros ->.
  - intros Hin. rewrite (remove_found fuel p c s el Hp Hin).
    set (cs := splice (indexOf (children el) c) 1 [] (children el)).
    assert (is_Some (elements (with_children p cs s) !! c)) as [elc1 Hc1].
    { apply with_children_is_Some. by eexists. }
    rewrite (detach_run fuel p c _ elc1 Hc1). fold (detached p c cs s).
    apply bind_throw.
    apply (index_getter_visited fuel p s); [|done].
    intros x Hx. apply detached_links. by intros ->.
Qed.

Lemma rootless_parent_changes_then_throws_witness :
  SParentElement.remove 2 4%positive 5%positive example_store =
    (Throw DetachedElement, detached 4%positive 5%positive [] example_store).
Proof.
  destruct (rootless_parent_changes_then_throws 2 1 4%positive 5%positive
              example_store (mkElement "element" "E2" [5%positive] None ChildClass) (mkElement "element" "E1" [] (Some 4%positive) ChildClass))
    as (_ & Hremove).
  - vm_compute. reflexivity.
  - vm_compute. reflexivity.
  - vm_compute. reflexivity.
  - apply (bool_decide_unpack _); vm_compute; exact I.
  - apply Hremove. apply list_elem_of_here.
Defined.

End TreeRoundTrip.

Section SoundIndex.

Lemma preserves_healthy_set_children p cs :
  preserves keeps_healthy (set_children p cs).
Proof.
  intros s r s' H. destruct (elements s !! p) as [el|] eqn:Hp.
  - rewrite (set_children_spec p cs s el Hp) in H. injection H as _ <-.
    destruct (with_children_rest p cs s) as (Hi & Hr & _).
    apply keeps_healthy_ids; try done. apply with_children_id_of.
  - unfold set_children, bind, read_element in H. rewrite Hp in H.
    injection H as _ <-. reflexivity.
Qed.

Lemma preserves_healthy_set_parent c q :
  preserves keeps_healthy (set_parent c q).
Proof.
  intros s r s' H. destruct (elements s !! c) as [el|] eqn:Hc.
  - rewrite (set_parent_spec c q s el Hc) in H. injection H as _ <-.
    destruct (with_parent_rest c q s) as (Hi & Hr & _).
    apply keeps_healthy_ids; try done. apply with_parent_id_of.
  - rewrite (set_parent_dangling c q s Hc) in H.
    injection H as _ <-. reflexivity.
Qed.

Lemma preserves_index_getter R `{!PreOrder R} fuel e :
  preserves R (SModelElement.index fuel e).
Proof.
  intros s r s' H. apply index_getter_same in H as ->. reflexivity.
Qed.

Lemma preserves_healthy_add fuel tries p c i :
  preserves keeps_healthy (SParentElement.add fuel tries p c i).
Proof.
  apply preserves_bind; [apply _|apply preserves_read_element, _|].
  intros el. apply preserves_bind; [apply _| |].
  { destruct i as [i|]; [|apply preserves_healthy_set_children].
    destruct ((i <? 0) || (i >? Z.of_nat (length (children el)))).
    - apply preserves_throw, _.
    - apply preserves_healthy_set_children. }
  intros _. apply preserves_bind; [apply _|apply preserves_healthy_set_parent|].
  intros _. apply preserves_bind; [apply _|apply preserves_index_getter, _|].
  intros ix. apply preserves_healthy_index_add.
Qed.

Lemma preserves_healthy_move p c n :
  preserves keeps_healthy (SParentElement.move p c n).
Proof.
  apply preserves_bind; [apply _|apply preserves_read_element, _|].
  intros el. cbn zeta. destruct (indexOf (children el) c =? -1).
  { apply preserves_throw, _. }
  destruct ((n <? 0) || (n >? Z.of_nat (length (children el)) - 1)).
  - apply preserves_throw, _.
  - apply preserves_healthy_set_children.
Qed.

Lemma preserves_healthy_detach fuel p c :
  preserves keeps_healthy (SParentElement.detach fuel p c).
Proof.
  apply preserves_bind; [apply _|apply preserves_healthy_set_parent|].
  intros _. apply preserves_bind; [apply _|apply preserves_index_getter, _|].
  intros ix. apply preserves_healthy_index_remove.
Qed.

Lemma preserves_healthy_remove fuel p c :
  preserves keeps_healthy (SParentElement.remove fuel p c).
Proof.
  apply preserves_bind; [apply _|apply preserves_read_element, _|].
  intros el. cbn zeta. destruct (indexOf (children el) c <? 0).
  { apply preserves_throw, _. }
  apply preserves_bind; [apply _|apply preserves_healthy_set_children|].
  intros _. apply preserves_healthy_detach.
Qed.

Lemma preserves_healthy_removeAll_loop fuel filter p n :
  preserves keeps_healthy (SParentElement.removeAll_loop fuel filter p n).
Proof.
  induction n as [|i IH]; cbn [SParentElement.removeAll_loop].
  { apply preserves_ret, _. }
  apply preserves_bind; [apply _|apply preserves_read_element, _|].
  intros el. apply preserves_bind; [apply _| |intros _; apply IH].
  destruct (children el !! i) as [child|]; [|apply preserves_throw, _].
  apply preserves_bind; [apply _| |].
  { intros s r s' [= _ <-]. reflexivity. }
  intros []; [|apply preserves_ret, _].
  apply preserves_bind; [apply _|apply preserves_healthy_set_children|].
  intros _. apply preserves_healthy_detach.
Qed.

Lemma preserves_healthy_removeAll fuel filter p :
  preserves keeps_healthy (SParentElement.removeAll fuel filter p).
Proof.
  apply preserves_bind; [apply _|apply preserves_read_element, _|].
  intros el. destruct filter as [filter|].
  - apply preserves_healthy_removeAll_loop.
  - apply preserves_bind; [apply _| |].
    + apply preserves_for_of; [apply _|]. intros x.
      apply preserves_healthy_detach.
    + intros _. apply preserves_bind;
        [apply _|apply preserves_read_element, _|].
      intros el'. apply preserves_healthy_set_children.
Qed.

(** The entries of the indices stay sound.  If every entry of every
    index leads from a non-empty id to an element that carries this id,
    then so it is after index.add, index.remove, add, remove, removeAll
    and move, whether the call returns, throws or runs out of fuel.  The
    random values are any stream within the range of the alphabet. *)
Theorem index_entries_stay_sound s r s' :
  random_in_range s ->
  index_sound s ->
  ((exists depth tries ix e, SModelIndex.add depth tries ix e s = (r, s')) \/
   (exists depth ix e, SModelIndex.remove depth ix e s = (r, s')) \/
   (exists fuel tries p c i, SParentElement.add fuel tries p c i s = (r, s')) \/
   (exists fuel p c, SParentElement.remove fuel p c s = (r, s')) \/
   (exists fuel filter p, SParentElement.removeAll fuel filter p s = (r, s')) \/
   (exists p c n, SParentElement.move p c n s = (r, s'))) ->
  random_in_range s' /\
  index_sound s' /\
  (forall ix i x,
     SModelIndex.getById ix i s' = (Normal (Some x), s') ->
     id_of (elements s') x = i).
Proof.
  intros Hr Hs Hop.
  assert (healthy s') as [Hr' Hs'].
  { assert (healthy s) as Hh by done.
    destruct Hop as [(?&?&?&?&H)|[(?&?&?&H)|[(?&?&?&?&?&H)|[(?&?&?&H)|
                    [(?&?&?&H)|(?&?&?&H)]]]]]; revert Hh.
    - by eapply preserves_healthy_index_add.
    - by eapply preserves_healthy_index_remove.
    - by eapply preserves_healthy_add.
    - by eapply preserves_healthy_remove.
    - by eapply preserves_healthy_removeAll.
    - by eapply preserves_healthy_move. }
  split_and!; try done.
  intros ix i x. unfold SModelIndex.getById, bind, read_index, ret.
  destruct (indices s' !! ix) as [m|] eqn:Hm; [|done].
  intros [= Hi]. by destruct (Hs' ix m i x Hm Hi).
Qed.

Lemma index_entries_stay_sound_witness :
  index_sound
    (SParentElement.add 2 1 1%positive 3%positive None example_store).2.
Proof.
  destruct (index_entries_stay_sound example_store
              (SParentElement.add 2 1 1%positive 3%positive None
                 example_store).1
              (SParentElement.add 2 1 1%positive 3%positive None
                 example_store).2)
    as (_ & Hsound & _).
  - exact example_random_in_range.
  - exact example_index_sound.
  - right. right. left.
    exists 2%nat, 1%nat, 1%positive, 3%positive, None.
    apply surjective_pairing.
  - exact Hsound.
Defined.

End SoundIndex.

Section RemoveAllFacts.

Lemma preorder_head depth (h : gmap loc SModelElement) e l :
  preorder depth h e = Some l -> e ∈ l.
Proof.
  destruct depth; [done|]. cbn. destruct (h !! e); [|done].
  destruct (collect _ _); [|done]. intros [= <-]. apply list_elem_of_here.
Qed.

Lemma with_parent_None_elements c s x :
  elements (with_parent c None s) !! x =
  if decide (x = c) then orphan <$> elements s !! c else elements s !! x.
Proof. apply with_parent_elements. Qed.

(** One detachment, when nothing is in its way. *)
Lemma detach_step fuel p c ix s t m' a :
  SModelElement.index fuel p s = (Normal ix, s) ->
  same_tree fuel p s t ->
  indices t !! ix = Some m' ->
  preorder fuel (elements s) c = Some a ->
  p ∉ a ->
  c ∉ ancestors fuel (elements s) (Some p) ->
  SParentElement.detach fuel p c t =
    (Normal tt,
     with_index ix (delete_all (elements s) a m') (with_parent c None t)) /\
  same_tree fuel p s
    (with_index ix (delete_all (elements s) a m') (with_parent c None t)).
Proof.
  intros Hix (Hlinks & Hch & Hids) Hm Ha Hpa Hanc.
  pose proof (preorder_head _ _ _ _ Ha) as Hca.
  assert (c <> p) as Hcp by (by intros ->).
  assert (is_Some (elements t !! c)) as [elc Hc].
  { pose proof (preorder_objects _ _ _ _ Ha) as Hall.
    rewrite Forall_forall in Hall. destruct (Hall c Hca) as [elc Hc].
    specialize (Hch c Hcp). rewrite Hc in Hch.
    destruct (elements t !! c); [by eexists|done]. }
  set (t1 := with_parent c None t).
  assert (same_tree fuel p s t1) as Hsame.
  { unfold same_tree. split_and!.
    - intros x Hx. unfold t1. rewrite with_parent_links; [by apply Hlinks|].
      by intros ->.
    - intros x Hx. unfold t1. rewrite with_parent_children. by apply Hch.
    - intros x. unfold t1. by rewrite with_parent_id_of. }
  destruct Hsame as (Hlinks1 & Hch1 & Hids1).
  split; [|done].
  rewrite (detach_run fuel p c t elc Hc). fold t1.
  rewrite (bind_normal _ _ t1 ix t1)
    by by apply (index_getter_visited fuel p s t1).
  assert (preorder fuel (elements t1) c = Some a) as Ha1
    by by apply (preorder_except fuel (elements s) _ p).
  rewrite (remove_preorder fuel ix c t1 a Ha1).
  rewrite (for_of_unregister ix a t1 m').
  - by rewrite (delete_all_ext (elements s) (elements t1)).
  - by apply preorder_objects in Ha1.
  - unfold t1. by destruct (with_parent_rest c None t) as (-> & _).
Qed.

Lemma delete_all_app (h : gmap loc SModelElement) l1 l2 m :
  delete_all h (l1 ++ l2) m = delete_all h l2 (delete_all h l1 m).
Proof. unfold delete_all. apply foldl_app. Qed.

(** The [forEach] of [removeAll]: every child is detached in turn. *)
Lemma detach_all fuel p ix s cs :
  SModelElement.index fuel p s = (Normal ix, s) ->
  forall t m' L,
    same_tree fuel p s t ->
    indices t !! ix = Some m' ->
    collect (preorder fuel (elements s)) cs = Some L ->
    p ∉ L ->
    (forall c, c ∈ cs -> c ∉ ancestors fuel (elements s) (Some p)) ->
    exists t',
      for_of cs (SParentElement.detach fuel p) t = (Normal tt, t') /\
      same_tree fuel p s t' /\
      indices t' = <[ix := delete_all (elements s) L m']> (indices t) /\
      random t' = random t /\ drawn t' = drawn t /\
      (forall x, elements t' !! x =
                 if decide (x ∈ cs) then orphan <$> elements t !! x
                 else elements t !! x).
Proof.
  intros Hix. induction cs as [|c cs IH]; intros t m' L Hsame Hm HL HpL Hanc.
  - injection HL as <-. exists t. split_and!; try done.
    cbn. by rewrite insert_id.
  - cbn [collect] in HL.
    destruct (preorder fuel (elements s) c) as [a|] eqn:Ha; [|done].
    destruct (collect (preorder fuel (elements s)) cs) as [b|] eqn:Hb; [|done].
    injection HL as <-. apply not_elem_of_app in HpL as [Hpa Hpb].
    destruct (detach_step fuel p c ix s t m' a) as [Hrun Hsame1]; try done.
    { apply Hanc, list_elem_of_here. }
    set (t1 := with_index ix (delete_all (elements s) a m')
                 (with_parent c None t)) in *.
    destruct (IH t1 (delete_all (elements s) a m') b) as
      (t' & Hrun' & Hsame' & Hind & Hrand & Hdrawn & Hel); try done.
    { apply lookup_insert_eq. }
    { intros x Hx. apply Hanc. by apply list_elem_of_further. }
    destruct (with_parent_rest c None t) as (Hi1 & Hr1 & Hd1).
    exists t'. split_and!; try done.
    + cbn [for_of]. by rewrite (bind_normal _ _ _ _ _ Hrun).
    + rewrite Hind. cbn. rewrite insert_insert_eq, Hi1.
      by rewrite delete_all_app.
    + by rewrite Hrand.
    + by rewrite Hdrawn.
    + intros x. rewrite Hel.
      change (elements t1) with (elements (with_parent c None t)).
      rewrite with_parent_None_elements.
      destruct (decide (x = c)) as [->|Hxc].
      * rewrite (decide_True (P := c ∈ c :: cs)) by apply list_elem_of_here.
        destruct (decide (c ∈ cs)); [|done].
        by destruct (elements t !! c).
      * destruct (decide (x ∈ cs)) as [Hin|Hnin].
        -- rewrite decide_True; [done|]. by apply list_elem_of_further.
        -- rewrite decide_False; [done|].
           rewrite elem_of_cons. by intros [?|?].
Qed.

Lemma splice_all {A} (l : list A) : splice 0 (length l) [] l = [].
Proof.
  unfold splice. rewrite splice_start_in_range by lia.
  change (Z.to_nat 0) with 0%nat. by rewrite Nat.add_0_l, drop_all.
Qed.

(** removeAll(), when nothing is in its way: the parent has a root that
    is reached without passing a child, and no subtree of a child holds
    the parent.  The call returns; the parent has no children, every
    former child has no parent and is otherwise as it was, no other
    element has changed, and the index of the root has lost the ids of
    the subtrees of all the children, the other ids being as before. *)
Theorem removeAll_detaches_every_child fuel p s el ix m L :
  elements s !! p = Some el ->
  SModelElement.index fuel p s = (Normal ix, s) ->
  indices s !! ix = Some m ->
  collect (preorder fuel (elements s)) (children el) = Some L ->
  p ∉ L ->
  (forall c, c ∈ children el -> c ∉ ancestors fuel (elements s) (Some p)) ->
  exists s',
    SParentElement.removeAll fuel None p s = (Normal tt, s') /\
    children <$> elements s' !! p = Some [] /\
    (forall c, c ∈ children el ->
       elements s' !! c = orphan <$> elements s !! c) /\
    (forall x, x <> p -> x ∉ children el ->
       elements s' !! x = elements s !! x) /\
    (forall x, x ∈ L ->
       SModelIndex.getById ix (id_of (elements s) x) s' = (Normal None, s')) /\
    (forall k, k ∉ id_of (elements s) <$> L ->
       SModelIndex.getById ix k s' = (Normal (m !! k), s')).
Proof.
  intros Hp Hix Hm HL HpL Hanc.
  assert (p ∉ children el) as Hpc.
  { intros Hin. apply HpL. clear Hanc Hp. revert L HL HpL.
    induction (children el) as [|c cs IH]; intros L HL HpL.
    - by apply elem_of_nil in Hin.
    - cbn [collect] in HL.
      destruct (preorder fuel (elements s) c) as [a|] eqn:Ha; [|done].
      destruct (collect _ cs) as [b|] eqn:Hb; [|done]. injection HL as <-.
      apply elem_of_app. apply elem_of_cons in Hin as [->|Hin].
      + left. by eapply preorder_head.
      + right. apply (IH Hin b eq_refl). intros ?. apply HpL.
        apply elem_of_app. by right. }
  destruct (detach_all fuel p ix s (children el) Hix s m L)
    as (t & Hrun & _ & Hind & _ & _ & Hel); try done.
  assert (elements t !! p = Some el) as Hpt.
  { rewrite Hel, decide_False; done. }
  exists (with_children p [] t).
  assert (forall k,
            SModelIndex.getById ix k (with_children p [] t) =
            (Normal (delete_all (elements s) L m !! k), with_children p [] t))
    as Hget.
  { intros k. unfold SModelIndex.getById, bind, read_index, ret.
    destruct (with_children_rest p [] t) as (-> & _).
    by rewrite Hind, lookup_insert_eq. }
  split_and!.
  - unfold SParentElement.removeAll.
    rewrite (bind_normal _ _ s el s) by (unfold read_element; by rewrite Hp).
    rewrite (bind_normal _ _ _ _ _ Hrun). cbn beta.
    rewrite (bind_normal _ _ t el t) by (unfold read_element; by rewrite Hpt).
    rewrite splice_all. by apply (set_children_spec p [] t el).
  - rewrite with_children_elements, decide_True by done. by rewrite Hpt.
  - intros c Hc. rewrite with_children_elements.
    rewrite decide_False by (by intros ->). by rewrite Hel, decide_True.
  - intros x Hxp Hxc. rewrite with_children_elements, decide_False by done.
    by rewrite Hel, decide_False.
  - intros x Hx. rewrite Hget, delete_all_lookup.
    rewrite decide_True; [done|]. apply list_elem_of_fmap. by exists x.
  - intros k Hk. rewrite Hget, delete_all_lookup. by rewrite decide_False.
Qed.

Lemma removeAll_detaches_every_child_witness :
  exists s',
    SParentElement.removeAll 2 None 1%positive example_store =
      (Normal tt, s') /\
    children <$> elements s' !! 1%positive = Some [] /\
    SModelIndex.getById 10%positive "E1" s' = (Normal None, s').
Proof.
  destruct (removeAll_detaches_every_child 2 1%positive example_store
              (mkElement "root" "R" [2%positive] None (RootClass 10%positive)) 10%positive
              {["R"%string := 1%positive; "E1"%string := 2%positive]}
              [2%positive])
    as (s' & Hrun & Hcs & _ & _ & Hgone & _).
  - vm_compute. reflexivity.
  - vm_compute. reflexivity.
  - vm_compute. reflexivity.
  - vm_compute. reflexivity.
  - apply (bool_decide_unpack _); vm_compute; exact I.
  - apply Forall_forall. apply (bool_decide_unpack _); vm_compute; exact I.
  - exists s'. split_and!; [exact Hrun|exact Hcs|].
    apply (Hgone 2%positive). apply list_elem_of_here.
Defined.

End RemoveAllFacts.

Section RemoveAllFilterFacts.

Lemma with_children_view p cs s x :
  view (elements (with_children p cs s)) x = view (elements s) x.
Proof.
  unfold view. rewrite with_children_elements.
  destruct (decide (x = p)) as [->|]; [|done]. by destruct (elements s !! p).
Qed.

Lemma with_parent_view c q s x :
  view (elements (with_parent c q s)) x = view (elements s) x.
Proof.
  unfold view. rewrite with_parent_elements.
  destruct (decide (x = c)) as [->|]; [|done]. by destruct (elements s !! c).
Qed.

Lemma collect_app {A} (f : A -> option (list A)) l1 l2 L :
  collect f (l1 ++ l2) = Some L ->
  exists a b, collect f l1 = Some a /\ collect f l2 = Some b /\ L = a ++ b.
Proof.
  revert L. induction l1 as [|x l1 IH]; intros L; cbn.
  - intros H. by exists [], L.
  - destruct (f x) as [a|]; [|done].
    destruct (collect f (l1 ++ l2)) as [r|] eqn:Hr; [|done].
    intros [= <-]. destruct (IH r eq_refl) as (a' & b & -> & Hb & ->).
    exists (a ++ a'), b. by rewrite app_assoc.
Qed.

(** The body of the loop for a child the filter accepts. *)
Lemma removeAll_step fuel p c ix s t m' a pre K :
  SModelElement.index fuel p s = (Normal ix, s) ->
  same_tree fuel p s t ->
  same_view p s t ->
  indices t !! ix = Some m' ->
  children <$> elements t !! p = Some (pre ++ c :: K) ->
  preorder fuel (elements s) c = Some a ->
  p ∉ a ->
  c ∉ ancestors fuel (elements s) (Some p) ->
  exists t',
    bind (set_children p (pre ++ K))
         (fun _ => SParentElement.detach fuel p c) t = (Normal tt, t') /\
    same_tree fuel p s t' /\ same_view p s t' /\
    indices t' = <[ix := delete_all (elements s) a m']> (indices t) /\
    children <$> elements t' !! p = Some (pre ++ K) /\
    (forall x, x <> p ->
       elements t' !! x =
       if decide (x = c) then orphan <$> elements t !! x else elements t !! x).
Proof.
  intros Hix (Hlinks & Hch & Hids) Hview Hm Hcs Ha Hpa Hanc.
  assert (c <> p) as Hcp.
  { intros ->. by apply Hpa, (preorder_head fuel (elements s)). }
  destruct (elements t !! p) as [elp|] eqn:Hp; [|done].
  set (t1 := with_children p (pre ++ K) t).
  assert (same_tree fuel p s t1) as Hsame1.
  { unfold same_tree. split_and!.
    - intros x Hx. unfold t1. rewrite with_children_links. by apply Hlinks.
    - intros x Hx. unfold t1. rewrite with_children_children by done.
      by apply Hch.
    - intros x. unfold t1. by rewrite with_children_id_of. }
  destruct (with_children_rest p (pre ++ K) t) as (Hi1 & _).
  destruct (detach_step fuel p c ix s t1 m' a) as [Hrun Hsame2]; try done.
  { unfold t1. by rewrite Hi1. }
  eexists. split.
  { rewrite (bind_normal _ _ _ _ _ (set_children_spec p _ t elp Hp)).
    exact Hrun. }
  split; [exact Hsame2|]. split_and!.
  - intros x. cbn [elements with_index].
    rewrite with_parent_view, with_parent_children.
    unfold t1. rewrite with_children_view. split; [apply Hview|].
    intros Hx. rewrite with_children_children by done. by apply Hview.
  - cbn. destruct (with_parent_rest c None t1) as (-> & _). unfold t1.
    by rewrite Hi1.
  - cbn [elements with_index]. rewrite with_parent_children. unfold t1.
    rewrite with_children_elements, decide_True by done. by rewrite Hp.
  - intros x Hx. cbn [elements with_index].
    rewrite with_parent_None_elements. unfold t1.
    rewrite !with_children_elements.
    destruct (decide (c = p)) as [|_]; [done|].
    destruct (decide (x = p)) as [|_]; [done|].
    by destruct (decide (x = c)) as [->|].
Qed.

(** One iteration of the loop. *)
Lemma removeAll_loop_unfold fuel filter p i t elp c :
  elements t !! p = Some elp ->
  children elp !! i = Some c ->
  SParentElement.removeAll_loop fuel filter p (S i) t =
  if filter t c
  then bind (bind (set_children p (splice (Z.of_nat i) 1 [] (children elp)))
               (fun _ => SParentElement.detach fuel p c))
            (fun _ => SParentElement.removeAll_loop fuel filter p i) t
  else SParentElement.removeAll_loop fuel filter p i t.
Proof.
  intros Hp Hci. cbn [SParentElement.removeAll_loop].
  rewrite (bind_normal _ _ t elp t) by (unfold read_element; by rewrite Hp).
  rewrite Hci. unfold bind at 1. unfold bind at 1.
  unfold SParentElement.call_filter. by destruct (filter t c).
Qed.

(** The loop of [removeAll], with [n] positions left: the children are
    the first [n] of the array the loop started on, followed by the
    children it has kept. *)
Lemma removeAll_loop_run fuel filter p ix s cs :
  SModelElement.index fuel p s = (Normal ix, s) ->
  steady p filter ->
  forall n t m' K L,
    (n <= length cs)%nat ->
    same_tree fuel p s t ->
    same_view p s t ->
    indices t !! ix = Some m' ->
    children <$> elements t !! p = Some (take n cs ++ K) ->
    collect (preorder fuel (elements s))
      (reverse (List.filter (filter s) (take n cs))) = Some L ->
    p ∉ L ->
    (forall c, c ∈ take n cs -> filter s c = true ->
       c ∉ ancestors fuel (elements s) (Some p)) ->
    exists t',
      SParentElement.removeAll_loop fuel filter p n t = (Normal tt, t') /\
      indices t' = <[ix := delete_all (elements s) L m']> (indices t) /\
      children <$> elements t' !! p =
        Some (List.filter (fun c => negb (filter s c)) (take n cs) ++ K) /\
      (forall x, x <> p ->
         elements t' !! x =
         if decide (x ∈ List.filter (filter s) (take n cs))
         then orphan <$> elements t !! x else elements t !! x).
Proof.
  intros Hix Hsteady. induction n as [|i IH];
    intros t m' K L Hn Hsame Hview Hm Hcs HL HpL Hanc.
  - rewrite take_0 in *. cbn in HL. injection HL as <-. exists t.
    split_and!; try done. cbn. by rewrite insert_id.
  - destruct (lookup_lt_is_Some_2 cs i ltac:(lia)) as [c Hc].
    rewrite (take_S_r cs i c Hc) in *.
    rewrite List.filter_app, reverse_app in HL. cbn [List.filter] in HL.
    rewrite !List.filter_app. cbn [List.filter].
    rewrite <- app_assoc in Hcs. cbn [app] in Hcs.
    assert (length (take i cs) = i) as Hlen
      by (rewrite length_take; lia).
    destruct (elements t !! p) as [elp|] eqn:Hp; [|done].
    injection Hcs as Hcs.
    assert (children elp !! i = Some c) as Hci.
    { rewrite Hcs, lookup_app_r by lia. by rewrite Hlen, Nat.sub_diag. }
    assert (splice (Z.of_nat i) 1 [] (children elp) = take i cs ++ K) as Hsp.
    { rewrite splice_remove by (rewrite Hcs, length_app; cbn; lia).
      rewrite Nat2Z.id, Hcs. rewrite <- Hlen at 1.
      rewrite take_app_length.
      replace (S i) with (length (take i cs) + 1)%nat by lia.
      by rewrite drop_app_add. }
    rewrite (removeAll_loop_unfold fuel filter p i t elp c Hp Hci).
    rewrite (Hsteady s t Hview c), Hsp.
    destruct (filter s c) eqn:Hf; cbn [negb].
    + cbn [reverse app] in HL. rewrite reverse_singleton in HL.
      apply collect_app in HL as (a' & b & Ha' & Hb & ->). cbn in Ha'.
      destruct (preorder fuel (elements s) c) as [a|] eqn:Ha; [|done].
      injection Ha' as <-. rewrite app_nil_r in HpL.
      apply not_elem_of_app in HpL as [Hpa Hpb].
      destruct (removeAll_step fuel p c ix s t m' a (take i cs) K)
        as (t1 & Hrun & Hsame1 & Hview1 & Hind1 & Hcs1 & Hel1); try done.
      { rewrite Hp. cbn. by rewrite Hcs. }
      { apply Hanc; [|done]. apply elem_of_app. right. apply list_elem_of_here. }
      rewrite (bind_normal _ _ _ _ _ Hrun).
      destruct (IH t1 (delete_all (elements s) a m') K b)
        as (t' & Hrun' & Hind' & Hcs' & Hel'); try done; try lia.
      { by rewrite Hind1, lookup_insert_eq. }
      { intros x Hx. apply Hanc. apply elem_of_app. by left. }
      exists t'. split_and!; try done.
      * rewrite Hind', Hind1, insert_insert_eq.
        by rewrite app_nil_r, delete_all_app.
      * by rewrite app_nil_r.
      * intros x Hx. rewrite (Hel' x Hx), (Hel1 x Hx).
        destruct (decide (x = c)) as [->|Hxc].
        -- rewrite (decide_True (P := c ∈ _ ++ [c]))
             by (apply elem_of_app; right; apply list_elem_of_here).
           destruct (decide (c ∈ _)); [|done]. by destruct (elements t !! c).
        -- destruct (decide (x ∈ List.filter (filter s) (take i cs)))
             as [Hin|Hnin].
           ++ rewrite decide_True; [done|]. apply elem_of_app. by left.
           ++ rewrite decide_False; [done|]. rewrite elem_of_app.
              intros [?|Hin]; [done|]. by apply list_elem_of_singleton in Hin.
    + cbn [reverse app] in HL. cbn.
      destruct (IH t m' (c :: K) L) as (t' & Hrun' & Hind' & Hcs' & Hel');
        try done; try lia.
      { rewrite Hp. cbn. by rewrite Hcs. }
      { intros x Hx. apply Hanc. apply elem_of_app. by left. }
      exists t'. split_and!; try done.
      * by rewrite <- app_assoc.
      * intros x Hx. rewrite (Hel' x Hx). by rewrite app_nil_r.
Qed.

End RemoveAllFilterFacts.

Section RemoveAllFilter.

Lemma elem_of_filter (f : loc -> bool) (l : list loc) (x : loc) :
  x ∈ List.filter f l <-> x ∈ l /\ f x = true.
Proof. rewrite !list_elem_of_In. apply List.filter_In. Qed.

(** removeAll(filter) with a steady filter, when nothing is in its way:
    the parent has a root that is reached without passing a child the
    filter accepts, and the subtrees of these children are finite and do
    not hold the parent.  The
    call returns; the children are the children the filter rejects, in
    their old order; every child the filter accepts has no parent and is
    otherwise as it was; no other element has changed; and the index of
    the root has lost the ids of the subtrees of the accepted children,
    the other ids being as before. *)
Theorem removeAll_keeps_rejected fuel filter p s el ix m L :
  elements s !! p = Some el ->
  steady p filter ->
  SModelElement.index fuel p s = (Normal ix, s) ->
  indices s !! ix = Some m ->
  collect (preorder fuel (elements s))
    (reverse (List.filter (filter s) (children el))) = Some L ->
  p ∉ L ->
  (forall c, c ∈ children el -> filter s c = true ->
     c ∉ ancestors fuel (elements s) (Some p)) ->
  exists s',
    SParentElement.removeAll fuel (Some filter) p s = (Normal tt, s') /\
    children <$> elements s' !! p =
      Some (List.filter (fun c => negb (filter s c)) (children el)) /\
    (forall c, c ∈ children el -> filter s c = true ->
       elements s' !! c = orphan <$> elements s !! c) /\
    (forall x, x <> p -> (x ∈ children el -> filter s x = false) ->
       elements s' !! x = elements s !! x) /\
    (forall x, x ∈ L ->
       SModelIndex.getById ix (id_of (elements s) x) s' = (Normal None, s')) /\
    (forall k, k ∉ id_of (elements s) <$> L ->
       SModelIndex.getById ix k s' = (Normal (m !! k), s')).
Proof.
  intros Hp Hsteady Hix Hm HL HpL Hanc.
  assert (take (length (children el)) (children el) = children el) as Htake
    by (by apply take_ge).
  destruct (removeAll_loop_run fuel filter p ix s (children el) Hix Hsteady
              (length (children el)) s m [] L)
    as (s' & Hrun & Hind & Hcs & Hel); rewrite ?Htake; try done.
  { by rewrite Hp, app_nil_r. }
  rewrite Htake, app_nil_r in Hcs. rewrite Htake in Hel.
  assert (p ∉ List.filter (filter s) (children el)) as Hpf.
  { intros Hin. apply HpL. clear Hel Hanc Hind Hrun.
    apply elem_of_reverse in Hin.
    revert L HL HpL. induction (reverse _) as [|c cs IH]; intros L HL HpL.
    - by apply elem_of_nil in Hin.
    - cbn [collect] in HL.
      destruct (preorder fuel (elements s) c) as [a|] eqn:Ha; [|done].
      destruct (collect _ cs) as [b|] eqn:Hb; [|done]. injection HL as <-.
      apply elem_of_app. apply elem_of_cons in Hin as [->|Hin].
      + left. by eapply preorder_head.
      + right. apply (IH Hin b eq_refl). intros ?. apply HpL.
        apply elem_of_app. by right. }
  assert (forall k,
            SModelIndex.getById ix k s' =
            (Normal (delete_all (elements s) L m !! k), s')) as Hget.
  { intros k. unfold SModelIndex.getById, bind, read_index, ret.
    by rewrite Hind, lookup_insert_eq. }
  exists s'. split_and!.
  - unfold SParentElement.removeAll.
    by rewrite (bind_normal _ _ s el s)
      by (unfold read_element; by rewrite Hp).
  - done.
  - intros c Hc Hf.
    assert (c ∈ List.filter (filter s) (children el)) as Hin
      by (by apply elem_of_filter).
    rewrite Hel by (by intros ->). by rewrite decide_True.
  - intros x Hxp Hx. rewrite Hel by done. rewrite decide_False; [done|].
    rewrite elem_of_filter. intros [Hin Hf]. rewrite (Hx Hin) in Hf. done.
  - intros x Hx. rewrite Hget, delete_all_lookup.
    rewrite decide_True; [done|]. apply list_elem_of_fmap. by exists x.
  - intros k Hk. rewrite Hget, delete_all_lookup. by rewrite decide_False.
Qed.

Lemma removeAll_keeps_rejected_witness :
  exists s',
    SParentElement.removeAll 2
      (Some (fun s x => String.eqb (id_of (elements s) x) "B")) 1%positive
      example_family = (Normal tt, s') /\
    children <$> elements s' !! 1%positive = Some [2%positive; 4%positive] /\
    SModelIndex.getById 10%positive "B" s' = (Normal None, s') /\
    SModelIndex.getById 10%positive "C" s' = (Normal (Some 4%positive), s').
Proof.
  destruct (removeAll_keeps_rejected 2
              (fun s x => String.eqb (id_of (elements s) x) "B") 1%positive
              example_family
              (mkElement "root" "R" [2%positive; 3%positive; 4%positive] None
                 (RootClass 10%positive))
              10%positive
              {["R"%string := 1%positive; "A"%string := 2%positive;
                "B"%string := 3%positive; "C"%string := 4%positive]}
              [3%positive])
    as (s' & Hrun & Hcs & _ & _ & Hgone & Hkept).
  - vm_compute. reflexivity.
  - intros s t Hv x. destruct (Hv x) as [Hview _].
    unfold view in Hview. unfold id_of.
    destruct (elements t !! x) as [a|], (elements s !! x) as [b|];
      cbn in Hview; try done.
    injection Hview as _ Hid _. by rewrite Hid.
  - vm_compute. reflexivity.
  - vm_compute. reflexivity.
  - vm_compute. reflexivity.
  - apply (bool_decide_unpack _); vm_compute; exact I.
  - intros c Hc _. cbn in Hc. rewrite !elem_of_cons in Hc.
    destruct Hc as [->|[->|[->|Hc]]]; [..|by apply elem_of_nil in Hc];
      apply (bool_decide_unpack _); vm_compute; exact I.
  - exists s'. split_and!; [exact Hrun|exact Hcs| |].
    + apply (Hgone 3%positive). apply list_elem_of_here.
    + apply (Hkept "C"%string).
      apply (bool_decide_unpack _); vm_compute; exact I.
Defined.

End RemoveAllFilter.

Section MoreFacts.

Lemma get_lookup (s : string) (k : nat) :
  String.get k s = String.list_ascii_of_string s !! k.
Proof.
  revert k. induction s as [|c s IH]; intros [|k]; cbn; done.
Qed.

(** The alphabet has no character twice, so a random value in range is
    read off the character it selects. *)
Lemma charAt_inj (k1 k2 : nat) :
  (k1 < String.length ID_CHARS)%nat -> (k2 < String.length ID_CHARS)%nat ->
  charAt ID_CHARS k1 = charAt ID_CHARS k2 -> k1 = k2.
Proof.
  intros H1 H2. unfold charAt. rewrite !get_lookup.
  destruct (get_in_range ID_CHARS k1 H1) as (c1 & Hc1 & _).
  destruct (get_in_range ID_CHARS k2 H2) as (c2 & Hc2 & _).
  rewrite get_lookup in Hc1, Hc2. rewrite Hc1, Hc2. intros [= ->].
  assert (NoDup (String.list_ascii_of_string ID_CHARS)) as Hnd.
  { apply (bool_decide_unpack _). vm_compute. exact I. }
  by eapply NoDup_lookup.
Qed.

Lemma random_chars_inj (n : nat) (rnd1 rnd2 : nat -> nat) (k1 k2 : nat) :
  (forall j, (rnd1 j < String.length ID_CHARS)%nat) ->
  (forall j, (rnd2 j < String.length ID_CHARS)%nat) ->
  random_chars n rnd1 k1 = random_chars n rnd2 k2 ->
  forall j, (j < n)%nat -> rnd1 (k1 + j)%nat = rnd2 (k2 + j)%nat.
Proof.
  intros H1 H2. revert k1 k2. induction n as [|n IH]; intros k1 k2 Heq j Hj;
    [lia|].
  cbn [random_chars] in Heq.
  destruct (get_in_range ID_CHARS (rnd1 k1) (H1 k1)) as (c1 & Hc1 & _).
  destruct (get_in_range ID_CHARS (rnd2 k2) (H2 k2)) as (c2 & Hc2 & _).
  assert (charAt ID_CHARS (rnd1 k1) = String c1 EmptyString) as E1
    by (unfold charAt; by rewrite Hc1).
  assert (charAt ID_CHARS (rnd2 k2) = String c2 EmptyString) as E2
    by (unfold charAt; by rewrite Hc2).
  rewrite E1, E2 in Heq. rewrite !append_cons in Heq.
  injection Heq as Hc Hrest.
  destruct j as [|j].
  - rewrite !Nat.add_0_r. apply charAt_inj; [done..|]. by rewrite E1, E2, Hc.
  - replace (k1 + S j)%nat with (S k1 + j)%nat by lia.
    replace (k2 + S j)%nat with (S k2 + j)%nat by lia.
    apply IH; [exact Hrest|lia].
Qed.

(** createRandomId(length), for any length and any stream within the
    range of the alphabet: it returns an id of exactly this length over
    the alphabet, uses up exactly this many random values and changes
    nothing else; and two runs give the same id only if they drew the
    same values. *)
Theorem createRandomId_any_length n s :
  random_in_range s ->
  exists i,
    createRandomId n s =
      (Normal i, mkStore (elements s) (indices s) (random s) (n + drawn s)) /\
    String.length i = n /\ over_ID_CHARS i /\
    (forall t i',
       random_in_range t ->
       createRandomId n t =
         (Normal i', mkStore (elements t) (indices t) (random t) (n + drawn t)) ->
       i' = i ->
       forall j, (j < n)%nat ->
         random t (drawn t + j)%nat = random s (drawn s + j)%nat).
Proof.
  intros Hr. destruct (createRandomId_spec n s) as (i & Hrun & Hi).
  destruct (Hi Hr) as [Hlen Hover].
  exists i. split_and!; try done.
  intros t i' Ht Hrun' -> j Hj.
  rewrite createRandomId_value in Hrun, Hrun'.
  injection Hrun as <-. injection Hrun' as Heq.
  by apply (random_chars_inj n (random t) (random s)).
Qed.

Lemma createRandomId_any_length_witness :
  exists i,
    createRandomId 3 example_store =
      (Normal i,
       mkStore (elements example_store) (indices example_store)
         (random example_store) (3 + drawn example_store)) /\
    String.length i = 3%nat.
Proof.
  destruct (createRandomId_any_length 3 example_store) as (i & Hrun & Hlen & _).
  - intros k. change (k mod 36 < 36)%nat. apply Nat.mod_upper_bound. lia.
  - exists i. split; [exact Hrun|exact Hlen].
Defined.

(** What the [root] getter finds is a root: an SModelRoot object, whose
    own root it is and whose index the [index] getter answers; the store
    is untouched; more fuel gives the same answer; and every object on
    the way from the element to the root resolves to this same root. *)
Theorem root_is_shared fuel e s r s' :
  SModelElement.root fuel e s = (Normal r, s') ->
  s' = s /\
  (exists el ix,
     elements s !! r = Some el /\ cls el = RootClass ix /\
     SModelElement.index fuel e s = (Normal ix, s)) /\
  (forall k, SModelElement.root (fuel + k) e s = (Normal r, s)) /\
  (forall x, x ∈ ancestors fuel (elements s) (Some e) ->
     SModelElement.root fuel x s = (Normal r, s)).
Proof.
  unfold SModelElement.root. intros H.
  pose proof (root_from_same _ _ _ _ _ H) as ->.
  destruct (root_in_ancestors _ _ _ _ _ H) as (_ & el & ix & Hr & Hk).
  split_and!; try done.
  - exists el, ix. split_and!; try done.
    unfold SModelElement.index, SModelElement.root.
    rewrite (bind_normal _ _ _ _ _ H).
    rewrite (bind_normal _ _ s el s) by (unfold read_element; by rewrite Hr).
    by rewrite Hk.
  - intros k. by apply root_from_more_fuel.
  - clear el ix Hr Hk. revert e H.
    induction fuel as [|f IH]; intros e H x Hx; [by apply elem_of_nil in Hx|].
    cbn in H, Hx. unfold bind, read_element in H.
    destruct (elements s !! e) as [el|] eqn:He; [|done].
    apply elem_of_cons in Hx as [->|Hx].
    { cbn. unfold bind, read_element. by rewrite He. }
    destruct (cls el) eqn:Hk; try (by apply elem_of_nil in Hx).
    destruct (parent el) as [q|] eqn:Hq; cycle 1.
    { rewrite root_from_None in H. discriminate. }
    pose proof (IH q H x Hx) as Hroot.
    replace (S f) with (f + 1)%nat by lia.
    by apply root_from_more_fuel.
Qed.

Lemma root_is_shared_witness :
  SModelElement.index 2 2%positive example_store =
    (Normal 10%positive, example_store).
Proof.
  destruct (root_is_shared 2 2%positive example_store 1%positive example_store)
    as (_ & (el & ix & Hr & Hk & Hix) & _).
  - vm_compute. reflexivity.
  - vm_compute in Hr. injection Hr as <-. cbn in Hk. injection Hk as <-.
    exact Hix.
Defined.

(** What index.add never does, however it ends: it creates and loses no
    object, changes no type, children, parent or class, changes no id
    that is set, touches no other index, and deletes or overwrites no
    entry of its own index; and it throws nothing but
    DuplicateIdentifier, dangling references apart. *)
Theorem index_add_frame depth tries ix e s r s' :
  SModelIndex.add depth tries ix e s = (r, s') ->
  (forall x, is_Some (elements s' !! x) <-> is_Some (elements s !! x)) /\
  (forall x, links (elements s') x = links (elements s) x /\
             children <$> elements s' !! x = children <$> elements s !! x /\
             type <$> elements s' !! x = type <$> elements s !! x) /\
  (forall x, id_of (elements s) x <> EmptyString ->
     id_of (elements s') x = id_of (elements s) x) /\
  (forall j, j <> ix -> indices s' !! j = indices s !! j) /\
  (forall m i x, indices s !! ix = Some m -> m !! i = Some x ->
     exists m', indices s' !! ix = Some m' /\ m' !! i = Some x) /\
  (forall err, r = Throw err ->
     (exists i, err = DuplicateIdentifier i) \/ err = TypeError).
Proof.
  intros H.
  pose proof (preserves_add _ _ _ _ _ _ _ H)
    as ((Hobj & Hnone & _) & Hids & Hother & Hmap & _).
  split_and!; try done.
  - intros x. destruct (elements s !! x) as [a|] eqn:Ha.
    + destruct (Hobj x a Ha) as (b & -> & _). split; by eexists.
    + rewrite (Hnone x Ha). done.
  - intros x. unfold links. destruct (elements s !! x) as [a|] eqn:Ha.
    + destruct (Hobj x a Ha) as (b & -> & Ht & Hc & Hp & Hk). cbn.
      by rewrite Ht, Hc, Hp, Hk.
    + by rewrite (Hnone x Ha).
  - intros m i x Hm Hi. destruct (Hmap m Hm) as (m' & Hm' & Hsub).
    exists m'. split; [done|]. by eapply lookup_weaken.
  - intros err ->. by apply throws_only_index_add in H.
Qed.

Lemma index_add_frame_witness :
  exists m',
    indices (SModelIndex.add 2 1 10%positive 4%positive example_store).2
      !! 10%positive = Some m' /\
    m' !! "E1"%string = Some 2%positive.
Proof.
  destruct (index_add_frame 2 1 10%positive 4%positive example_store
              (Throw (DuplicateIdentifier "E1"))
              (SModelIndex.add 2 1 10%positive 4%positive example_store).2)
    as (_ & _ & _ & _ & Hkeep & _).
  - vm_compute. reflexivity.
  - apply (Hkeep {["R"%string := 1%positive; "E1"%string := 2%positive]}
             "E1"%string 2%positive).
    + vm_compute. reflexivity.
    + vm_compute. reflexivity.
Defined.

End MoreFacts.

Section MoveMore.

Lemma with_children_back p cs s el :
  elements s !! p = Some el ->
  with_children p (children el) (with_children p cs s) = s.
Proof.
  intros Hp. apply store_eq.
  - apply map_eq. intros x. rewrite !with_children_elements.
    destruct (decide (x = p)) as [->|]; [|done].
    rewrite !decide_True by done. rewrite Hp. cbn. by destruct el.
  - destruct (with_children_rest p (children el) (with_children p cs s))
      as (-> & _). by destruct (with_children_rest p cs s) as (-> & _).
  - destruct (with_children_rest p (children el) (with_children p cs s))
      as (_ & -> & _). by destruct (with_children_rest p cs s) as (_ & -> & _).
  - destruct (with_children_rest p (children el) (with_children p cs s))
      as (_ & _ & ->). by destruct (with_children_rest p cs s) as (_ & _ & ->).
Qed.

Lemma filter_others_middle (c : loc) (k : nat) (l : list loc) :
  List.filter (fun x => negb (bool_decide (x = c))) (take k l ++ c :: drop k l) =
  List.filter (fun x => negb (bool_decide (x = c))) l.
Proof.
  rewrite List.filter_app. cbn [List.filter].
  rewrite bool_decide_true by done. cbn [negb].
  by rewrite <- List.filter_app, take_drop.
Qed.

(** Round trip of move: in children without duplicates, move(child,
    newIndex) with a valid position returns with the child at exactly
    this position and the other children in their old order, and moving
    the child back to the position it came from gives back the store the
    two calls started from. *)
Theorem move_then_move_back p c n s el :
  elements s !! p = Some el ->
  NoDup (children el) ->
  c ∈ children el ->
  0 <= n <= Z.of_nat (length (children el)) - 1 ->
  exists s1 cs1,
    SParentElement.move p c n s = (Normal tt, s1) /\
    children <$> elements s1 !! p = Some cs1 /\
    indexOf cs1 c = n /\
    List.filter (fun x => negb (bool_decide (x = c))) cs1 =
      List.filter (fun x => negb (bool_decide (x = c))) (children el) /\
    SParentElement.move p c (indexOf (children el) c) s1 = (Normal tt, s).
Proof.
  intros Hp Hnd Hc Hn.
  destruct (splice_first_occurrence (children el) c Hc)
    as (l1 & l2 & Hsplit & Hc1 & Hidx & Hrest).
  assert (c ∉ l1 ++ l2) as Hcr.
  { rewrite Hsplit in Hnd. apply NoDup_app in Hnd as (_ & _ & Hnd2).
    apply NoDup_cons in Hnd2 as [Hc2 _]. intros Hin.
    apply elem_of_app in Hin as [?|?]; done. }
  assert (length (children el) = S (length (l1 ++ l2))) as Hlen.
  { rewrite Hsplit, !length_app. cbn. lia. }
  set (k := Z.to_nat n).
  set (cs1 := take k (l1 ++ l2) ++ c :: drop k (l1 ++ l2)).
  assert (length (take k (l1 ++ l2)) = k) as Hk.
  { rewrite length_take. unfold k. lia. }
  assert (c ∉ take k (l1 ++ l2)) as Hck.
  { intros Hin. apply Hcr. by eapply subseteq_take. }
  assert (SParentElement.move p c n s = (Normal tt, with_children p cs1 s))
    as Hrun.
  { rewrite (move_spec p c n s el Hp).
    destruct (indexOf (children el) c =? -1) eqn:E.
    { apply Z.eqb_eq in E. lia. }
    replace ((n <? 0) || (n >? Z.of_nat (length (children el)) - 1))
      with false by (symmetry; apply orb_false_iff; lia).
    rewrite Hrest, splice_insert by lia. done. }
  assert (indexOf cs1 c = n) as Hidx1.
  { unfold cs1. rewrite (indexOf_middle _ _ _ Hck), Hk. unfold k. lia. }
  destruct (with_children_lookup p cs1 s el Hp) as (Hp1 & _ & _).
  exists (with_children p cs1 s), cs1. split_and!; try done.
  - by rewrite Hp1.
  - unfold cs1. rewrite filter_others_middle, Hsplit.
    rewrite !List.filter_app. cbn [List.filter].
    by rewrite bool_decide_true by done.
  - rewrite (move_spec p c _ _ _ Hp1). cbn [children].
    rewrite Hidx1.
    destruct (n =? -1) eqn:E; [apply Z.eqb_eq in E; lia|].
    assert (length cs1 = length (children el)) as Hlen1.
    { unfold cs1. rewrite length_app. cbn. rewrite length_take, length_drop.
      rewrite Hlen. unfold k. lia. }
    replace ((indexOf (children el) c <? 0) ||
             (indexOf (children el) c >? Z.of_nat (length cs1) - 1))
      with false
      by (symmetry; apply orb_false_iff; rewrite Hidx, Hlen1, Hlen, length_app;
          split; [apply Z.ltb_ge; lia|rewrite Z.gtb_ltb; apply Z.ltb_ge; lia]).
    assert (splice n 1 [] cs1 = l1 ++ l2) as ->.
    { rewrite splice_remove by lia. fold k. unfold cs1.
      rewrite <- Hk at 1. rewrite take_app_length.
      replace (S k) with (length (take k (l1 ++ l2)) + 1)%nat by lia.
      rewrite drop_app_add. cbn. rewrite drop_0. apply take_drop. }
    rewrite Hidx, splice_insert by (rewrite length_app; lia).
    rewrite Nat2Z.id, take_app_length, drop_app_length, <- Hsplit.
    by rewrite (with_children_back p cs1 s el Hp).
Qed.

Lemma move_then_move_back_witness :
  exists s1,
    SParentElement.move 1%positive 2%positive 2 example_family =
      (Normal tt, s1) /\
    children <$> elements s1 !! 1%positive =
      Some [3%positive; 4%positive; 2%positive] /\
    SParentElement.move 1%positive 2%positive 0 s1 =
      (Normal tt, example_family).
Proof.
  destruct (move_then_move_back 1%positive 2%positive 2 example_family
              (mkElement "root" "R" [2%positive; 3%positive; 4%positive] None
                 (RootClass 10%positive)))
    as (s1 & cs1 & Hrun & _ & _ & _ & Hback).
  - vm_compute. reflexivity.
  - apply (bool_decide_unpack _); vm_compute; exact I.
  - apply list_elem_of_here.
  - cbn. lia.
  - exists s1. split_and!; [exact Hrun| |exact Hback].
    assert (s1 = (SParentElement.move 1%positive 2%positive 2
                    example_family).2) as ->
      by (by rewrite Hrun).
    vm_compute. reflexivity.
Defined.

End MoveMore.

(** * Registration of a subtree, with or without ids *)

Section SubtreeRegistration.

Local Arguments candidate : simpl never.

(** The retry loop does not throw on an element and an index that
    exist. *)
Lemma assign_random_id_no_throw tries ix e :
  forall s el m err s',
    elements s !! e = Some el -> indices s !! ix = Some m ->
    SModelIndex.assign_random_id tries ix e s <> (Throw err, s').
Proof.
  induction tries as [|t IH]; intros s el m err s' He Hm; [discriminate|].
  cbn [SModelIndex.assign_random_id].
  rewrite (bind_normal _ _ _ _ _ (createRandomId_value default_length s)).
  set (i := random_chars default_length (random s) (drawn s)).
  set (s0 := mkStore (elements s) (indices s) (random s)
                     (default_length + drawn s)).
  rewrite (bind_normal _ _ _ _ _ (set_id_spec e i s0 el He)). cbn.
  set (el1 := mkElement (type el) i (children el) (parent el) (cls el)).
  set (s1 := mkStore (<[e := el1]> (elements s)) (indices s) (random s)
                     (default_length + drawn s)).
  assert (elements s1 !! e = Some el1) as He1 by apply lookup_insert_eq.
  rewrite (bind_normal _ _ _ _ _ (contains_spec ix e s1 el1 m He1 Hm)).
  case_bool_decide; [by apply (IH s1 el1 m)|discriminate].
Qed.

(** The retry loop when the first id it draws is not registered. *)
Lemma assign_random_id_first t ix e s el m :
  elements s !! e = Some el -> indices s !! ix = Some m ->
  m !! candidate s 0 = None ->
  SModelIndex.assign_random_id (S t) ix e s =
  (Normal tt,
   mkStore
     (<[e := mkElement (type el) (candidate s 0) (children el) (parent el)
               (cls el)]> (elements s))
     (indices s) (random s) (default_length + drawn s)).
Proof.
  intros He Hm Hfree. cbn [SModelIndex.assign_random_id].
  rewrite (bind_normal _ _ _ _ _ (createRandomId_value default_length s)).
  assert (candidate s 0 = random_chars default_length (random s) (drawn s))
    as Hi by (unfold candidate; by rewrite Nat.mul_0_r, Nat.add_0_r).
  rewrite <- Hi.
  set (s0 := mkStore (elements s) (indices s) (random s)
                     (default_length + drawn s)).
  rewrite (bind_normal _ _ _ _ _ (set_id_spec e (candidate s 0) s0 el He)).
  cbn.
  set (el1 := mkElement (type el) (candidate s 0) (children el) (parent el)
                (cls el)).
  set (s1 := mkStore (<[e := el1]> (elements s)) (indices s) (random s)
                     (default_length + drawn s)).
  assert (elements s1 !! e = Some el1) as He1 by apply lookup_insert_eq.
  rewrite (bind_normal _ _ _ _ _ (contains_spec ix e s1 el1 m He1 Hm)).
  rewrite bool_decide_eq_false_2; [done|].
  change (id el1) with (candidate s 0). rewrite Hfree. by intros [? ?].
Qed.

Lemma register_first t ix e s el m :
  elements s !! e = Some el -> id el = EmptyString ->
  indices s !! ix = Some m ->
  m !! candidate s 0 = None ->
  SModelIndex.register (S t) ix e s =
  (Normal tt,
   mkStore
     (<[e := mkElement (type el) (candidate s 0) (children el) (parent el)
               (cls el)]> (elements s))
     (<[ix := <[candidate s 0 := e]> m]> (indices s))
     (random s) (default_length + drawn s)).
Proof.
  intros He Hid Hm Hfree. unfold SModelIndex.register.
  rewrite (bind_normal _ _ s el s) by (unfold read_element; by rewrite He).
  rewrite Hid. cbn [String.eqb].
  rewrite (bind_normal _ _ _ _ _ (assign_random_id_first t ix e s el m He Hm Hfree)).
  unfold bind, read_element, read_index, write_index.
  cbn [elements indices random drawn]. rewrite lookup_insert_eq.
  cbn [elements indices random drawn id]. by rewrite Hm.
Qed.

(** [register], case by case: what it has done when it returns, when
    it throws and when its retry loop has not ended. *)
Lemma register_inv tries ix e s el m r s' :
  random_in_range s ->
  elements s !! e = Some el -> indices s !! ix = Some m ->
  SModelIndex.register tries ix e s = (r, s') ->
  match r with
  | Normal _ =>
      exists i,
        i <> EmptyString /\ m !! i = None /\
        indices s' !! ix = Some (<[i := e]> m) /\
        id_of (elements s') e = i
  | Throw err =>
      s' = s /\ id el <> EmptyString /\ is_Some (m !! id el) /\
      err = DuplicateIdentifier (id el)
  | Diverge => id el = EmptyString /\ indices s' = indices s
  end.
Proof.
  intros Hr He Hm H. destruct (decide (id el = EmptyString)) as [Hid|Hid].
  - pose proof H as H0. revert H. unfold SModelIndex.register.
    rewrite (bind_normal _ _ s el s) by (unfold read_element; by rewrite He).
    rewrite Hid. cbn [String.eqb]. unfold bind at 1.
    destruct (SModelIndex.assign_random_id tries ix e s) as [[[]|err|] s1] eqn:Ha.
    + destruct (assign_random_id_spec _ _ _ _ _ _ He Ha)
        as (i & m0 & Hm0 & Hfresh & Hi & Hel & Hind & Hrand).
      rewrite Hm in Hm0. injection Hm0 as <-.
      unfold bind, read_element, read_index, write_index.
      rewrite Hel, lookup_insert_eq, Hind, Hm. intros [= <- <-]. cbn.
      exists i. split_and!; try done.
      * destruct (Hi Hr) as [Hlen _]. intros ->. discriminate Hlen.
      * by rewrite lookup_insert_eq.
      * by rewrite Hel, id_of_set_id_eq.
    + by apply (assign_random_id_no_throw _ _ _ _ _ _ _ _ He Hm) in Ha.
    + intros [= <- <-]. split; [done|].
      by destruct (preserves_assign_random_id _ _ _ _ _ _ Ha) as (_ & _ & ->).
  - destruct (m !! id el) as [x|] eqn:Hx.
    + rewrite (register_duplicate tries ix e s el m) in H by eauto.
      injection H as <- <-. by split_and!.
    + rewrite (register_fresh tries ix e s el m) in H by eauto.
      injection H as <- <-. exists (id el). split_and!; try done.
      * cbn. by rewrite lookup_insert_eq.
      * cbn. unfold id_of. by rewrite He.
Qed.

Lemma fresh_ids_nil (h : gmap loc SModelElement) m : fresh_ids h m [].
Proof. split; constructor. Qed.

Lemma fresh_ids_cons_2 (h : gmap loc SModelElement) m x l :
  id_of h x <> EmptyString -> m !! id_of h x = None ->
  fresh_ids h (<[id_of h x := x]> m) l ->
  fresh_ids h m (x :: l).
Proof.
  intros Hx Hmx [Hall Hnd]. split.
  - constructor; [done|]. eapply Forall_impl; [exact Hall|].
    intros y [Hy1 Hy2]. split; [done|].
    by apply lookup_insert_None in Hy2 as [? _].
  - cbn. constructor; [|done]. intros Hin.
    apply list_elem_of_fmap in Hin as (y & Heq & Hy).
    rewrite Forall_forall in Hall. destruct (Hall y Hy) as [_ Hy2].
    rewrite <- Heq, lookup_insert_eq in Hy2. done.
Qed.

Lemma same_objects_is_Some s s' x :
  same_objects s s' -> is_Some (elements s !! x) -> is_Some (elements s' !! x).
Proof.
  intros (H & _) [a Ha]. destruct (H x a Ha) as (b & Hb & _). by eexists.
Qed.

(** Every run of the registrations of [index.add]: the elements of a
    prefix of the list are registered, one entry each, under ids that are
    set, distinct and were not registered; the run has returned if that
    is the whole list, has thrown DuplicateIdentifier at the next element
    if the id of this one is registered by then, and is in the retry loop
    of the next element otherwise. *)
Lemma for_of_register_any tries ix l :
  forall s m r s',
    random_in_range s -> indices s !! ix = Some m ->
    Forall (fun x => is_Some (elements s !! x)) l ->
    for_of l (SModelIndex.register tries ix) s = (r, s') ->
    exists l1 l2,
      l = l1 ++ l2 /\
      indices s' !! ix = Some (set_all (elements s') l1 m) /\
      fresh_ids (elements s') m l1 /\
      match r with
      | Normal _ => l2 = []
      | Throw err =>
          exists x l2',
            l2 = x :: l2' /\
            err = DuplicateIdentifier (id_of (elements s') x) /\
            id_of (elements s') x <> EmptyString /\
            is_Some (set_all (elements s') l1 m !! id_of (elements s') x)
      | Diverge =>
          exists x l2',
            l2 = x :: l2' /\ (x ∉ l1) /\ id_of (elements s) x = EmptyString
      end.
Proof.
  induction l as [|x rest IH]; intros s m r s' Hr Hm Hex H.
  - cbn in H. injection H as <- <-. exists [], []. split_and!; try done.
    apply fresh_ids_nil.
  - apply Forall_cons in Hex as [[el He] Hex].
    cbn [for_of] in H. unfold bind in H.
    destruct (SModelIndex.register tries ix x s) as [r1 s1] eqn:Hreg.
    pose proof (preserves_register _ _ _ _ _ _ Hreg) as Hfr1.
    pose proof (register_inv _ _ _ _ _ _ _ _ Hr He Hm Hreg) as Hinv.
    destruct r1 as [[]|err|].
    + destruct Hinv as (i & Hi & Hfree & Hm1 & Hid1).
      assert (random_in_range s1) as Hr1.
      { destruct Hfr1 as ((_ & _ & Hrand) & _). intros k. rewrite Hrand.
        apply Hr. }
      assert (Forall (fun y => is_Some (elements s1 !! y)) rest) as Hex1.
      { eapply Forall_impl; [exact Hex|]. intros y.
        apply same_objects_is_Some, Hfr1. }
      pose proof (preserves_for_of (index_frame ix) rest _
                    (preserves_register tries ix) _ _ _ H) as Hfr2.
      destruct (IH s1 (<[i := x]> m) r s' Hr1 Hm1 Hex1 H)
        as (l1 & l2 & -> & Hidx & Hfresh & Hcase).
      assert (id_of (elements s') x = i) as Hid'.
      { destruct Hfr2 as (_ & Hids & _). rewrite <- Hid1. apply Hids.
        by rewrite Hid1. }
      exists (x :: l1), l2. split_and!; try done.
      * unfold set_all. cbn [foldl]. by rewrite Hid'.
      * apply fresh_ids_cons_2; rewrite Hid'; done.
      * destruct r as [[]|err|]; [done| |].
        -- destruct Hcase as (y & l2' & -> & -> & Hy & Hdup).
           exists y, l2'. split_and!; try done.
           unfold set_all. cbn [foldl]. by rewrite Hid'.
        -- destruct Hcase as (y & l2' & -> & Hy & Hyid).
           exists y, l2'. split_and!; try done.
           ++ apply not_elem_of_cons. split; [|done]. intros ->.
              rewrite Hid1 in Hyid. done.
           ++ destruct Hfr1 as (_ & Hids & _).
              destruct (decide (id_of (elements s) y = EmptyString)); [done|].
              rewrite <- Hyid. symmetry. by apply Hids.
    + injection H as <- <-. destruct Hinv as (-> & Hid & Hdup & ->).
      exists [], (x :: rest). split_and!; try done; [apply fresh_ids_nil|].
      exists x, rest. unfold id_of. rewrite He. by split_and!.
    + injection H as <- <-. destruct Hinv as (Hid & Hind).
      exists [], (x :: rest). split_and!; try done.
      * by rewrite Hind.
      * apply fresh_ids_nil.
      * exists x, rest. split_and!; [done|apply not_elem_of_nil|].
        unfold id_of. by rewrite He.
Qed.

(** The ids of a plan, when ids and candidates are read elsewhere. *)
Lemma planned_ids_ext (h h' : gmap loc SModelElement) cand cand' l :
  forall j j',
    (forall y, y ∈ l -> id_of h' y = id_of h y) ->
    (forall k, cand' (j' + k)%nat = cand (j + k)%nat) ->
    planned_ids h' cand' j' l = planned_ids h cand j l.
Proof.
  induction l as [|x rest IH]; intros j j' Hid Hc; [done|].
  cbn [planned_ids]. rewrite (Hid x) by apply list_elem_of_here.
  assert (forall y, y ∈ rest -> id_of h' y = id_of h y) as Hid'
    by (intros y Hy; by apply Hid, list_elem_of_further).
  destruct (String.eqb (id_of h x) EmptyString).
  - f_equal.
    + specialize (Hc 0%nat). by rewrite !Nat.add_0_r in Hc.
    + apply IH; [done|]. intros k.
      replace (S j' + k)%nat with (j' + S k)%nat by lia.
      replace (S j + k)%nat with (j + S k)%nat by lia. apply Hc.
  - f_equal. by apply IH.
Qed.

(** Registering elements whose ids, carried or drawn, are all fresh:
    every one is registered, the elements without id under the candidates
    of the stream in turn. *)
Lemma for_of_register_planned t ix l :
  forall s m,
    indices s !! ix = Some m ->
    Forall (fun x => is_Some (elements s !! x)) l ->
    plan_fresh s m l ->
    exists s',
      for_of l (SModelIndex.register (S t) ix) s = (Normal tt, s') /\
      id_of (elements s') <$> l =
        planned_ids (elements s) (candidate s) 0 l /\
      (forall y, y ∉ l -> elements s' !! y = elements s !! y).
Proof.
  induction l as [|x rest IH]; intros s m Hm Hex (Hnd & Hpnd & Hfree).
  - exists s. by split_and!.
  - apply Forall_cons in Hex as [[el He] Hex].
    apply NoDup_cons in Hnd as [Hx Hnd].
    cbn [planned_ids] in Hpnd, Hfree.
    assert (id_of (elements s) x = id el) as Hidx
      by (unfold id_of; by rewrite He).
    rewrite Hidx in Hpnd, Hfree.
    destruct (String.eqb (id el) EmptyString) eqn:E.
    + apply String.eqb_eq in E.
      apply NoDup_cons in Hpnd as [Hc Hpnd].
      apply Forall_cons in Hfree as [Hc0 Hfree].
      pose proof (register_first t ix x s el m He E Hm Hc0) as Hreg.
      set (el1 := mkElement (type el) (candidate s 0) (children el)
                    (parent el) (cls el)) in *.
      set (s1 := mkStore (<[x := el1]> (elements s))
                   (<[ix := <[candidate s 0 := x]> m]> (indices s))
                   (random s) (default_length + drawn s)) in *.
      assert (planned_ids (elements s1) (candidate s1) 0 rest =
              planned_ids (elements s) (candidate s) 1 rest) as Hplan.
      { apply planned_ids_ext.
        - intros y Hy. apply id_of_set_id_ne. by intros ->.
        - intros k. unfold candidate. cbn [random drawn s1]. f_equal.
          unfold default_length. lia. }
      destruct (IH s1 (<[candidate s 0 := x]> m)) as (s' & Hrun & Hids & Hrest).
      * apply lookup_insert_eq.
      * eapply Forall_impl; [exact Hex|]. intros y Hy. cbn [elements s1].
        destruct (decide (y = x)) as [->|Hne].
        -- rewrite lookup_insert_eq. by eexists.
        -- by rewrite lookup_insert_ne.
      * split_and!; [done|by rewrite Hplan|]. rewrite Hplan.
        rewrite Forall_forall in Hfree |- *. intros i Hi.
        rewrite lookup_insert_ne; [by apply Hfree|]. by intros <-.
      * exists s'. split_and!.
        -- cbn [for_of]. by rewrite (bind_normal _ _ _ _ _ Hreg).
        -- cbn [fmap list_fmap planned_ids]. rewrite Hidx, E.
           cbn [String.eqb]. f_equal; [|by rewrite <- Hplan].
           unfold id_of. rewrite (Hrest x Hx). cbn [elements s1].
           by rewrite lookup_insert_eq.
        -- intros y Hy. apply not_elem_of_cons in Hy as [Hyx Hy].
           rewrite (Hrest y Hy). cbn [elements s1].
           by rewrite lookup_insert_ne.
    + apply String.eqb_neq in E.
      apply NoDup_cons in Hpnd as [Hc Hpnd].
      apply Forall_cons in Hfree as [Hc0 Hfree].
      pose proof (register_fresh (S t) ix x s el m He E Hm Hc0) as Hreg.
      set (s1 := with_index ix (<[id el := x]> m) s) in *.
      assert (planned_ids (elements s1) (candidate s1) 0 rest =
              planned_ids (elements s) (candidate s) 0 rest) as Hplan.
      { apply planned_ids_ext; [done|]. intros k. reflexivity. }
      destruct (IH s1 (<[id el := x]> m)) as (s' & Hrun & Hids & Hrest).
      * apply lookup_insert_eq.
      * exact Hex.
      * split_and!; [done|by rewrite Hplan|]. rewrite Hplan.
        rewrite Forall_forall in Hfree |- *. intros i Hi.
        rewrite lookup_insert_ne; [by apply Hfree|]. by intros <-.
      * exists s'. split_and!.
        -- cbn [for_of]. by rewrite (bind_normal _ _ _ _ _ Hreg).
        -- cbn [fmap list_fmap planned_ids]. rewrite Hidx.
           apply String.eqb_neq in E. rewrite E.
           f_equal; [|by rewrite <- Hplan].
           unfold id_of. rewrite (Hrest x Hx). cbn [elements s1 with_index].
           by rewrite He.
        -- intros y Hy. apply not_elem_of_cons in Hy as [Hyx Hy].
           by rewrite (Hrest y Hy).
Qed.

(** Registering stops at the first element whose id is registered or
    is carried or drawn by an element before it. *)
Lemma for_of_register_collision t ix l1 x l2 s m :
  random_in_range s -> indices s !! ix = Some m ->
  Forall (fun y => is_Some (elements s !! y)) (l1 ++ x :: l2) ->
  plan_fresh s m l1 ->
  x ∉ l1 ->
  id_of (elements s) x <> EmptyString ->
  is_Some (m !! id_of (elements s) x) \/
  id_of (elements s) x ∈ planned_ids (elements s) (candidate s) 0 l1 ->
  exists s',
    for_of (l1 ++ x :: l2) (SModelIndex.register (S t) ix) s =
      (Throw (DuplicateIdentifier (id_of (elements s) x)), s') /\
    id_of (elements s') <$> l1 =
      planned_ids (elements s) (candidate s) 0 l1 /\
    indices s' !! ix = Some (set_all (elements s') l1 m) /\
    size (set_all (elements s') l1 m) = (size m + length l1)%nat /\
    index_frame ix s s' /\
    (l1 = [] -> s' = s).
Proof.
  intros Hr Hm Hex Hplan Hx Hid Hdup.
  apply Forall_app in Hex as [Hex1 Hex2].
  apply Forall_cons in Hex2 as [[el He] _].
  destruct (for_of_register_planned t ix l1 s m Hm Hex1 Hplan)
    as (s1 & Hrun & Hids & Hrest).
  pose proof (preserves_for_of (index_frame ix) l1 _
                (preserves_register (S t) ix) _ _ _ Hrun) as Hframe.
  destruct (for_of_register_any (S t) ix l1 s m _ s1 Hr Hm Hex1 Hrun)
    as (l1' & l2' & Hsplit & Hidx & Hfresh & ->).
  rewrite app_nil_r in Hsplit. subst l1'.
  destruct (set_all_fresh _ _ _ Hfresh) as (Hsize & Hsub & Hin & Hdom).
  assert (elements s1 !! x = Some el) as He1 by (by rewrite (Hrest x Hx)).
  assert (id_of (elements s) x = id el) as Hidx'
    by (unfold id_of; by rewrite He).
  exists s1. split_and!; try done.
  - rewrite for_of_app. rewrite (bind_normal _ _ _ _ _ Hrun).
    cbn [for_of]. apply bind_throw. rewrite Hidx'.
    apply (register_duplicate (S t) ix x s1 el
             (set_all (elements s1) l1 m) He1); [congruence|done|].
    apply Hdom. rewrite Hids, <- Hidx'. destruct Hdup; [by left|by right].
  - intros ->. cbn in Hrun. by injection Hrun as <-.
Qed.

Lemma example_family_in_range : random_in_range example_family.
Proof.
  intros k. change (k mod 36 < 36)%nat. apply Nat.mod_upper_bound. lia.
Qed.

(** C2, amended.  One call of index.add on a pre-built subtree of N
    elements, some of which may have no id, with the random values any
    stream within the range of the alphabet.

    However the call ends, the elements visited so far, a prefix of the
    subtree in preorder, are registered, one entry each, under ids that
    are set, distinct and were not registered before, nothing else has
    changed in the index, and no id that was set has changed.  If the
    call returns, the prefix is the whole subtree: exactly N ids have
    been added.  If it throws, it throws DuplicateIdentifier for the id
    of the next element, which is registered by then, and the elements
    before it stay registered: the index is as before the call only when
    the failing element is the root of the subtree.  Otherwise the retry
    loop of the next element, which had no id, has not ended.

    The call returns when the subtree has no element twice and the ids
    its elements carry, together with the ids the stream offers those
    without id, differ from one another and are not registered; every
    element without id then carries the id offered to it.  The call
    throws DuplicateIdentifier at the first element whose id is
    registered or is carried or drawn by an element before it, when the
    elements before it satisfy this condition. *)
Theorem C2_add_subtree depth tries ix e s m l :
  random_in_range s ->
  indices s !! ix = Some m ->
  preorder depth (elements s) e = Some l ->
  (forall r s',
     SModelIndex.add depth tries ix e s = (r, s') ->
     exists l1 l2,
       l = l1 ++ l2 /\
       indices s' !! ix = Some (set_all (elements s') l1 m) /\
       (forall j, j <> ix -> indices s' !! j = indices s !! j) /\
       size (set_all (elements s') l1 m) = (size m + length l1)%nat /\
       m ⊆ set_all (elements s') l1 m /\
       (forall x, x ∈ l1 ->
          id_of (elements s') x <> EmptyString /\
          m !! id_of (elements s') x = None /\
          set_all (elements s') l1 m !! id_of (elements s') x = Some x) /\
       (forall i, is_Some (set_all (elements s') l1 m !! i) <->
                  is_Some (m !! i) \/ i ∈ id_of (elements s') <$> l1) /\
       (forall x, id_of (elements s) x <> EmptyString ->
          id_of (elements s') x = id_of (elements s) x) /\
       match r with
       | Normal _ => l2 = []
       | Throw err =>
           exists x l2',
             l2 = x :: l2' /\
             err = DuplicateIdentifier (id_of (elements s') x) /\
             id_of (elements s') x <> EmptyString /\
             is_Some (set_all (elements s') l1 m !! id_of (elements s') x)
       | Diverge =>
           exists x l2',
             l2 = x :: l2' /\ id_of (elements s) x = EmptyString
       end) /\
  ((0 < tries)%nat ->
   plan_fresh s m l ->
   exists s',
     SModelIndex.add depth tries ix e s = (Normal tt, s') /\
     id_of (elements s') <$> l =
       planned_ids (elements s) (candidate s) 0 l) /\
  ((0 < tries)%nat ->
   forall l1 x l2,
     l = l1 ++ x :: l2 ->
     plan_fresh s m l1 ->
     x ∉ l1 ->
     id_of (elements s) x <> EmptyString ->
     is_Some (m !! id_of (elements s) x) \/
     id_of (elements s) x ∈ planned_ids (elements s) (candidate s) 0 l1 ->
     exists s',
       SModelIndex.add depth tries ix e s =
         (Throw (DuplicateIdentifier (id_of (elements s) x)), s') /\
       id_of (elements s') <$> l1 =
         planned_ids (elements s) (candidate s) 0 l1 /\
       indices s' !! ix = Some (set_all (elements s') l1 m) /\
       size (set_all (elements s') l1 m) = (size m + length l1)%nat /\
       (l1 = [] -> s' = s)).
Proof.
  intros Hr Hm Hl. rewrite (add_preorder depth tries ix e s l Hl).
  pose proof (preorder_objects _ _ _ _ Hl) as Hex.
  split_and!.
  - intros r s' H.
    pose proof (preserves_for_of (index_frame ix) l _
                  (preserves_register tries ix) _ _ _ H)
      as (_ & Hids & Hother & _).
    destruct (for_of_register_any tries ix l s m r s' Hr Hm Hex H)
      as (l1 & l2 & Hsplit & Hidx & Hfresh & Hcase).
    destruct (set_all_fresh _ _ _ Hfresh) as (Hsize & Hsub & Hin & Hdom).
    exists l1, l2. split_and!; try done.
    + intros x Hx. destruct Hfresh as [Hall _].
      rewrite Forall_forall in Hall. destruct (Hall x Hx).
      split_and!; [done..|]. by apply Hin.
    + destruct r as [[]|err|]; [done|done|].
      destruct Hcase as (x & l2' & ? & _ & ?). by exists x, l2'.
  - intros Htries Hplan. destruct tries as [|t]; [lia|].
    destruct (for_of_register_planned t ix l s m Hm Hex Hplan)
      as (s' & Hrun & Hids & _).
    by exists s'.
  - intros Htries l1 x l2 -> Hplan Hx Hid Hdup. destruct tries as [|t]; [lia|].
    destruct (for_of_register_collision t ix l1 x l2 s m Hr Hm Hex Hplan Hx
                Hid Hdup) as (s' & Hrun & Hids & Hidx & Hsize & _ & Hnil).
    by exists s'.
Qed.

Lemma C2_add_subtree_witness :
  exists s',
    SModelIndex.add 2 1 10%positive 11%positive example_family =
      (Normal tt, s') /\
    id_of (elements s') <$> [11%positive; 12%positive; 13%positive] =
      ["E5"%string; "01234567"%string; "E6"%string] /\
    size (id2element s' 10%positive) = 7%nat.
Proof.
  destruct (C2_add_subtree 2 1 10%positive 11%positive example_family
              {["R"%string := 1%positive; "A"%string := 2%positive;
                "B"%string := 3%positive; "C"%string := 4%positive]}
              [11%positive; 12%positive; 13%positive])
    as (Hany & Hreturns & _).
  - exact example_family_in_range.
  - vm_compute. reflexivity.
  - vm_compute. reflexivity.
  - destruct Hreturns as (s' & Hrun & Hids).
    + lia.
    + split_and!; apply (bool_decide_unpack _); vm_compute; exact I.
    + destruct (Hany _ _ Hrun)
        as (l1 & l2 & Hsplit & Hidx & _ & Hsize & _ & _ & _ & _ & ->).
      rewrite app_nil_r in Hsplit. subst l1.
      exists s'. split_and!; [exact Hrun|exact Hids|].
      unfold id2element. rewrite Hidx. exact Hsize.
Defined.

End SubtreeRegistration.

(** * A duplicate id under the child that is added *)

Section AttachFailure.

Local Arguments candidate : simpl never.

Lemma attached_stream p c cs s :
  random (attached p c cs s) = random s /\
  drawn (attached p c cs s) = drawn s.
Proof.
  unfold attached.
  destruct (with_parent_rest c (Some p) (with_children p cs s))
    as (_ & -> & ->).
  by destruct (with_children_rest p cs s) as (_ & -> & ->).
Qed.

Lemma attached_planned_ids p c cs s j l :
  planned_ids (elements (attached p c cs s)) (candidate (attached p c cs s))
    j l =
  planned_ids (elements s) (candidate s) j l.
Proof.
  apply planned_ids_ext.
  - intros y _. apply attached_id_of.
  - intros k. unfold candidate.
    by destruct (attached_stream p c cs s) as [-> ->].
Qed.

Lemma attached_plan_fresh p c cs s m l :
  plan_fresh s m l -> plan_fresh (attached p c cs s) m l.
Proof.
  intros (? & ? & ?). unfold plan_fresh. by rewrite attached_planned_ids.
Qed.

(** [add] on a parent that has a root, at a position in range, with a
    child that is not on the way from the parent to the root and whose
    subtree is finite and does not hold the parent: the child is
    attached, and then its subtree is registered element by element. *)
Lemma add_registers fuel tries p c i s el ix m l :
  elements s !! p = Some el ->
  match i with
  | Some i => 0 <= i <= Z.of_nat (length (children el))
  | None => True
  end ->
  SModelElement.index fuel p s = (Normal ix, s) ->
  c ∉ ancestors fuel (elements s) (Some p) ->
  indices s !! ix = Some m ->
  preorder fuel (elements s) c = Some l ->
  p ∉ l ->
  SParentElement.add fuel tries p c i s =
    for_of l (SModelIndex.register tries ix)
      (attached p c (inserted i c (children el)) s) /\
  Forall (fun y => is_Some (elements (attached p c (inserted i c (children el)) s) !! y)) l /\
  children <$> elements (attached p c (inserted i c (children el)) s) !! p =
    Some (inserted i c (children el)) /\
  parent <$> elements (attached p c (inserted i c (children el)) s) !! c =
    Some (Some p).
Proof.
  intros Hp Hi Hix Hanc Hm Hl Hpl.
  assert (is_Some (elements s !! c)) as Hc.
  { pose proof (preorder_objects _ _ _ _ Hl) as Hex.
    rewrite Forall_forall in Hex. apply Hex. by eapply preorder_head. }
  rewrite (add_in_range fuel tries p c i s el Hp Hi).
  set (cs := inserted i c (children el)) in *.
  assert (is_Some (elements (with_children p cs s) !! c)) as [elc1 Hc1]
    by (by apply with_children_is_Some).
  rewrite (bind_normal _ _ _ _ _ (set_parent_spec c (Some p) _ elc1 Hc1)).
  fold (attached p c cs s). set (s2 := attached p c cs s) in *.
  assert (SModelElement.index fuel p s2 = (Normal ix, s2)) as Hix2.
  { apply (index_getter_visited fuel p s s2); [|done].
    intros x Hx. apply attached_links. by intros ->. }
  rewrite (bind_normal _ _ _ _ _ Hix2).
  assert (preorder fuel (elements s2) c = Some l) as Hl2.
  { apply (preorder_except fuel (elements s) _ p); try done.
    intros x Hx. by apply attached_children. }
  destruct (attached_lookup p c cs s el Hp Hc) as (Hcs & Hpar & _).
  split_and!; try done.
  - by apply add_preorder.
  - by eapply preorder_objects.
Qed.

(** C1, amended.  p.add(c, i?) inserts c into p.children and sets
    c.parent before it registers the subtree of c, and nothing is undone
    when the registration throws.

    Whenever the call throws DuplicateIdentifier, c is in p.children at
    the requested position, c.parent is p, and every index holds at least
    the entries it held.

    Let p have a root, the position be in range, c not be on the way from
    p to the root, and the subtree of c be finite and not hold p.  If
    some element of the subtree carries an id that is registered in the
    index of the root, the call does not return; when it ends it throws
    DuplicateIdentifier for the id of an element of the subtree, and it
    does end unless it is in the retry loop of an element without id.
    Either way c is attached as above, the elements of the subtree
    visited before are registered, one entry each, and the index is as
    before the call exactly when no element was visited before, the call
    failing at c itself.

    The call throws DuplicateIdentifier at the first element whose id is
    registered or is carried or drawn by an element before it, when the
    elements before it are distinct and their ids, carried or drawn,
    differ from one another and are not registered; the store then is the
    store with c attached when that first element is c itself. *)
Theorem C1_duplicate_after_attach fuel tries p c i s el :
  elements s !! p = Some el ->
  (forall dup s',
     SParentElement.add fuel tries p c i s =
       (Throw (DuplicateIdentifier dup), s') ->
     children <$> elements s' !! p = Some (inserted i c (children el)) /\
     parent <$> elements s' !! c = Some (Some p) /\
     (forall ix m, indices s !! ix = Some m ->
        exists m', indices s' !! ix = Some m' /\ m ⊆ m')) /\
  (forall ix m l,
     match i with
     | Some i => 0 <= i <= Z.of_nat (length (children el))
     | None => True
     end ->
     random_in_range s ->
     SModelElement.index fuel p s = (Normal ix, s) ->
     c ∉ ancestors fuel (elements s) (Some p) ->
     indices s !! ix = Some m ->
     preorder fuel (elements s) c = Some l ->
     p ∉ l ->
     (forall z r s',
        z ∈ l ->
        id_of (elements s) z <> EmptyString ->
        is_Some (m !! id_of (elements s) z) ->
        SParentElement.add fuel tries p c i s = (r, s') ->
        r <> Normal tt /\
        (forall err, r = Throw err ->
           exists x, x ∈ l /\
             err = DuplicateIdentifier (id_of (elements s') x)) /\
        (r = Diverge ->
           exists y, y ∈ l /\ id_of (elements s) y = EmptyString) /\
        children <$> elements s' !! p = Some (inserted i c (children el)) /\
        parent <$> elements s' !! c = Some (Some p) /\
        (forall j, j <> ix -> indices s' !! j = indices s !! j) /\
        exists l1 l2,
          l = l1 ++ l2 /\ l2 <> [] /\
          indices s' !! ix = Some (set_all (elements s') l1 m) /\
          size (set_all (elements s') l1 m) = (size m + length l1)%nat /\
          m ⊆ set_all (elements s') l1 m /\
          (forall y, y ∈ l1 ->
             set_all (elements s') l1 m !! id_of (elements s') y = Some y) /\
          (l1 = [] <-> indices s' = indices s)) /\
     ((0 < tries)%nat ->
      forall l1 x l2,
        l = l1 ++ x :: l2 ->
        plan_fresh s m l1 ->
        x ∉ l1 ->
        id_of (elements s) x <> EmptyString ->
        is_Some (m !! id_of (elements s) x) \/
        id_of (elements s) x ∈ planned_ids (elements s) (candidate s) 0 l1 ->
        exists s',
          SParentElement.add fuel tries p c i s =
            (Throw (DuplicateIdentifier (id_of (elements s) x)), s') /\
          children <$> elements s' !! p = Some (inserted i c (children el)) /\
          parent <$> elements s' !! c = Some (Some p) /\
          indices s' !! ix = Some (set_all (elements s') l1 m) /\
          size (set_all (elements s') l1 m) = (size m + length l1)%nat /\
          (l1 = [] -> s' = attached p c (inserted i c (children el)) s))).
Proof.
  intros Hp. split.
  - intros dup s' Hadd.
    assert (match i with
            | Some i => 0 <= i <= Z.of_nat (length (children el))
            | None => True
            end) as Hi.
    { destruct i as [i|]; [|done].
      destruct (decide (0 <= i <= Z.of_nat (length (children el)))); [done|].
      rewrite (add_out_of_range fuel tries p c i s el Hp) in Hadd by lia.
      discriminate. }
    rewrite (add_in_range fuel tries p c i s el Hp Hi) in Hadd.
    set (cs := inserted i c (children el)) in *.
    destruct (elements (with_children p cs s) !! c) as [elc1|] eqn:Hc1; cycle 1.
    { rewrite (bind_throw _ _ _ _ _ (set_parent_dangling c _ _ Hc1)) in Hadd.
      discriminate. }
    assert (is_Some (elements s !! c)) as Hc.
    { apply (with_children_is_Some p cs). by eexists. }
    rewrite (bind_normal _ _ _ _ _ (set_parent_spec c (Some p) _ elc1 Hc1))
      in Hadd.
    fold (attached p c cs s) in Hadd.
    destruct (attached_lookup p c cs s el Hp Hc) as (Hcs & Hpar & Hind).
    destruct (bind_inv _ _ _ _ _ Hadd)
      as [(ix & s2 & Hix & Hreg)|[(e & Hix & [= <-])|[_ ?]]]; [| |done].
    + pose proof (index_getter_same _ _ _ _ _ Hix) as ->.
      pose proof (preserves_add _ _ _ _ _ _ _ Hreg)
        as (Hobj & _ & Hother & Hmap & _).
      split_and!.
      * by rewrite (same_objects_children _ _ p Hobj).
      * by rewrite (same_objects_parent _ _ c Hobj).
      * intros ix' m Hm. rewrite <- Hind in Hm.
        destruct (decide (ix' = ix)) as [->|Hne]; [by apply Hmap|].
        exists m. by rewrite (Hother ix' Hne).
    + apply throws_only_index_getter in Hix as [?|?]; discriminate.
  - intros ix m l Hi Hr Hix Hanc Hm Hl Hpl.
    destruct (add_registers fuel tries p c i s el ix m l Hp Hi Hix Hanc Hm Hl Hpl)
      as (Hadd & Hex & Hcs & Hpar).
    set (s2 := attached p c (inserted i c (children el)) s) in *.
    assert (random_in_range s2) as Hr2.
    { intros k. unfold s2.
      destruct (attached_stream p c (inserted i c (children el)) s) as [-> _].
      apply Hr. }
    assert (indices s2 !! ix = Some m) as Hm2
      by (unfold s2; by rewrite attached_indices).
    split.
    + intros z r s' Hz Hzid Hzdup Hrun. rewrite Hadd in Hrun.
      pose proof (preserves_for_of (index_frame ix) l _
                    (preserves_register tries ix) _ _ _ Hrun)
        as (Hobj & Hids & Hother & _).
      destruct (for_of_register_any tries ix l s2 m r s' Hr2 Hm2 Hex Hrun)
        as (l1 & l2 & Hsplit & Hidx & Hfresh & Hcase).
      destruct (set_all_fresh _ _ _ Hfresh) as (Hsize & Hsub & Hin & Hdom).
      assert (id_of (elements s') z = id_of (elements s) z) as Hz'.
      { rewrite Hids; unfold s2; rewrite attached_id_of; done. }
      assert (l2 <> []) as Hl2.
      { intros ->. rewrite app_nil_r in Hsplit. subst l1.
        destruct Hfresh as [Hall _]. rewrite Forall_forall in Hall.
        destruct (Hall z Hz) as [_ Hnone]. rewrite Hz' in Hnone.
        rewrite Hnone in Hzdup. by destruct Hzdup. }
      split_and!.
      * intros ->. done.
      * intros err ->. destruct Hcase as (x & l2' & -> & -> & _).
        exists x. split; [|done]. rewrite Hsplit.
        apply elem_of_app. right. apply list_elem_of_here.
      * intros ->. destruct Hcase as (y & l2' & -> & _ & Hy).
        exists y. split.
        -- rewrite Hsplit. apply elem_of_app. right. apply list_elem_of_here.
        -- by rewrite <- (attached_id_of p c (inserted i c (children el)) s).
      * by rewrite (same_objects_children _ _ p Hobj).
      * by rewrite (same_objects_parent _ _ c Hobj).
      * intros j Hj. rewrite (Hother j Hj). unfold s2.
        by rewrite attached_indices.
      * exists l1, l2. split_and!; try done. split.
        -- intros ->. apply map_eq. intros j.
           destruct (decide (j = ix)) as [->|Hj].
           ++ by rewrite Hidx, Hm.
           ++ rewrite (Hother j Hj). unfold s2. by rewrite attached_indices.
        -- intros Heq. rewrite Heq, Hm in Hidx. injection Hidx as Hidx.
           rewrite <- Hidx in Hsize.
           destruct l1; [done|]. cbn in Hsize. lia.
    + intros Htries l1 x l2 Hsplit Hplan Hx Hxid Hdup.
      destruct tries as [|t]; [lia|]. subst l.
      destruct (for_of_register_collision t ix l1 x l2 s2 m Hr2 Hm2 Hex)
        as (s' & Hrun & _ & Hidx & Hsize & (Hobj & _) & Hnil).
      * by apply attached_plan_fresh.
      * done.
      * unfold s2. by rewrite attached_id_of.
      * unfold s2. by rewrite attached_id_of, attached_planned_ids.
      * exists s'. split_and!; try done.
        -- rewrite Hadd. unfold s2 in Hrun. by rewrite attached_id_of in Hrun.
        -- by rewrite (same_objects_children _ _ p Hobj).
        -- by rewrite (same_objects_parent _ _ c Hobj).
Qed.

Lemma C1_duplicate_after_attach_witness :
  exists s',
    SParentElement.add 2 1 1%positive 14%positive None example_family =
      (Throw (DuplicateIdentifier "A"), s') /\
    children <$> elements s' !! 1%positive =
      Some [2%positive; 3%positive; 4%positive; 14%positive] /\
    parent <$> elements s' !! 14%positive = Some (Some 1%positive) /\
    size (id2element s' 10%positive) = 6%nat /\
    indices s' <> indices example_family.
Proof.
  destruct (C1_duplicate_after_attach 2 1 1%positive 14%positive None
              example_family
              (mkElement "root" "R" [2%positive; 3%positive; 4%positive] None
                 (RootClass 10%positive)))
    as [_ Hsub].
  - vm_compute. reflexivity.
  - destruct (Hsub 10%positive
                {["R"%string := 1%positive; "A"%string := 2%positive;
                  "B"%string := 3%positive; "C"%string := 4%positive]}
                [14%positive; 15%positive; 16%positive])
      as [Hany Hfirst].
    + exact I.
    + exact example_family_in_range.
    + vm_compute. reflexivity.
    + apply (bool_decide_unpack _); vm_compute; exact I.
    + vm_compute. reflexivity.
    + vm_compute. reflexivity.
    + apply (bool_decide_unpack _); vm_compute; exact I.
    + destruct (Hfirst ltac:(lia) [14%positive; 15%positive] 16%positive [])
        as (s' & Hrun & Hcs & Hpar & Hidx & Hsize & _).
      * reflexivity.
      * split_and!; apply (bool_decide_unpack _); vm_compute; exact I.
      * apply (bool_decide_unpack _); vm_compute; exact I.
      * vm_compute. discriminate.
      * left. vm_compute. by eexists.
      * exists s'. split_and!; [exact Hrun|exact Hcs|exact Hpar| |].
        -- unfold id2element. rewrite Hidx. exact Hsize.
        -- destruct (Hany 16%positive (Throw (DuplicateIdentifier "A")) s')
             as (_ & _ & _ & _ & _ & _ & Hvisited).
           ++ apply (bool_decide_unpack _); vm_compute; exact I.
           ++ vm_compute. discriminate.
           ++ vm_compute. by eexists.
           ++ exact Hrun.
           ++ destruct Hvisited
                as (l1 & l2 & _ & _ & Hidx' & Hsize' & _ & _ & Hiff).
              intros Heq. apply Hiff in Heq. subst l1.
              rewrite Hidx' in Hidx. apply (inj Some) in Hidx.
              rewrite <- Hidx in Hsize. unfold set_all in Hsize.
              cbn [foldl length] in Hsize. lia.
Defined.

End AttachFailure.
